(** * Veritas Reputation Scoring ([src/scoring.py]) over IEEE 754 binary64

    The module is four pure numeric functions and one wrapper that
    composes them.  Python's [float] is an IEEE 754 binary64 number, so
    the embedding computes with Rocq's primitive [float]: the same format
    with the same round-to-nearest-even arithmetic, NaN and infinities
    included.  Python's [int] is unbounded and is modelled by [Z].

    The parameters the docstrings type as [float] are floats here, and the
    two typed as [int] ([verification_count], [update_frequency]) are
    integers; an integer meets a float only in [n * 0.02] and [n * 0.05],
    where Python converts it and fails with [OverflowError] when it is too
    large.  Failure is an explicit result: [Raise] for an exception,
    [Return] for a value.

    Universal statements about the primitive operations go through their
    specification by [spec_float] ([Prim2SF], [add_spec], [mul_spec], ...),
    and the rounding facts they need are proved below on [spec_float]. *)

From Stdlib Require Import ZArith Floats Bool Lia.

Set Warnings "-inexact-float".

Local Open Scope float_scope.

(** ** The fragment of Python the module uses *)

Module Py.

(** The exceptions a call of the module can end with: the [ValueError]
    that [calculate_VRS] raises itself (the spec's InvalidWeights), and
    the [OverflowError] of the interpreter when an [int] operand of a
    float operation is too large to convert. *)
Inductive error : Set :=
| InvalidWeights
| IntTooLarge.

Inductive result (A : Type) : Type :=
| Return (a : A)
| Raise (e : error).
Arguments Return {A} a.
Arguments Raise {A} e.

Definition bind {A B : Type} (c : result A) (k : A -> result B) : result B :=
  match c with
  | Return a => k a
  | Raise e => Raise e
  end.

Definition returns {A : Type} (c : result A) : bool :=
  match c with Return _ => true | Raise _ => false end.

(** [min(a, b)] and [max(a, b)] with two positional arguments keep the
    first argument unless the second compares strictly smaller (larger). *)
Definition min (a b : float) : float := if b <? a then b else a.
Definition max (a b : float) : float := if a <? b then b else a.

(** [float(n)] for an [int]: the nearest binary64, ties to even;
    [OverflowError] when that would not be finite. *)
Definition float_of_int (n : Z) : result float :=
  match binary_normalize prec emax n 0 false with
  | S754_infinity _ => Raise IntTooLarge
  | sf => Return (SF2Prim sf)
  end.

(** [n * x] for an [int] [n] and a [float] [x]. *)
Definition int_mul (n : Z) (x : float) : result float :=
  bind (float_of_int n) (fun fn => Return (fn * x)).

(** The quotient [n / d] of two integers ([d > 0]) rounded to the
    nearest integer, ties to the even one. *)
Definition div_half_even (n d : Z) : Z :=
  let q := (n / d)%Z in
  match (2 * (n mod d) ?= d)%Z with
  | Lt => q
  | Gt => (q + 1)%Z
  | Eq => if Z.even q then q else (q + 1)%Z
  end.

(** The number of hundredths nearest to [m * 2^e], ties to even. *)
Definition hundredths (m : positive) (e : Z) : Z :=
  match e with
  | Zneg k => div_half_even (Zpos m * 100) (2 ^ Zpos k)
  | _ => (Zpos m * 100 * 2 ^ e)%Z
  end.

(** The binary64 nearest to the ratio [n / d] of two positive integers,
    with sign [s]. *)
Definition SF_of_ratio (s : bool) (n d : positive) : spec_float :=
  let '(q, e, l) := SFdiv_core_binary prec emax (Zpos n) 0 (Zpos d) 0 in
  binary_round_aux prec emax s q e l.

(** The binary64 nearest to [q] hundredths, with the sign [s] of the
    number that was rounded. *)
Definition float_of_hundredths (s : bool) (q : Z) : float :=
  match q with
  | Zpos h => SF2Prim (SF_of_ratio s h 100)
  | _ => if s then neg_zero else zero
  end.

(** [round(x, 2)] on a float: a NaN or an infinity is returned as it is;
    a finite [x] is rounded, as the exact binary fraction it is, to two
    decimal places with ties to even, and the decimal result is converted
    back to the nearest binary64.  The sign of [x] is kept. *)
Definition round2 (x : float) : float :=
  match Prim2SF x with
  | S754_finite s m e => float_of_hundredths s (hundredths m e)
  | _ => x
  end.

(** The largest integer that is a binary64 number. *)
Definition max_float_int : Z := 9007199254740991 * 2 ^ 971.

End Py.

Import Py.

Notation "x <- c ;; k" := (Py.bind c (fun x => k))
  (at level 61, c at next level, right associativity).

(** ** The scoring functions *)

Definition compute_S (credibility_score source_reputation : float)
    (verification_count : Z) : result float :=
  let base_score := (credibility_score + source_reputation) / 2 in
  scaled <- int_mul verification_count 0.02 ;;
  let verification_bonus := Py.min scaled 0.1 in
  Return (Py.min (base_score + verification_bonus) 1.0).

Definition compute_C (accuracy completeness bias_score : float) : float :=
  let base_score := (accuracy + completeness) / 2 in
  Py.max (base_score - bias_score) 0.0.

Definition compute_T (age_days : float) (update_frequency : Z)
    (relevance_decay : float) : result float :=
  let base_score := Py.max (1.0 - age_days * relevance_decay) 0.0 in
  scaled <- int_mul update_frequency 0.05 ;;
  let update_bonus := Py.min scaled 0.15 in
  Return (Py.min (base_score + update_bonus) 1.0).

Definition calculate_VRS (S C T w1 w2 w3 : float) : result float :=
  if 0.01 <? abs ((w1 + w2 + w3) - 1.0) then Raise InvalidWeights
  else
    let vrs := (w1 * S) + (w2 * C) + (w3 * T) in
    Return (round2 vrs).

Definition calculate_VRS_from_raw
    (credibility_score source_reputation : float) (verification_count : Z)
    (accuracy completeness bias_score : float)
    (age_days : float) (update_frequency : Z) (relevance_decay : float)
    (w1 w2 w3 : float) : result float :=
  S <- compute_S credibility_score source_reputation verification_count ;;
  let C := compute_C accuracy completeness bias_score in
  T <- compute_T age_days update_frequency relevance_decay ;;
  calculate_VRS S C T w1 w2 w3.

(** The default arguments of the source; a call that omits an argument
    is the call with the default written out. *)
Definition default_verification_count : Z := 0.
Definition default_bias_score : float := 0.0.
Definition default_update_frequency : Z := 0.
Definition default_relevance_decay : float := 0.05.
Definition default_w1 : float := 0.4.
Definition default_w2 : float := 0.4.
Definition default_w3 : float := 0.2.

(** ** The contracts in the words of the specification *)

Module Spec.

(** A score lies in [0.0, 1.0]. *)
Definition in_unit (x : float) : Prop := (0 <=? x) = true /\ (x <=? 1) = true.

(** A real number that is not negative: a float from zero up to, and
    without, infinity. *)
Definition nonneg_real (x : float) : Prop :=
  (0 <=? x) = true /\ (x <? infinity) = true.

(** The exact value of a float in units of [2^-1074], the spacing of the
    smallest binary64 numbers: every finite float is a whole number of
    them.  It is 0 for a NaN and an infinity. *)
Definition units (x : float) : Z :=
  match Prim2SF x with
  | S754_finite false m e => Zpos m * 2 ^ (e + 1074)
  | S754_finite true m e => - (Zpos m * 2 ^ (e + 1074))
  | _ => 0
  end.


(** 4.2: the average of the two ratings minus the bias penalty, clamped
    to a minimum of 0.0. *)
Definition compute_C_spec (accuracy completeness bias_score : float) : float :=
  Py.max ((accuracy + completeness) / 2 - bias_score) 0.0.


(** 4.4: the weights are rejected when [|w1 + w2 + w3 - 1.0| > 0.01],
    computed as the code computes it. *)
Definition weights_rejected (w1 w2 w3 : float) : bool :=
  0.01 <? abs (w1 + w2 + w3 - 1.0).


(** [q] is the integer nearest to the fraction [n / d], the even one of
    the two when [n / d] lies half way between them. *)
Definition nearest_even (n d q : Z) : Prop :=
  (2 * Z.abs (n - q * d) <= d)%Z
  /\ ((2 * Z.abs (n - q * d) = d)%Z -> Z.even q = true).

(** [r] is [x] rounded to two decimal places, half to even: the float
    nearest to [q / 100], where [q] is the whole number of hundredths
    nearest to the exact value of [x]. *)
Definition rounded_2dp (x r : float) : Prop :=
  match Prim2SF x with
  | S754_finite s m e =>
      exists q : Z,
        nearest_even (Zpos m * 100 * 2 ^ Z.max 0 e) (2 ^ Z.max 0 (- e)) q
        /\ r = float_of_hundredths s q
  | _ => r = x
  end.

End Spec.

(** ** Vocabulary for the binary64 format

    Rocq specifies its primitive floats by [spec_float]: a zero, an
    infinity, a NaN, or a finite number of sign [s], mantissa [m] and
    exponent [e] with the value [m * 2^e].  The definitions below name
    what the proofs about rounding speak of. *)

Module B64.

Local Open Scope Z_scope.

(** The exponent a number with [e] binary digits before the point of
    [2^0] is rounded at: 53 digits of precision, never below [2^-1074]. *)
Definition fexp64 (e : Z) : Z := fexp prec emax e.

(** [m * 2^e] in units of [2^b], for a base [b] at or below [e]. *)
Definition scale (m e b : Z) : Z := m * 2 ^ (e - b).

(** The comparison of the values [m1 * 2^e1] and [m2 * 2^e2]. *)
Definition vle (m1 e1 m2 e2 : Z) : Prop :=
  scale m1 e1 (Z.min e1 e2) <= scale m2 e2 (Z.min e1 e2).
Definition vlt (m1 e1 m2 e2 : Z) : Prop :=
  scale m1 e1 (Z.min e1 e2) < scale m2 e2 (Z.min e1 e2).

(** A mantissa in its canonical form: 53 digits, or fewer at the smallest
    exponent; and with an exponent in range as well. *)
Definition canonical64 (m : positive) (e : Z) : Prop :=
  Z.max (Zpos (digits2_pos m) + e - 53) (-1074) = e.
Definition bounded64 (m : positive) (e : Z) : Prop := canonical64 m e /\ e <= 971.

(** A result that is a zero, a finite number or an infinity of sign [s]. *)
Definition signed (s : bool) (x : spec_float) : Prop :=
  match x with
  | S754_zero s' | S754_infinity s' | S754_finite s' _ _ => s' = s
  | S754_nan => False
  end.

Definition SFle (x y : spec_float) : Prop := SFleb x y = true.
Definition SFlt (x y : spec_float) : Prop := SFltb x y = true.

Definition SFzero : spec_float := S754_zero false.
Definition SFone : spec_float := S754_finite false 4503599627370496 (-52).
Definition SFtwo : spec_float := S754_finite false 4503599627370496 (-51).

(** The value of a finite number in units of [2^-1074], the spacing of
    the smallest binary64 numbers. *)
Definition zval (x : spec_float) : Z :=
  match x with
  | S754_finite false m e => Zpos m * 2 ^ (e + 1074)
  | S754_finite true m e => - (Zpos m * 2 ^ (e + 1074))
  | _ => 0
  end.

(** A finite binary64 number that is not negative. *)
Definition fin_nonneg (x : spec_float) : Prop :=
  match x with
  | S754_zero _ => True
  | S754_finite false m e => canonical64 m e
  | _ => False
  end.

End B64.

(** ** Correct rounding, by value *)

(** The operations of binary64 round the exact result to the nearest float,
    ties to even.  The definitions below state that on integers: a value is
    a number of units of [2^-1074], the least positive float. *)
Module Units.
Import B64.
Local Open Scope Z_scope.

(** A location as a number from 0 to 3: exact, below the half, the half,
    above the half. *)
Definition loc_code (l : location) : Z :=
  match l with
  | loc_Exact => 0
  | loc_Inexact Lt => 1
  | loc_Inexact Eq => 2
  | loc_Inexact Gt => 3
  end.

(** A shift record as one number: four times the kept digits, plus two
    for the round digit, plus one for the sticky digit. *)
Definition shr_code (r : shr_record) : Z :=
  4 * shr_m r + (if shr_r r then 2 else 0) + (if shr_s r then 1 else 0).

(** [K] with its [k + 1] lowest binary digits merged into one sticky
    digit, which is 1 when one of them is. *)
Definition sticky (K k : Z) : Z :=
  2 * (K / 2 ^ (k + 1)) + (if K mod 2 ^ (k + 1) =? 0 then 0 else 1).

(** The location of the fraction [n / d] between the integers around it. *)
Definition loc_of_ratio (n d : Z) : location :=
  if n mod d =? 0 then loc_Exact else loc_Inexact (2 * (n mod d) ?= d).

(** [N / D], a number of units of [2^-1074], rounded to 53 binary digits,
    ties to even. *)
Definition round_units (N D : Z) : Z :=
  let k := Z.max 0 (Zdigits2 (N / D) - 53) in
  div_half_even N (D * 2 ^ k) * 2 ^ k.

(** The binary64 number of [U] units of [2^-1074], with sign [s]. *)
Definition SF_of_units (s : bool) (U : Z) : spec_float :=
  let k := Z.max 0 (Zdigits2 U - 53) in
  match U / 2 ^ k with
  | Z0 => S754_zero s
  | Zpos m => if k <=? 2045 then S754_finite s m (k - 1074) else S754_infinity s
  | Zneg _ => S754_nan
  end.

(** The binary64 number nearest to the fraction [N / D] of units. *)
Definition SFround (N D : Z) : spec_float :=
  match N with
  | Z0 => S754_zero false
  | Zpos _ => SF_of_units false (round_units N D)
  | Zneg _ => SF_of_units true (round_units (- N) D)
  end.

(** The value of a number in units of [2^-1074], an infinity standing
    above (below) every finite number. *)
Definition xval (x : spec_float) : Z :=
  match x with
  | S754_infinity false => 2 ^ 2100
  | S754_infinity true => - 2 ^ 2100
  | _ => zval x
  end.

(** A zero or a finite number. *)
Definition SFfinite (x : spec_float) : Prop :=
  match x with
  | S754_zero _ | S754_finite _ _ _ => True
  | _ => False
  end.

(** The value of a float in units of [2^-1074]; [2^2100] and its
    opposite for the infinities, 0 for a NaN. *)
Definition fval (x : float) : Z := xval (Prim2SF x).

(** The float is NaN; it is a zero or a finite number. *)
Definition is_NaN (x : float) : Prop := Prim2SF x = S754_nan.
Definition finite (x : float) : Prop := SFfinite (Prim2SF x).

(** The value of the binary64 number nearest to [N / D] units. *)
Definition rnd (N D : Z) : Z := xval (SFround N D).

(** The whole number of hundredths nearest to [v] units, ties to even. *)
Definition hund (v : Z) : Z := div_half_even (100 * v) (2 ^ 1074).

(** [round(x, 2)] by value: on a value [v >= 0] that is not infinite, and
    on any value. *)
Definition r2pos (v : Z) : Z := rnd (hund v * 2 ^ 1074) 100.
Definition r2val (v : Z) : Z :=
  if Z.abs v <? 2 ^ 2100 then (if v <? 0 then - r2pos (- v) else r2pos v) else v.

(** The least and the greatest computed sum of weights that [calculate_VRS]
    accepts: the floats next above 0.99 and next below 1.01. *)
Definition least_accepted_sum : float := 0.9900000000000001.
Definition greatest_accepted_sum : float := 1.0099999999999998.

End Units.

(** ** Rounding to nearest, ties to even, in binary64 *)

Module Rounding.

Import B64.
Local Open Scope Z_scope.

Lemma fexp64_eq e : fexp64 e = Z.max (e - 53) (-1074).
Proof. reflexivity. Qed.

Lemma digits2_pos_bounds (m : positive) :
  2 ^ (Zpos (digits2_pos m) - 1) <= Zpos m < 2 ^ Zpos (digits2_pos m).
Proof.
  induction m as [p IH | p IH |]; cbn [digits2_pos].
  - rewrite Pos2Z.inj_succ.
    replace (Z.succ (Zpos (digits2_pos p)) - 1) with (Zpos (digits2_pos p) - 1 + 1) by lia.
    rewrite Z.pow_succ_r by lia. rewrite Z.pow_add_r by lia. lia.
  - rewrite Pos2Z.inj_succ.
    replace (Z.succ (Zpos (digits2_pos p)) - 1) with (Zpos (digits2_pos p) - 1 + 1) by lia.
    rewrite Z.pow_succ_r by lia. rewrite Z.pow_add_r by lia. lia.
  - cbn. lia.
Qed.

Lemma pow2_pos k : 0 <= k -> 0 < 2 ^ k.
Proof. intros; apply Z.pow_pos_nonneg; lia. Qed.

(** The number of digits of a positive number, from the powers of two around it. *)
Lemma digits2_pos_le (m : positive) (d : Z) :
  0 <= d -> Zpos m < 2 ^ d -> Zpos (digits2_pos m) <= d.
Proof.
  intros Hd Hm. destruct (digits2_pos_bounds m) as [Hlo _].
  destruct (Z_le_gt_dec (Zpos (digits2_pos m)) d) as [|Hgt]; [assumption|].
  assert (2 ^ d <= 2 ^ (Zpos (digits2_pos m) - 1)) by (apply Z.pow_le_mono_r; lia).
  lia.
Qed.

Lemma digits2_pos_ge (m : positive) (d : Z) :
  2 ^ d <= Zpos m -> d + 1 <= Zpos (digits2_pos m).
Proof.
  intros Hm. destruct (digits2_pos_bounds m) as [_ Hhi].
  destruct (Z_le_gt_dec (d + 1) (Zpos (digits2_pos m))) as [|Hgt]; [assumption|].
  assert (2 ^ Zpos (digits2_pos m) <= 2 ^ d) by (apply Z.pow_le_mono_r; lia).
  lia.
Qed.

Lemma pow2_xO p : 2 ^ Zpos p~0 = 2 ^ Zpos p * 2 ^ Zpos p.
Proof. rewrite <- Z.pow_add_r by lia. f_equal; lia. Qed.

Lemma pow2_xI p : 2 ^ Zpos p~1 = 2 * (2 ^ Zpos p * 2 ^ Zpos p).
Proof. rewrite <- Z.pow_add_r, <- Z.pow_succ_r by lia. f_equal; lia. Qed.

(** ** Right shifts with sticky bits *)

Lemma shr_1_m (r : shr_record) :
  0 <= shr_m r -> shr_m (shr_1 r) = shr_m r / 2.
Proof.
  destruct r as [m b s]; cbn [shr_m]. intros Hm.
  destruct m as [|p|p]; [reflexivity| |lia].
  destruct p as [p|p|]; cbn [shr_1 shr_m].
  - rewrite Pos2Z.inj_xI. apply Z.div_unique with (r := 1); lia.
  - rewrite Pos2Z.inj_xO. apply Z.div_unique with (r := 0); lia.
  - reflexivity.
Qed.

Lemma shr_1_exact (r : shr_record) :
  0 <= shr_m r -> loc_of_shr_record r = loc_Exact -> shr_m r mod 2 = 0 ->
  loc_of_shr_record (shr_1 r) = loc_Exact.
Proof.
  destruct r as [m b s]; cbn [shr_m]. intros Hm Hl Hmod.
  destruct b, s; try discriminate.
  destruct m as [|p|p]; [reflexivity| |lia].
  destruct p as [p|p|]; cbn; try reflexivity.
  - rewrite Pos2Z.inj_xI in Hmod. rewrite Z.add_comm, Z.mul_comm, Z.mod_add in Hmod by lia.
    discriminate.
  - discriminate.
Qed.

Lemma iter_shr_1 (p : positive) (r : shr_record) :
  0 <= shr_m r ->
  shr_m (iter_pos shr_1 p r) = shr_m r / 2 ^ Zpos p.
Proof.
  revert r. induction p as [p IH | p IH |]; intros r Hr; cbn [iter_pos].
  - assert (H1 : 0 <= shr_m (shr_1 r)) by (rewrite shr_1_m by lia; apply Z.div_pos; lia).
    assert (H2 : 0 <= shr_m (iter_pos shr_1 p (shr_1 r)))
      by (rewrite IH by lia; apply Z.div_pos; [lia | apply pow2_pos; lia]).
    rewrite IH, IH, shr_1_m by lia.
    rewrite !Z.div_div by (try apply pow2_pos; lia).
    rewrite pow2_xI. reflexivity.
  - assert (H2 : 0 <= shr_m (iter_pos shr_1 p r))
      by (rewrite IH by lia; apply Z.div_pos; [lia | apply pow2_pos; lia]).
    rewrite IH, IH by lia.
    rewrite !Z.div_div by (try apply pow2_pos; lia).
    rewrite pow2_xO. reflexivity.
  - rewrite shr_1_m by lia. reflexivity.
Qed.

Lemma iter_shr_1_exact (p : positive) (r : shr_record) :
  0 <= shr_m r -> loc_of_shr_record r = loc_Exact -> shr_m r mod 2 ^ Zpos p = 0 ->
  loc_of_shr_record (iter_pos shr_1 p r) = loc_Exact.
Proof.
  revert r. induction p as [p IH | p IH |]; intros r Hr Hl Hmod; cbn [iter_pos].
  - rewrite pow2_xI in Hmod.
    assert (Hp : 0 < 2 ^ Zpos p) by (apply pow2_pos; lia).
    apply Z.mod_divide in Hmod; [|lia]. destruct Hmod as [c Hc].
    assert (H1 : 0 <= shr_m (shr_1 r)) by (rewrite shr_1_m by lia; apply Z.div_pos; lia).
    assert (E1 : shr_m (shr_1 r) = c * 2 ^ Zpos p * 2 ^ Zpos p).
    { rewrite shr_1_m by lia. rewrite Hc.
      replace (c * (2 * (2 ^ Zpos p * 2 ^ Zpos p))) with (c * 2 ^ Zpos p * 2 ^ Zpos p * 2) by lia.
      apply Z.div_mul; lia. }
    assert (L1 : loc_of_shr_record (shr_1 r) = loc_Exact).
    { apply shr_1_exact; try assumption. rewrite Hc.
      replace (c * (2 * (2 ^ Zpos p * 2 ^ Zpos p))) with (c * 2 ^ Zpos p * 2 ^ Zpos p * 2) by lia.
      apply Z.mod_mul; lia. }
    assert (H2 : 0 <= shr_m (iter_pos shr_1 p (shr_1 r)))
      by (rewrite iter_shr_1 by lia; apply Z.div_pos; lia).
    apply IH; try assumption.
    + apply IH; try assumption. rewrite E1. apply Z.mod_mul; lia.
    + rewrite iter_shr_1, E1 by lia. rewrite Z.div_mul by lia. apply Z.mod_mul; lia.
  - rewrite pow2_xO in Hmod.
    assert (Hp : 0 < 2 ^ Zpos p) by (apply pow2_pos; lia).
    apply Z.mod_divide in Hmod; [|lia]. destruct Hmod as [c Hc].
    replace (c * (2 ^ Zpos p * 2 ^ Zpos p)) with (c * 2 ^ Zpos p * 2 ^ Zpos p) in Hc by lia.
    assert (H2 : 0 <= shr_m (iter_pos shr_1 p r))
      by (rewrite iter_shr_1 by lia; apply Z.div_pos; lia).
    apply IH; try assumption.
    + apply IH; try assumption. rewrite Hc. apply Z.mod_mul; lia.
    + rewrite iter_shr_1, Hc by lia. rewrite Z.div_mul by lia. apply Z.mod_mul; lia.
  - apply shr_1_exact; assumption.
Qed.

Lemma shr_spec (r : shr_record) (e n : Z) :
  0 <= shr_m r ->
  exists r', shr r e n = (r', e + Z.max n 0)
    /\ shr_m r' = shr_m r / 2 ^ Z.max n 0
    /\ (loc_of_shr_record r = loc_Exact -> shr_m r mod 2 ^ Z.max n 0 = 0 ->
        loc_of_shr_record r' = loc_Exact).
Proof.
  intros Hr. destruct n as [|p|p]; cbn [shr].
  - exists r. rewrite Z.max_r, Z.add_0_r, Z.pow_0_r, Z.div_1_r by lia. auto.
  - exists (iter_pos shr_1 p r). rewrite Z.max_l by lia.
    split; [reflexivity|]. split; [apply iter_shr_1; assumption|].
    apply iter_shr_1_exact; assumption.
  - exists r. rewrite Z.max_r, Z.add_0_r, Z.pow_0_r, Z.div_1_r by lia. auto.
Qed.

Lemma shr_record_of_loc_m m l : shr_m (shr_record_of_loc m l) = m.
Proof. destruct l as [|[]]; reflexivity. Qed.

Lemma loc_of_shr_record_of_loc m l : loc_of_shr_record (shr_record_of_loc m l) = l.
Proof. destruct l as [|[]]; reflexivity. Qed.

Lemma round_nearest_even_bounds q l :
  q <= round_nearest_even q l <= q + 1.
Proof. destruct l as [|[]]; cbn; try destruct (Z.even q); lia. Qed.

(** The two shifts of [binary_round_aux], spelled out on integers. *)
Lemma binary_round_aux_eq (s : bool) (mx ex : Z) (lx : location) :
  0 <= mx ->
  exists q1 l1 e1 q2 e2,
    e1 = ex + Z.max (fexp64 (Zdigits2 mx + ex) - ex) 0
    /\ q1 = mx / 2 ^ (e1 - ex)
    /\ (lx = loc_Exact -> mx mod 2 ^ (e1 - ex) = 0 -> l1 = loc_Exact)
    /\ e2 = e1 + Z.max (fexp64 (Zdigits2 (round_nearest_even q1 l1) + e1) - e1) 0
    /\ q2 = round_nearest_even q1 l1 / 2 ^ (e2 - e1)
    /\ binary_round_aux prec emax s mx ex lx =
       match q2 with
       | Z0 => S754_zero s
       | Zpos m => if e2 <=? 971 then S754_finite s m e2 else S754_infinity s
       | Zneg _ => S754_nan
       end.
Proof.
  intros Hmx. unfold binary_round_aux, shr_fexp.
  destruct (shr_spec (shr_record_of_loc mx lx) ex (fexp prec emax (Zdigits2 mx + ex) - ex))
    as (r1 & E1 & M1 & X1); [rewrite shr_record_of_loc_m; assumption|].
  rewrite E1. rewrite shr_record_of_loc_m in M1, X1. rewrite loc_of_shr_record_of_loc in X1.
  set (e1 := ex + Z.max (fexp prec emax (Zdigits2 mx + ex) - ex) 0) in *.
  set (m1 := round_nearest_even (shr_m r1) (loc_of_shr_record r1)).
  assert (Hq1 : 0 <= shr_m r1) by (rewrite M1; apply Z.div_pos; [lia | apply pow2_pos; lia]).
  assert (Hm1 : 0 <= m1) by (pose proof (round_nearest_even_bounds (shr_m r1) (loc_of_shr_record r1)); unfold m1; lia).
  destruct (shr_spec (shr_record_of_loc m1 loc_Exact) e1 (fexp prec emax (Zdigits2 m1 + e1) - e1))
    as (r2 & E2 & M2 & _); [rewrite shr_record_of_loc_m; assumption|].
  rewrite E2. rewrite shr_record_of_loc_m in M2.
  exists (shr_m r1), (loc_of_shr_record r1), e1, (shr_m r2),
    (e1 + Z.max (fexp prec emax (Zdigits2 m1 + e1) - e1) 0).
  fold m1. unfold fexp64.
  replace (e1 - ex) with (Z.max (fexp prec emax (Zdigits2 mx + ex) - ex) 0) by (unfold e1; lia).
  replace (e1 + Z.max (fexp prec emax (Zdigits2 m1 + e1) - e1) 0 - e1)
    with (Z.max (fexp prec emax (Zdigits2 m1 + e1) - e1) 0) by lia.
  repeat split; try assumption; try reflexivity.
Qed.

(** ** Comparing the values [m * 2^e] of mantissa-exponent pairs *)

Lemma scale_rebase m e b b' :
  b' <= b -> b <= e -> scale m e b' = scale m e b * 2 ^ (b - b').
Proof.
  unfold scale. intros. rewrite <- Z.mul_assoc, <- Z.pow_add_r by lia.
  do 2 f_equal. lia.
Qed.

Lemma vle_base m1 e1 m2 e2 b :
  b <= e1 -> b <= e2 -> vle m1 e1 m2 e2 <-> scale m1 e1 b <= scale m2 e2 b.
Proof.
  intros. unfold vle.
  rewrite (scale_rebase m1 e1 (Z.min e1 e2) b), (scale_rebase m2 e2 (Z.min e1 e2) b) by lia.
  apply Z.mul_le_mono_pos_r. apply pow2_pos; lia.
Qed.

Lemma vlt_base m1 e1 m2 e2 b :
  b <= e1 -> b <= e2 -> vlt m1 e1 m2 e2 <-> scale m1 e1 b < scale m2 e2 b.
Proof.
  intros. unfold vlt.
  rewrite (scale_rebase m1 e1 (Z.min e1 e2) b), (scale_rebase m2 e2 (Z.min e1 e2) b) by lia.
  apply Z.mul_lt_mono_pos_r. apply pow2_pos; lia.
Qed.

Lemma vle_digits (m1 m2 : positive) (e1 e2 : Z) :
  vle (Zpos m1) e1 (Zpos m2) e2 ->
  Zpos (digits2_pos m1) + e1 <= Zpos (digits2_pos m2) + e2.
Proof.
  unfold vle, scale. set (b := Z.min e1 e2). intros H.
  destruct (digits2_pos_bounds m1) as [L1 _]. destruct (digits2_pos_bounds m2) as [_ U2].
  assert (P1 : 0 < 2 ^ (e1 - b)) by (apply pow2_pos; lia).
  assert (P2 : 0 < 2 ^ (e2 - b)) by (apply pow2_pos; lia).
  assert (A : 2 ^ (Zpos (digits2_pos m1) - 1 + (e1 - b)) < 2 ^ (Zpos (digits2_pos m2) + (e2 - b))).
  { rewrite !Z.pow_add_r by lia. nia. }
  apply Z.pow_lt_mono_r_iff in A; lia.
Qed.

Lemma canonical_mantissa_64 m e :
  canonical_mantissa prec emax m e = true <-> canonical64 m e.
Proof. unfold canonical_mantissa, canonical64. rewrite Z.eqb_eq. reflexivity. Qed.

(** The rounded value of [mx * 2^ex] is not below a representable number
    that is not above it. *)
Lemma round_aux_lower (s : bool) (mx : positive) (ex : Z) (lx : location)
    (mF : positive) (eF : Z) :
  canonical64 mF eF ->
  vle (Zpos mF) eF (Zpos mx) ex ->
  binary_round_aux prec emax s (Zpos mx) ex lx = S754_infinity s
  \/ exists q e, binary_round_aux prec emax s (Zpos mx) ex lx = S754_finite s q e
       /\ (eF < e \/ (e = eF /\ Zpos mF <= Zpos q)).
Proof.
  intros HF Hle.
  destruct (binary_round_aux_eq s (Zpos mx) ex lx) as (q1 & l1 & e1 & q2 & e2 & E1 & Q1 & _ & E2 & Q2 & R);
    [lia|].
  rewrite R. clear R.
  pose proof (vle_digits _ _ _ _ Hle) as Hd.
  cbn [Zdigits2] in E1. rewrite fexp64_eq in E1, E2.
  set (d := Zpos (digits2_pos mx)) in *. set (dF := Zpos (digits2_pos mF)) in *.
  unfold canonical64 in HF. fold dF in HF.
  destruct (digits2_pos_bounds mx) as [Lx Ux]. fold d in Lx, Ux.
  assert (HeF : eF <= e1) by lia.
  assert (Hex : ex <= e1) by lia.
  assert (P1 : 0 < 2 ^ (e1 - ex)) by (apply pow2_pos; lia).
  assert (Hq1 : 1 <= q1 /\ (e1 = eF -> Zpos mF <= q1)).
  { split.
    - rewrite Q1. apply Z.div_le_lower_bound; [lia|]. rewrite Z.mul_1_r.
      destruct (Z_le_gt_dec (Z.max (d + ex - 53) (-1074) - ex) 0) as [Hn|Hn].
      + replace (e1 - ex) with 0 by lia. cbn. lia.
      + assert (e1 - ex <= d - 1) by lia.
        apply Z.le_trans with (2 ^ (d - 1)); [apply Z.pow_le_mono_r; lia | assumption].
    - intros Heq. rewrite Q1. apply Z.div_le_lower_bound; [lia|].
      apply (vle_base _ _ _ _ ex) in Hle; [|lia|lia]. unfold scale in Hle.
      rewrite Z.sub_diag, Z.pow_0_r, Z.mul_1_r in Hle. rewrite Heq. lia. }
  destruct Hq1 as [Hq1 HqF].
  pose proof (round_nearest_even_bounds q1 l1) as Hm1.
  set (m1 := round_nearest_even q1 l1) in *.
  destruct m1 as [|pm1|pm1] eqn:Em1; try lia.
  cbn [Zdigits2] in E2.
  destruct (digits2_pos_bounds pm1) as [L1 U1]. set (d1 := Zpos (digits2_pos pm1)) in *.
  assert (He2 : e1 <= e2) by lia.
  assert (Hk2 : e2 - e1 <= d1 - 1) by lia.
  assert (P2 : 0 < 2 ^ (e2 - e1)) by (apply pow2_pos; lia).
  assert (Hq2 : 1 <= q2).
  { rewrite Q2. apply Z.div_le_lower_bound; [lia|]. rewrite Z.mul_1_r.
    apply Z.le_trans with (2 ^ (d1 - 1)); [apply Z.pow_le_mono_r; lia | assumption]. }
  destruct q2 as [|pq2|pq2]; try lia.
  destruct (e2 <=? 971); [right | left; reflexivity].
  exists pq2, e2. split; [reflexivity|].
  destruct (Z_le_gt_dec e2 eF) as [Hc|Hc]; [right | left; lia].
  assert (e2 = eF) by lia. assert (e1 = eF) by lia. split; [assumption|].
  rewrite Q2. replace (e2 - e1) with 0 by lia. rewrite Z.pow_0_r, Z.div_1_r.
  specialize (HqF H0). lia.
Qed.

(** The rounded value of a number located at or just above [mx * 2^ex] is
    not above a representable number that is not below it. *)
Lemma round_aux_upper (s : bool) (mx ex : Z) (lx : location)
    (mF : positive) (eF : Z) :
  0 <= mx -> ex <= fexp64 (Zdigits2 mx + ex) ->
  canonical64 mF eF -> eF <= 971 ->
  vle mx ex (Zpos mF) eF ->
  (lx <> loc_Exact -> vlt mx ex (Zpos mF) eF) ->
  binary_round_aux prec emax s mx ex lx = S754_zero s
  \/ exists q e, binary_round_aux prec emax s mx ex lx = S754_finite s q e
       /\ (e < eF \/ (e = eF /\ Zpos q <= Zpos mF)).
Proof.
  intros Hmx Hpre HF HeF Hle Hlt.
  destruct (binary_round_aux_eq s mx ex lx) as (q1 & l1 & e1 & q2 & e2 & E1 & Q1 & X1 & E2 & Q2 & R);
    [lia|].
  rewrite R. clear R.
  unfold canonical64 in HF. set (dF := Zpos (digits2_pos mF)) in *.
  destruct (digits2_pos_bounds mF) as [LF UF]. fold dF in LF, UF.
  set (f := fexp64 (Zdigits2 mx + ex)) in *.
  assert (Ef : e1 = f) by lia. clear E1. subst e1.
  assert (Hf : -1074 <= f) by (unfold f; rewrite fexp64_eq; lia).
  assert (HfF : f <= eF).
  { destruct mx as [|pmx|pmx]; [| |lia].
    - unfold f in *. cbn [Zdigits2] in *. rewrite fexp64_eq in *. lia.
    - pose proof (vle_digits _ _ _ _ Hle) as Hd. unfold f. cbn [Zdigits2].
      rewrite fexp64_eq. fold dF in Hd. lia. }
  assert (P1 : 0 < 2 ^ (f - ex)) by (apply pow2_pos; lia).
  assert (PF : 0 < 2 ^ (eF - f)) by (apply pow2_pos; lia).
  set (G := Zpos mF * 2 ^ (eF - f)).
  assert (EG : scale (Zpos mF) eF ex = 2 ^ (f - ex) * G).
  { unfold scale, G. replace (eF - ex) with ((eF - f) + (f - ex)) by lia.
    rewrite Z.pow_add_r by lia. lia. }
  assert (Hx : mx <= 2 ^ (f - ex) * G).
  { apply (vle_base _ _ _ _ ex) in Hle; [|lia|lia]. rewrite EG in Hle.
    unfold scale in Hle. rewrite Z.sub_diag, Z.pow_0_r, Z.mul_1_r in Hle. assumption. }
  assert (Hq1 : 0 <= q1 <= G).
  { rewrite Q1. split; [apply Z.div_pos; lia | apply Z.div_le_upper_bound; lia]. }
  assert (Hm1 : 0 <= round_nearest_even q1 l1 <= G).
  { pose proof (round_nearest_even_bounds q1 l1) as Hb.
    destruct l1 as [|c] eqn:El1; [cbn [round_nearest_even]; lia|].
    assert (q1 < G); [|lia].
    rewrite Q1. apply Z.div_lt_upper_bound; [lia|].
    destruct lx as [|cx] eqn:Elx.
    - destruct (Z.eq_dec (mx mod 2 ^ (f - ex)) 0) as [Hz|Hnz].
      + specialize (X1 eq_refl Hz). discriminate.
      + destruct (Z.eq_dec mx (2 ^ (f - ex) * G)) as [Heq|Hne]; [|lia].
        exfalso. apply Hnz. rewrite Heq, Z.mul_comm. apply Z.mod_mul. lia.
    - assert (Hs : vlt mx ex (Zpos mF) eF) by (apply Hlt; discriminate).
      apply (vlt_base _ _ _ _ ex) in Hs; [|lia|lia]. rewrite EG in Hs.
      unfold scale in Hs. rewrite Z.sub_diag, Z.pow_0_r, Z.mul_1_r in Hs. assumption. }
  set (m1 := round_nearest_even q1 l1) in *.
  assert (He2 : f <= e2 <= eF /\ (0 < m1 -> m1 <= 2 ^ (e2 - f) * 2 ^ (eF - e2) * Zpos mF)).
  { destruct m1 as [|pm1|pm1] eqn:Em1; [| |lia].
    - cbn [Zdigits2] in E2. rewrite fexp64_eq in E2. split; [lia|intros; lia].
    - cbn [Zdigits2] in E2. rewrite fexp64_eq in E2.
      assert (Hd1 : Zpos (digits2_pos pm1) <= dF + (eF - f)).
      { apply digits2_pos_le; [lia|]. rewrite Z.pow_add_r by lia. unfold G in Hm1. nia. }
      split; [lia|]. intros _.
      rewrite <- Z.pow_add_r by lia. replace (e2 - f + (eF - e2)) with (eF - f) by lia.
      unfold G in Hm1. lia. }
  destruct He2 as [He2 Hm1F].
  assert (P2 : 0 < 2 ^ (e2 - f)) by (apply pow2_pos; lia).
  assert (Hq2 : 0 <= q2) by (rewrite Q2; apply Z.div_pos; lia).
  destruct q2 as [|pq2|pq2]; [left; reflexivity | right | lia].
  replace (e2 <=? 971) with true by (symmetry; apply Z.leb_le; lia).
  exists pq2, e2. split; [reflexivity|].
  destruct (Z_lt_le_dec e2 eF) as [Hc|Hc]; [left; assumption | right].
  assert (e2 = eF) by lia. split; [assumption|].
  rewrite Q2. apply Z.div_le_upper_bound; [lia|].
  assert (0 < m1).
  { destruct (Z.eq_dec m1 0) as [Hz|Hnz]; [|lia].
    rewrite Hz in Q2. rewrite Z.div_0_l in Q2 by lia. discriminate. }
  specialize (Hm1F H0). replace (eF - e2) with 0 in Hm1F by lia.
  rewrite Z.pow_0_r in Hm1F. lia.
Qed.

(** ** Shape of rounded results *)

Lemma round_aux_signed (s : bool) (mx ex : Z) (lx : location) :
  0 <= mx -> signed s (binary_round_aux prec emax s mx ex lx).
Proof.
  intros Hmx.
  destruct (binary_round_aux_eq s mx ex lx) as (q1 & l1 & e1 & q2 & e2 & E1 & Q1 & _ & E2 & Q2 & R);
    [lia|].
  rewrite R.
  assert (0 <= q1) by (rewrite Q1; apply Z.div_pos; [lia | apply pow2_pos; lia]).
  pose proof (round_nearest_even_bounds q1 l1).
  assert (0 <= q2) by (rewrite Q2; apply Z.div_pos; [lia | apply pow2_pos; lia]).
  destruct q2; [reflexivity | destruct (e2 <=? 971); reflexivity | lia].
Qed.

(** ** Alignment before rounding *)

Lemma iter_xO_val (m d : positive) : Zpos (Pos.iter xO m d) = Zpos m * 2 ^ Zpos d.
Proof.
  change (Pos.iter xO m d) with (shift_pos d m).
  rewrite shift_pos_correct.
  change (Zpower_pos 2 d) with (2 ^ Zpos d). apply Z.mul_comm.
Qed.

Lemma shl_align_spec (mx : positive) (ex ex' : Z) :
  exists m' e', shl_align mx ex ex' = (m', e')
    /\ e' = Z.min ex ex' /\ Zpos m' = Zpos mx * 2 ^ (ex - e').
Proof.
  unfold shl_align. destruct (ex' - ex) as [|d|d] eqn:Ed.
  - exists mx, ex. repeat split; [lia|]. rewrite Z.sub_diag. cbn. lia.
  - exists mx, ex. repeat split; [lia|]. rewrite Z.sub_diag. cbn. lia.
  - exists (Pos.iter xO mx d), ex'. repeat split; [lia|].
    rewrite iter_xO_val. do 2 f_equal. lia.
Qed.

Lemma digits2_pos_scaled (m m' : positive) (k : Z) :
  0 <= k -> Zpos m' = Zpos m * 2 ^ k ->
  Zpos (digits2_pos m') = Zpos (digits2_pos m) + k.
Proof.
  intros Hk E. destruct (digits2_pos_bounds m) as [L U].
  assert (P : 0 < 2 ^ k) by (apply pow2_pos; lia).
  apply Z.le_antisymm.
  - apply digits2_pos_le; [lia|]. rewrite E, Z.pow_add_r by lia. nia.
  - replace (Zpos (digits2_pos m) + k) with (Zpos (digits2_pos m) - 1 + k + 1) by lia.
    apply digits2_pos_ge. rewrite E, Z.pow_add_r by lia. nia.
Qed.

Lemma scale_aligned m m' e e' b :
  b <= e' -> e' <= e -> m' = m * 2 ^ (e - e') -> scale m' e' b = scale m e b.
Proof.
  intros Hb He ->. unfold scale. rewrite <- Z.mul_assoc, <- Z.pow_add_r by lia.
  do 2 f_equal. lia.
Qed.

(** [binary_round] is [binary_round_aux] at an aligned pair of the same value. *)
Lemma binary_round_aligned (s : bool) (m : positive) (e : Z) :
  exists (m' : positive) (e' : Z),
    binary_round prec emax s m e = binary_round_aux prec emax s (Zpos m') e' loc_Exact
    /\ e' <= e /\ Zpos m' = Zpos m * 2 ^ (e - e')
    /\ e' <= fexp64 (Zdigits2 (Zpos m') + e').
Proof.
  unfold binary_round.
  destruct (shl_align_spec m e (fexp prec emax (Zpos (digits2_pos m) + e)))
    as (m' & e' & E & He & Hm).
  rewrite E. exists m', e'. split; [reflexivity|].
  split; [lia|]. split; [assumption|].
  cbn [Zdigits2]. rewrite (digits2_pos_scaled m m' (e - e')) by (assumption || lia).
  replace (Zpos (digits2_pos m) + (e - e') + e') with (Zpos (digits2_pos m) + e) by lia.
  unfold fexp64. lia.
Qed.

Lemma binary_round_signed (s : bool) (m : positive) (e : Z) :
  signed s (binary_round prec emax s m e).
Proof.
  destruct (binary_round_aligned s m e) as (m' & e' & E & _). rewrite E.
  apply round_aux_signed. lia.
Qed.

Lemma vle_aligned_l (m m' : positive) (e e' : Z) m2 e2 :
  e' <= e -> Zpos m' = Zpos m * 2 ^ (e - e') ->
  vle (Zpos m') e' m2 e2 <-> vle (Zpos m) e m2 e2.
Proof.
  intros He Hm.
  rewrite (vle_base _ _ _ _ (Z.min e' e2)) by lia.
  rewrite (vle_base (Zpos m) e _ _ (Z.min e' e2)) by lia.
  rewrite (scale_aligned (Zpos m) (Zpos m') e e') by (assumption || lia). reflexivity.
Qed.

Lemma vle_aligned_r (m m' : positive) (e e' : Z) m1 e1 :
  e' <= e -> Zpos m' = Zpos m * 2 ^ (e - e') ->
  vle m1 e1 (Zpos m') e' <-> vle m1 e1 (Zpos m) e.
Proof.
  intros He Hm.
  rewrite (vle_base _ _ _ _ (Z.min e' e1)) by lia.
  rewrite (vle_base _ _ (Zpos m) e (Z.min e' e1)) by lia.
  rewrite (scale_aligned (Zpos m) (Zpos m') e e') by (assumption || lia). reflexivity.
Qed.

Lemma binary_round_lower (s : bool) (m : positive) (e : Z) (mF : positive) (eF : Z) :
  canonical64 mF eF ->
  vle (Zpos mF) eF (Zpos m) e ->
  binary_round prec emax s m e = S754_infinity s
  \/ exists q e', binary_round prec emax s m e = S754_finite s q e'
       /\ (eF < e' \/ (e' = eF /\ Zpos mF <= Zpos q)).
Proof.
  intros HF Hle.
  destruct (binary_round_aligned s m e) as (m' & e' & E & He & Hm & _). rewrite E.
  apply round_aux_lower; [assumption|].
  apply (vle_aligned_r m m' e e'); assumption.
Qed.

Lemma binary_round_upper (s : bool) (m : positive) (e : Z) (mF : positive) (eF : Z) :
  canonical64 mF eF -> eF <= 971 ->
  vle (Zpos m) e (Zpos mF) eF ->
  binary_round prec emax s m e = S754_zero s
  \/ exists q e', binary_round prec emax s m e = S754_finite s q e'
       /\ (e' < eF \/ (e' = eF /\ Zpos q <= Zpos mF)).
Proof.
  intros HF HeF Hle.
  destruct (binary_round_aligned s m e) as (m' & e' & E & He & Hm & Hpre). rewrite E.
  apply round_aux_upper; try assumption; [lia | | congruence].
  apply (vle_aligned_l m m' e e'); assumption.
Qed.

(** ** The order of binary64 numbers *)

Lemma SFcompare_antisym (x y : spec_float) :
  SFcompare y x = option_map CompOpp (SFcompare x y).
Proof.
  destruct x as [sx|sx| |sx mx ex], y as [sy|sy| |sy my ey]; cbn;
    try destruct sx; try destruct sy; try reflexivity;
    rewrite (Z.compare_antisym ex ey); destruct (ex ?= ey); cbn; try reflexivity;
    change (Pos.compare_cont Eq my mx) with (Pos.compare my mx);
    change (Pos.compare_cont Eq mx my) with (Pos.compare mx my);
    rewrite (Pos.compare_antisym mx my);
    try rewrite CompOpp_involutive; reflexivity.
Qed.

Lemma SFle_not_lt (x y : spec_float) : SFle x y -> SFltb y x = false.
Proof.
  unfold SFle, SFleb, SFltb. rewrite (SFcompare_antisym x y).
  destruct (SFcompare x y) as [[]|]; cbn; congruence.
Qed.

(** Two comparable numbers are ordered one way or the other. *)
Lemma SFle_total (x y : spec_float) :
  x <> S754_nan -> y <> S754_nan -> SFltb y x = false -> SFle x y.
Proof.
  intros Hx Hy. unfold SFle, SFleb, SFltb. rewrite (SFcompare_antisym x y).
  destruct (SFcompare x y) as [[]|] eqn:E; cbn; try congruence.
  destruct x, y; cbn in E; congruence.
Qed.

Lemma SFle_not_nan_l (x y : spec_float) : SFle x y -> x <> S754_nan.
Proof. intros H ->. discriminate. Qed.

Lemma SFle_not_nan_r (x y : spec_float) : SFle x y -> y <> S754_nan.
Proof. intros H ->. destruct x; discriminate. Qed.

Lemma bounded_64 m e : bounded prec emax m e = true <-> bounded64 m e.
Proof.
  unfold bounded, bounded64. rewrite andb_true_iff, canonical_mantissa_64, Z.leb_le.
  reflexivity.
Qed.

Lemma canonical64_digits m e : canonical64 m e -> Zpos (digits2_pos m) <= 53 /\ -1074 <= e.
Proof. unfold canonical64. lia. Qed.

(** Between canonical numbers a smaller exponent means a smaller value. *)
Lemma canonical64_exp_lt m1 e1 m2 e2 :
  canonical64 m1 e1 -> canonical64 m2 e2 -> e1 < e2 ->
  vlt (Zpos m1) e1 (Zpos m2) e2.
Proof.
  unfold canonical64. intros C1 C2 H.
  apply (vlt_base _ _ _ _ e1); [lia|lia|]. unfold scale.
  rewrite Z.sub_diag, Z.pow_0_r, Z.mul_1_r.
  destruct (digits2_pos_bounds m1) as [_ U1]. destruct (digits2_pos_bounds m2) as [L2 _].
  assert (D2 : Zpos (digits2_pos m2) = 53) by lia. rewrite D2 in L2.
  assert (Zpos m1 < 2 ^ 53).
  { apply Z.lt_le_trans with (1 := U1). apply Z.pow_le_mono_r; lia. }
  assert (2 ^ 1 <= 2 ^ (e2 - e1)) by (apply Z.pow_le_mono_r; lia).
  change (2 ^ (53 - 1)) with 4503599627370496 in L2.
  change (2 ^ 53) with 9007199254740992 in H0. change (2 ^ 1) with 2 in H1. nia.
Qed.

Lemma SFle_finite m1 e1 m2 e2 :
  canonical64 m1 e1 -> canonical64 m2 e2 ->
  SFle (S754_finite false m1 e1) (S754_finite false m2 e2) <->
  vle (Zpos m1) e1 (Zpos m2) e2.
Proof.
  intros C1 C2. unfold SFle, SFleb. cbn [SFcompare].
  destruct (Z.compare_spec e1 e2) as [E|L|G].
  - subst e2. unfold vle, scale. rewrite Z.min_id, Z.sub_diag, Z.pow_0_r, !Z.mul_1_r.
    change (Pos.compare_cont Eq m1 m2) with (Pos.compare m1 m2).
    destruct (Pos.compare_spec m1 m2); split; intros; try reflexivity; try discriminate; lia.
  - pose proof (canonical64_exp_lt _ _ _ _ C1 C2 L) as V. unfold vlt in V. unfold vle.
    split; [lia | reflexivity].
  - pose proof (canonical64_exp_lt _ _ _ _ C2 C1 G) as V. unfold vlt in V. unfold vle.
    rewrite Z.min_comm in V. split; [discriminate | lia].
Qed.

(** The conclusions of the rounding bounds, read as comparisons. *)
Lemma SFle_of_lower (R : spec_float) (mF : positive) (eF : Z) :
  R = S754_infinity false
  \/ (exists q e, R = S754_finite false q e /\ (eF < e \/ (e = eF /\ Zpos mF <= Zpos q))) ->
  SFle (S754_finite false mF eF) R.
Proof.
  intros [-> | (q & e & -> & H)]; [reflexivity|].
  unfold SFle, SFleb. cbn [SFcompare].
  destruct H as [H | [-> H]].
  - rewrite (proj2 (Z.compare_lt_iff eF e) H). reflexivity.
  - rewrite Z.compare_refl. change (Pos.compare_cont Eq mF q) with (Pos.compare mF q).
    destruct (Pos.compare_spec mF q); try reflexivity; lia.
Qed.

Lemma SFlt_of_lower (R : spec_float) (m0 mF : positive) (eF : Z) :
  (m0 < mF)%positive ->
  R = S754_infinity false
  \/ (exists q e, R = S754_finite false q e /\ (eF < e \/ (e = eF /\ Zpos mF <= Zpos q))) ->
  SFlt (S754_finite false m0 eF) R.
Proof.
  intros Hm [-> | (q & e & -> & H)]; [reflexivity|].
  unfold SFlt, SFltb. cbn [SFcompare].
  destruct H as [H | [-> H]].
  - rewrite (proj2 (Z.compare_lt_iff eF e) H). reflexivity.
  - rewrite Z.compare_refl. change (Pos.compare_cont Eq m0 q) with (Pos.compare m0 q).
    destruct (Pos.compare_spec m0 q); try reflexivity; lia.
Qed.

Lemma SFle_of_upper (R : spec_float) (mF : positive) (eF : Z) :
  R = S754_zero false
  \/ (exists q e, R = S754_finite false q e /\ (e < eF \/ (e = eF /\ Zpos q <= Zpos mF))) ->
  SFle R (S754_finite false mF eF).
Proof.
  intros [-> | (q & e & -> & H)]; [reflexivity|].
  unfold SFle, SFleb. cbn [SFcompare].
  destruct H as [H | [-> H]].
  - rewrite (proj2 (Z.compare_lt_iff e eF) H). reflexivity.
  - rewrite Z.compare_refl. change (Pos.compare_cont Eq q mF) with (Pos.compare q mF).
    destruct (Pos.compare_spec q mF); try reflexivity; lia.
Qed.

(** Numbers that are not negative, and numbers that are not positive. *)
Lemma SFle_zero_l (x : spec_float) :
  SFle (S754_zero false) x <->
  match x with
  | S754_zero _ => True
  | S754_finite s _ _ | S754_infinity s => s = false
  | S754_nan => False
  end.
Proof.
  unfold SFle, SFleb.
  destruct x as [[]|[]| |[] m e]; cbn; split; intros H;
    try reflexivity; try exact I; try discriminate; try contradiction.
Qed.

Lemma SFle_zero_r (x : spec_float) :
  SFle x (S754_zero false) <->
  match x with
  | S754_zero _ => True
  | S754_finite s _ _ | S754_infinity s => s = true
  | S754_nan => False
  end.
Proof.
  unfold SFle, SFleb.
  destruct x as [[]|[]| |[] m e]; cbn; split; intros H;
    try reflexivity; try exact I; try discriminate; try contradiction.
Qed.

Lemma signed_nonneg (x : spec_float) : signed false x -> SFle (S754_zero false) x.
Proof. intros H. apply SFle_zero_l. destruct x; cbn in *; auto. Qed.

Lemma signed_nonpos (x : spec_float) : signed true x -> SFle x (S754_zero false).
Proof. intros H. apply SFle_zero_r. destruct x; cbn in *; auto. Qed.

Lemma signed_neg_le_finite (x : spec_float) (mF : positive) (eF : Z) :
  signed true x -> SFle x (S754_finite false mF eF).
Proof.
  unfold SFle, SFleb.
  destruct x as [[]|[]| |[] m e]; cbn; intros H;
    try reflexivity; try discriminate; try contradiction.
Qed.

(** ** Rounded results are binary64 numbers *)

Lemma digits2_pos_div (m q : positive) (k : Z) :
  0 <= k -> Zpos q = Zpos m / 2 ^ k ->
  Zpos (digits2_pos q) = Zpos (digits2_pos m) - k.
Proof.
  intros Hk E. destruct (digits2_pos_bounds m) as [L U].
  set (d := Zpos (digits2_pos m)) in *.
  assert (P : 0 < 2 ^ k) by (apply pow2_pos; lia).
  assert (Hkd : k <= d - 1).
  { destruct (Z_le_gt_dec k (d - 1)) as [|Hgt]; [assumption|].
    assert (2 ^ d <= 2 ^ k) by (apply Z.pow_le_mono_r; lia).
    rewrite Z.div_small in E by lia. discriminate. }
  apply Z.le_antisymm.
  - apply digits2_pos_le; [lia|]. rewrite E. apply Z.div_lt_upper_bound; [lia|].
    rewrite <- Z.pow_add_r by lia. replace (k + (d - k)) with d by lia. assumption.
  - replace (d - k) with (d - 1 - k + 1) by lia. apply digits2_pos_ge.
    rewrite E. apply Z.div_le_lower_bound; [lia|].
    rewrite <- Z.pow_add_r by lia. replace (k + (d - 1 - k)) with (d - 1) by lia. assumption.
Qed.

Lemma round_aux_valid (s : bool) (mx ex : Z) (lx : location) :
  0 <= mx -> ex <= fexp64 (Zdigits2 mx + ex) ->
  valid_binary (binary_round_aux prec emax s mx ex lx) = true.
Proof.
  intros Hmx Hpre.
  destruct (binary_round_aux_eq s mx ex lx) as (q1 & l1 & e1 & q2 & e2 & E1 & Q1 & _ & E2 & Q2 & R);
    [lia|].
  rewrite R. clear R.
  destruct q2 as [|pq2|pq2] eqn:Eq2; try reflexivity.
  destruct (e2 <=? 971) eqn:Ee2; [|reflexivity].
  cbn [valid_binary]. apply bounded_64. split; [|apply Z.leb_le; assumption].
  set (f := fexp64 (Zdigits2 mx + ex)) in *.
  assert (Ef : e1 = f) by lia. clear E1. subst e1.
  assert (Hf : -1074 <= f) by (unfold f; rewrite fexp64_eq; lia).
  assert (P1 : 0 < 2 ^ (f - ex)) by (apply pow2_pos; lia).
  assert (Hq1 : 0 <= q1) by (rewrite Q1; apply Z.div_pos; lia).
  pose proof (round_nearest_even_bounds q1 l1) as Hm1.
  set (m1 := round_nearest_even q1 l1) in *.
  destruct m1 as [|pm1|pm1] eqn:Em1; [| |lia].
  { rewrite Z.div_0_l in Q2; [discriminate|]. apply Z.pow_nonzero; lia. }
  cbn [Zdigits2] in E2. rewrite fexp64_eq in E2.
  set (d1 := Zpos (digits2_pos pm1)) in *.
  assert (Hd1 : -1074 < f -> 53 <= d1).
  { intros Hn. destruct mx as [|pmx|pmx]; [| |lia].
    - unfold f in Hn, Hpre. cbn [Zdigits2] in Hn, Hpre. rewrite fexp64_eq in Hn, Hpre. lia.
    - assert (Efx : f = Zpos (digits2_pos pmx) + ex - 53)
        by (unfold f in *; cbn [Zdigits2] in *; rewrite fexp64_eq in *; lia).
      destruct (digits2_pos_bounds pmx) as [Lx _].
      assert (2 ^ 52 <= q1).
      { rewrite Q1. apply Z.div_le_lower_bound; [lia|].
        rewrite <- Z.pow_add_r by lia.
        replace (f - ex + 52) with (Zpos (digits2_pos pmx) - 1) by lia. assumption. }
      change 53 with (52 + 1). apply digits2_pos_ge. lia. }
  assert (He2 : f <= e2) by lia.
  unfold canonical64.
  rewrite (digits2_pos_div pm1 pq2 (e2 - f)) by (lia || assumption).
  fold d1. lia.
Qed.

Lemma binary_round_valid (s : bool) (m : positive) (e : Z) :
  valid_binary (binary_round prec emax s m e) = true.
Proof.
  destruct (binary_round_aligned s m e) as (m' & e' & E & _ & _ & Hpre). rewrite E.
  apply round_aux_valid; [lia | assumption].
Qed.

Lemma binary_normalize_valid (n e : Z) (sz : bool) :
  valid_binary (binary_normalize prec emax n e sz) = true.
Proof. destruct n; cbn [binary_normalize]; [reflexivity | apply binary_round_valid..]. Qed.

Lemma binary_normalize_signed (n e : Z) :
  signed (n <? 0) (binary_normalize prec emax n e false).
Proof. destruct n; cbn [binary_normalize]; [reflexivity | apply binary_round_signed..]. Qed.

(** ** Addition and subtraction *)

Lemma shl_align_min (mx : positive) (ex ey : Z) :
  exists m', fst (shl_align mx ex (Z.min ex ey)) = m'
    /\ Zpos m' = Zpos mx * 2 ^ (ex - Z.min ex ey).
Proof.
  destruct (shl_align_spec mx ex (Z.min ex ey)) as (m' & e' & E & He & Hm).
  exists m'. rewrite E. split; [reflexivity|]. rewrite Hm. do 2 f_equal. lia.
Qed.

Lemma SFadd_signed (s : bool) (x y : spec_float) :
  signed s x -> signed s y -> signed s (SFadd prec emax x y).
Proof.
  destruct x as [sx|sx| |sx mx ex], y as [sy|sy| |sy my ey]; cbn [signed];
    try contradiction; intros -> ->; try (destruct s; reflexivity).
  unfold SFadd.
  destruct (shl_align_min mx ex ey) as (mx' & -> & _).
  destruct (shl_align_min my ey ex) as (my' & Ey & _).
  rewrite Z.min_comm in Ey. rewrite Ey.
  destruct s; cbn [cond_Zopp Z.opp Z.add binary_normalize]; apply binary_round_signed.
Qed.

Lemma SFadd_upper (mx : positive) (ex : Z) (my : positive) (ey : Z)
    (mF : positive) (eF b : Z) :
  bounded64 mF eF -> b <= ex -> b <= ey -> b <= eF ->
  scale (Zpos mx) ex b + scale (Zpos my) ey b <= scale (Zpos mF) eF b ->
  SFle (SFadd prec emax (S754_finite false mx ex) (S754_finite false my ey))
       (S754_finite false mF eF).
Proof.
  intros [HF HeF] Hbx Hby HbF H.
  unfold SFadd.
  destruct (shl_align_min mx ex ey) as (mx' & -> & Hx).
  destruct (shl_align_min my ey ex) as (my' & Ey & Hy).
  rewrite Z.min_comm in Ey, Hy. rewrite Ey.
  cbn [cond_Zopp Z.add binary_normalize].
  apply SFle_of_upper. apply binary_round_upper; try assumption.
  apply (vle_base _ _ _ _ b); [lia | lia |].
  rewrite <- (scale_aligned (Zpos mx) (Zpos mx') ex (Z.min ex ey) b) in H by (assumption || lia).
  rewrite <- (scale_aligned (Zpos my) (Zpos my') ey (Z.min ex ey) b) in H by (assumption || lia).
  unfold scale in *. rewrite Pos2Z.inj_add. lia.
Qed.

Lemma SFsub_finite_signed (mx : positive) (ex : Z) (my : positive) (ey : Z) :
  exists s, signed s (SFsub prec emax (S754_finite false mx ex) (S754_finite false my ey)).
Proof.
  unfold SFsub. cbn [cond_Zopp].
  match goal with |- context [binary_normalize _ _ ?n _ _] =>
    exists (n <? 0); apply binary_normalize_signed end.
Qed.

Lemma SFsub_upper (mx : positive) (ex : Z) (my : positive) (ey : Z)
    (mF : positive) (eF : Z) :
  bounded64 mF eF ->
  vle (Zpos mx) ex (Zpos mF) eF ->
  SFle (SFsub prec emax (S754_finite false mx ex) (S754_finite false my ey))
       (S754_finite false mF eF).
Proof.
  intros [HF HeF] H. unfold SFsub. cbn [cond_Zopp].
  destruct (shl_align_min mx ex ey) as (mx' & -> & Hx).
  destruct (shl_align_min my ey ex) as (my' & Ey & Hy).
  rewrite Z.min_comm in Ey, Hy. rewrite Ey.
  destruct (Zpos mx' - Zpos my') as [|p|p] eqn:ED; cbn [binary_normalize].
  - reflexivity.
  - apply SFle_of_upper. apply binary_round_upper; try assumption.
    set (b := Z.min (Z.min ex ey) eF).
    assert (Hb : b <= ex /\ b <= ey /\ b <= eF) by (unfold b; lia).
    apply (vle_base _ _ _ _ b); [lia | lia |].
    apply (proj1 (vle_base (Zpos mx) ex (Zpos mF) eF b ltac:(lia) ltac:(lia))) in H.
    rewrite <- (scale_aligned (Zpos mx) (Zpos mx') ex (Z.min ex ey) b) in H by (assumption || lia).
    assert (P : 0 < 2 ^ (Z.min ex ey - b)) by (apply pow2_pos; lia).
    apply Z.le_trans with (2 := H). unfold scale.
    apply Z.mul_le_mono_nonneg_r; lia.
  - apply signed_neg_le_finite. apply binary_round_signed.
Qed.

Lemma SFsub_nonpos (mx : positive) (ex : Z) (my : positive) (ey : Z) :
  vle (Zpos mx) ex (Zpos my) ey ->
  SFle (SFsub prec emax (S754_finite false mx ex) (S754_finite false my ey)) SFzero.
Proof.
  intros H. unfold SFsub. cbn [cond_Zopp].
  destruct (shl_align_min mx ex ey) as (mx' & -> & Hx).
  destruct (shl_align_min my ey ex) as (my' & Ey & Hy).
  rewrite Z.min_comm in Ey, Hy. rewrite Ey.
  apply (proj1 (vle_base (Zpos mx) ex (Zpos my) ey (Z.min ex ey) ltac:(lia) ltac:(lia))) in H.
  unfold scale in H.
  destruct (Zpos mx' - Zpos my') as [|p|p] eqn:ED; cbn [binary_normalize].
  - reflexivity.
  - lia.
  - apply signed_nonpos. apply binary_round_signed.
Qed.

(** ** Multiplication *)

Lemma SFmul_finite_signed (mx : positive) (ex : Z) (my : positive) (ey : Z) :
  signed false (SFmul prec emax (S754_finite false mx ex) (S754_finite false my ey)).
Proof. cbn [SFmul xorb]. apply round_aux_signed. lia. Qed.

Lemma SFmul_lower (mx : positive) (ex : Z) (my : positive) (ey : Z)
    (mF : positive) (eF : Z) :
  canonical64 mF eF ->
  vle (Zpos mF) eF (Zpos mx * Zpos my) (ex + ey) ->
  let R := SFmul prec emax (S754_finite false mx ex) (S754_finite false my ey) in
  R = S754_infinity false
  \/ exists q e, R = S754_finite false q e /\ (eF < e \/ (e = eF /\ Zpos mF <= Zpos q)).
Proof.
  intros HF H. cbn [SFmul xorb]. apply round_aux_lower; [assumption|].
  rewrite Pos2Z.inj_mul. assumption.
Qed.

(** ** Division *)

Lemma new_location_exact (n : Z) : new_location n 0 = loc_Exact.
Proof. unfold new_location. destruct (Z.even n); reflexivity. Qed.

Lemma SFdiv_core_spec (mx : positive) (ex : Z) (my : positive) (ey : Z) :
  exists q e' l,
    SFdiv_core_binary prec emax (Zpos mx) ex (Zpos my) ey = (q, e', l)
    /\ e' <= ex - ey
    /\ q = (Zpos mx * 2 ^ (ex - ey - e')) / Zpos my
    /\ ((Zpos mx * 2 ^ (ex - ey - e')) mod Zpos my = 0 -> l = loc_Exact)
    /\ e' <= fexp64 (Zdigits2 q + e').
Proof.
  unfold SFdiv_core_binary. cbn [Zdigits2].
  set (d1 := Zpos (digits2_pos mx)). set (d2 := Zpos (digits2_pos my)).
  set (z := d1 + ex - (d2 + ey)).
  set (e' := Z.min (fexp prec emax z) (ex - ey)).
  assert (He' : e' <= ex - ey /\ e' <= fexp64 z) by (unfold e', fexp64; lia).
  set (sh := ex - ey - e').
  assert (Hsh : 0 <= sh) by (unfold sh; lia).
  set (m' := match sh with Z.pos _ => Z.shiftl (Zpos mx) sh | 0 => Zpos mx | Z.neg _ => 0 end).
  assert (Em' : m' = Zpos mx * 2 ^ sh).
  { unfold m'. destruct sh as [|p|p] eqn:Es; [cbn; lia | | lia].
    apply Z.shiftl_mul_pow2. lia. }
  destruct (Z.div_eucl m' (Zpos my)) as [q r] eqn:Ed.
  assert (Eq : q = m' / Zpos my) by (unfold Z.div; rewrite Ed; reflexivity).
  assert (Er : r = m' mod Zpos my) by (unfold Z.modulo; rewrite Ed; reflexivity).
  exists q, e', (new_location (Zpos my) r).
  split; [reflexivity|]. split; [lia|].
  fold sh. rewrite <- Em'. split; [assumption|].
  split; [intros Hz; rewrite Er, Hz; apply new_location_exact|].
  destruct (digits2_pos_bounds mx) as [L1 U1]. fold d1 in L1, U1.
  destruct (digits2_pos_bounds my) as [L2 U2]. fold d2 in L2, U2.
  assert (Psh : 0 < 2 ^ sh) by (apply pow2_pos; lia).
  assert (Lm : 2 ^ (d1 - 1 + sh) <= m') by (rewrite Em', Z.pow_add_r by lia; nia).
  assert (Hz : z = d1 + sh + e' - d2) by (unfold z, sh; lia).
  assert (Hq0 : 0 <= q) by (rewrite Eq; apply Z.div_pos; lia).
  rewrite fexp64_eq in *.
  destruct q as [|pq|pq]; [| |lia]; cbn [Zdigits2].
  - symmetry in Eq. apply Z.div_small_iff in Eq; [|lia].
    destruct Eq as [Eq|Eq]; [|lia].
    assert (A : 2 ^ (d1 - 1 + sh) < 2 ^ d2) by lia.
    apply Z.pow_lt_mono_r_iff in A; lia.
  - assert (Hd : d1 + sh - d2 <= Zpos (digits2_pos pq)); [|lia].
    destruct (Z_le_gt_dec (d1 + sh - d2) 1) as [Hs|Hs]; [lia|].
    replace (d1 + sh - d2) with (d1 + sh - d2 - 1 + 1) by lia.
    apply digits2_pos_ge. rewrite Eq. apply Z.div_le_lower_bound; [lia|].
    apply Z.le_trans with (2 := Lm).
    replace (d1 - 1 + sh) with (d2 + (d1 + sh - d2 - 1)) by lia.
    rewrite Z.pow_add_r by lia.
    apply Z.mul_le_mono_nonneg_r; [apply Z.pow_nonneg|]; lia.
Qed.

Lemma SFdiv_finite_signed (mx : positive) (ex : Z) (my : positive) (ey : Z) :
  signed false (SFdiv prec emax (S754_finite false mx ex) (S754_finite false my ey)).
Proof.
  cbn [SFdiv xorb].
  destruct (SFdiv_core_spec mx ex my ey) as (q & e' & l & E & He & Hq & _ & _).
  rewrite E. apply round_aux_signed. rewrite Hq. apply Z.div_pos; [|lia].
  apply Z.mul_nonneg_nonneg; [lia | apply Z.pow_nonneg; lia].
Qed.

Lemma SFdiv_upper (mx : positive) (ex : Z) (my : positive) (ey : Z)
    (mF : positive) (eF : Z) :
  bounded64 mF eF ->
  vle (Zpos mx) ex (Zpos mF * Zpos my) (eF + ey) ->
  SFle (SFdiv prec emax (S754_finite false mx ex) (S754_finite false my ey))
       (S754_finite false mF eF).
Proof.
  intros [HF HeF] H. cbn [SFdiv xorb].
  destruct (SFdiv_core_spec mx ex my ey) as (q & e' & l & E & He & Hq & Hl & Hpre).
  rewrite E.
  set (m' := Zpos mx * 2 ^ (ex - ey - e')) in *.
  assert (Psh : 0 < 2 ^ (ex - ey - e')) by (apply pow2_pos; lia).
  assert (Hm' : 0 < m') by (unfold m'; lia).
  assert (Hq0 : 0 <= q) by (rewrite Hq; apply Z.div_pos; lia).
  pose proof (Z.div_mod m' (Zpos my) ltac:(lia)) as Hdm. rewrite <- Hq in Hdm.
  pose proof (Z.mod_pos_bound m' (Zpos my) ltac:(lia)) as Hmb.
  set (b := Z.min e' eF).
  assert (Hb : b <= e' /\ b <= eF) by (unfold b; lia).
  apply (proj1 (vle_base (Zpos mx) ex (Zpos mF * Zpos my) (eF + ey) (b + ey)
                  ltac:(lia) ltac:(lia))) in H.
  unfold scale in H.
  replace (eF + ey - (b + ey)) with (eF - b) in H by lia.
  assert (Em : Zpos mx * 2 ^ (ex - (b + ey)) = m' * 2 ^ (e' - b)).
  { unfold m'. rewrite <- Z.mul_assoc, <- Z.pow_add_r by lia. do 2 f_equal. lia. }
  rewrite Em in H.
  assert (Pb : 0 < 2 ^ (e' - b)) by (apply pow2_pos; lia).
  assert (PF : 0 < 2 ^ (eF - b)) by (apply pow2_pos; lia).
  apply SFle_of_upper. apply round_aux_upper; try assumption.
  - apply (vle_base _ _ _ _ b); [lia | lia |]. unfold scale.
    apply (Z.mul_le_mono_pos_r _ _ (Zpos my)); [lia|].
    apply Z.le_trans with (m' * 2 ^ (e' - b)); [|lia].
    replace (q * 2 ^ (e' - b) * Zpos my) with (Zpos my * q * 2 ^ (e' - b)) by lia.
    apply Z.mul_le_mono_nonneg_r; lia.
  - intros Hne. apply (vlt_base _ _ _ _ b); [lia | lia |]. unfold scale.
    assert (Hr : m' mod Zpos my <> 0) by (intros Hz; apply Hne, Hl, Hz).
    apply (Z.mul_lt_mono_pos_r (Zpos my)); [lia|].
    apply Z.lt_le_trans with (m' * 2 ^ (e' - b)); [|lia].
    replace (q * 2 ^ (e' - b) * Zpos my) with (Zpos my * q * 2 ^ (e' - b)) by lia.
    apply Z.mul_lt_mono_pos_r; lia.
Qed.

(** ** Conversion of integers *)

Lemma binary_normalize_lower (n : positive) (mF : positive) (eF : Z) :
  canonical64 mF eF ->
  vle (Zpos mF) eF (Zpos n) 0 ->
  let R := binary_normalize prec emax (Zpos n) 0 false in
  R = S754_infinity false
  \/ exists q e, R = S754_finite false q e /\ (eF < e \/ (e = eF /\ Zpos mF <= Zpos q)).
Proof. intros HF H. cbn [binary_normalize]. apply binary_round_lower; assumption. Qed.

(** ** Finite numbers that are not negative, by value *)

Lemma vle_trans m1 e1 m2 e2 m3 e3 :
  vle m1 e1 m2 e2 -> vle m2 e2 m3 e3 -> vle m1 e1 m3 e3.
Proof.
  intros H12 H23. set (b := Z.min e1 (Z.min e2 e3)).
  assert (Hb : b <= e1 /\ b <= e2 /\ b <= e3) by (unfold b; lia).
  apply (proj1 (vle_base m1 e1 m2 e2 b ltac:(lia) ltac:(lia))) in H12.
  apply (proj1 (vle_base m2 e2 m3 e3 b ltac:(lia) ltac:(lia))) in H23.
  apply (vle_base m1 e1 m3 e3 b); lia.
Qed.

Lemma vle_mul_r m1 e1 m2 e2 k e :
  0 <= k -> vle m1 e1 m2 e2 -> vle (m1 * k) (e1 + e) (m2 * k) (e2 + e).
Proof.
  intros Hk H. set (b := Z.min e1 e2).
  assert (Hb : b <= e1 /\ b <= e2) by (unfold b; lia).
  apply (proj1 (vle_base m1 e1 m2 e2 b ltac:(lia) ltac:(lia))) in H.
  apply (vle_base _ _ _ _ (b + e)); [lia | lia |]. unfold scale in *.
  replace (e1 + e - (b + e)) with (e1 - b) by lia.
  replace (e2 + e - (b + e)) with (e2 - b) by lia. nia.
Qed.

Lemma fin_nonneg_of (x : spec_float) :
  valid_binary x = true -> SFle SFzero x -> SFlt x (S754_infinity false) -> fin_nonneg x.
Proof.
  destruct x as [sx|[]| |[] m e]; cbn [fin_nonneg valid_binary]; intros Hv H0 Hi;
    try exact I; try discriminate.
  apply bounded_64 in Hv. apply Hv.
Qed.

Lemma fin_nonneg_le_zero (x : spec_float) : fin_nonneg x -> SFle SFzero x.
Proof. destruct x as [[]|[]| |[] m e]; cbn; intros H; try contradiction; reflexivity. Qed.

Lemma zval_nonneg (x : spec_float) : fin_nonneg x -> 0 <= zval x.
Proof.
  destruct x as [sx|sx| |[] m e]; cbn [zval fin_nonneg]; intros H; try contradiction;
    try apply Z.le_refl.
  apply Z.mul_nonneg_nonneg; [apply Pos2Z.is_nonneg | apply Z.pow_nonneg; lia].
Qed.

Lemma vle_zval m1 e1 m2 e2 :
  -1074 <= e1 -> -1074 <= e2 ->
  vle (Zpos m1) e1 (Zpos m2) e2 <-> Zpos m1 * 2 ^ (e1 + 1074) <= Zpos m2 * 2 ^ (e2 + 1074).
Proof.
  intros H1 H2. rewrite (vle_base _ _ _ _ (-1074)) by lia. unfold scale.
  replace (e1 - -1074) with (e1 + 1074) by lia.
  replace (e2 - -1074) with (e2 + 1074) by lia. reflexivity.
Qed.

Lemma SFle_zval (x y : spec_float) :
  fin_nonneg x -> fin_nonneg y -> SFle x y <-> zval x <= zval y.
Proof.
  destruct x as [sx|sx| |[] mx ex], y as [sy|sy| |[] my ey]; cbn [fin_nonneg];
    intros Hx Hy; try contradiction.
  - cbn [zval]. split; [lia | reflexivity].
  - pose proof (zval_nonneg (S754_finite false my ey) Hy). cbn [zval] in *.
    split; [lia | reflexivity].
  - assert (0 < zval (S754_finite false mx ex)).
    { cbn [zval]. apply Z.mul_pos_pos; [lia | apply pow2_pos].
      apply canonical64_digits in Hx. lia. }
    cbn [zval] in *. split; [discriminate | lia].
  - rewrite SFle_finite by assumption. cbn [zval].
    apply vle_zval; [apply (canonical64_digits mx), Hx | apply (canonical64_digits my), Hy].
Qed.

Lemma signed_not_nan (s : bool) (x : spec_float) : signed s x -> x <> S754_nan.
Proof. intros H ->. exact H. Qed.

Lemma SFadd_nonneg (x y : spec_float) :
  SFle SFzero x -> SFle SFzero y -> SFle SFzero (SFadd prec emax x y).
Proof.
  intros Hx Hy. apply SFle_zero_l in Hx, Hy.
  destruct x as [sx|sx| |sx mx ex], y as [sy|sy| |sy my ey]; try contradiction; subst;
    try (try destruct sx; try destruct sy; reflexivity).
  apply signed_nonneg, SFadd_signed; reflexivity.
Qed.

Lemma SFadd_zval_upper (x y : spec_float) (mF : positive) (eF : Z) :
  fin_nonneg x -> fin_nonneg y -> bounded64 mF eF ->
  zval x + zval y <= zval (S754_finite false mF eF) ->
  SFle (SFadd prec emax x y) (S754_finite false mF eF).
Proof.
  intros Hx Hy HF H.
  pose proof (zval_nonneg x Hx) as Zx. pose proof (zval_nonneg y Hy) as Zy.
  destruct x as [sx|sx| |[] mx ex], y as [sy|sy| |[] my ey]; cbn [fin_nonneg] in *;
    try contradiction.
  - destruct sx, sy; reflexivity.
  - change (SFadd prec emax (S754_zero sx) (S754_finite false my ey))
      with (S754_finite false my ey).
    apply SFle_zval; [assumption | apply HF | lia].
  - change (SFadd prec emax (S754_finite false mx ex) (S754_zero sy))
      with (S754_finite false mx ex).
    apply SFle_zval; [assumption | apply HF | lia].
  - apply canonical64_digits in Hx, Hy. pose proof (canonical64_digits _ _ (proj1 HF)).
    apply (SFadd_upper mx ex my ey mF eF (-1074)); [assumption | lia | lia | lia |].
    cbn [zval] in H. unfold scale.
    replace (ex - -1074) with (ex + 1074) by lia.
    replace (ey - -1074) with (ey + 1074) by lia.
    replace (eF - -1074) with (eF + 1074) by lia. assumption.
Qed.

Lemma SFsub_zval_upper (x y : spec_float) (mF : positive) (eF : Z) :
  fin_nonneg x -> fin_nonneg y -> bounded64 mF eF ->
  zval x <= zval (S754_finite false mF eF) ->
  SFle (SFsub prec emax x y) (S754_finite false mF eF).
Proof.
  intros Hx Hy HF H.
  destruct x as [sx|sx| |[] mx ex], y as [sy|sy| |[] my ey]; cbn [fin_nonneg] in *;
    try contradiction.
  - destruct sx, sy; reflexivity.
  - reflexivity.
  - change (SFsub prec emax (S754_finite false mx ex) (S754_zero sy))
      with (S754_finite false mx ex).
    apply SFle_zval; [assumption | apply HF | assumption].
  - apply SFsub_upper; [assumption|].
    apply vle_zval; [apply (canonical64_digits mx), Hx | apply (canonical64_digits mF), HF |].
    exact H.
Qed.

Lemma SFsub_not_nan (x y : spec_float) :
  fin_nonneg x -> SFle SFzero y -> SFsub prec emax x y <> S754_nan.
Proof.
  intros Hx Hy. apply SFle_zero_l in Hy.
  destruct x as [sx|sx| |[] mx ex], y as [sy|sy| |sy my ey]; cbn [fin_nonneg] in *;
    try contradiction; subst; try (try destruct sx; try destruct sy; discriminate).
  destruct (SFsub_finite_signed mx ex my ey) as [s Hs].
  apply (signed_not_nan s), Hs.
Qed.

Lemma SFsub_le_zero (x y : spec_float) :
  fin_nonneg x -> valid_binary y = true -> SFle x y ->
  SFle (SFsub prec emax x y) SFzero.
Proof.
  intros Hx Hv H.
  destruct x as [sx|sx| |[] mx ex], y as [sy|sy| |sy my ey]; cbn [fin_nonneg] in *;
    try contradiction; try discriminate;
    try (try destruct sx; try destruct sy; try reflexivity; try discriminate; congruence).
  destruct sy; [discriminate|].
  apply bounded_64 in Hv. apply SFsub_nonpos. apply SFle_finite; [assumption | apply Hv | assumption].
Qed.

Lemma SFdiv_two_nonneg (x : spec_float) :
  SFle SFzero x -> SFle SFzero (SFdiv prec emax x SFtwo).
Proof.
  intros Hx. apply SFle_zero_l in Hx.
  destruct x as [sx|sx| |sx mx ex]; try contradiction; subst;
    try (try destruct sx; reflexivity).
  apply signed_nonneg, SFdiv_finite_signed.
Qed.

Lemma SFdiv_two_zval_upper (x : spec_float) (mF : positive) (eF : Z) :
  fin_nonneg x -> bounded64 mF eF ->
  zval x <= 2 * zval (S754_finite false mF eF) ->
  SFle (SFdiv prec emax x SFtwo) (S754_finite false mF eF).
Proof.
  intros Hx HF H.
  destruct x as [sx|sx| |[] mx ex]; cbn [fin_nonneg] in *; try contradiction.
  - destruct sx; reflexivity.
  - apply SFdiv_upper; [assumption|].
    apply canonical64_digits in Hx. pose proof (canonical64_digits _ _ (proj1 HF)).
    apply (vle_base _ _ _ _ (-1125)); [lia | lia |]. unfold scale. cbn [zval] in H.
    replace (ex - -1125) with ((ex + 1074) + 51) by lia.
    replace (eF + -51 - -1125) with (eF + 1074) by lia.
    rewrite Z.pow_add_r by lia.
    change (2 ^ 51) with 2251799813685248. lia.
Qed.

Lemma SFmul_nonneg (x y : spec_float) :
  fin_nonneg x -> fin_nonneg y -> SFle SFzero (SFmul prec emax x y).
Proof.
  intros Hx Hy.
  destruct x as [sx|sx| |[] mx ex], y as [sy|sy| |[] my ey]; cbn [fin_nonneg] in *;
    try contradiction; try (try destruct sx; try destruct sy; reflexivity).
  apply signed_nonneg, SFmul_finite_signed.
Qed.

Lemma bounded64_one : bounded64 4503599627370496 (-52).
Proof. split; [reflexivity | lia]. Qed.

Lemma bounded64_two : bounded64 4503599627370496 (-51).
Proof. split; [reflexivity | lia]. Qed.

Lemma zval_two : zval SFtwo = 2 * zval SFone.
Proof. vm_compute. reflexivity. Qed.

Lemma fin_nonneg_between (x : spec_float) (mF : positive) (eF : Z) :
  valid_binary x = true -> SFle SFzero x -> SFle x (S754_finite false mF eF) ->
  fin_nonneg x.
Proof.
  destruct x as [sx|[]| |[] m e]; cbn [fin_nonneg valid_binary]; intros Hv H0 H1;
    try exact I; try discriminate.
  apply bounded_64 in Hv. apply Hv.
Qed.

Lemma SFltb_irrefl (x : spec_float) : SFltb x x = false.
Proof.
  unfold SFltb. pose proof (SFcompare_antisym x x) as H.
  destruct (SFcompare x x) as [[]|]; cbn in H; congruence.
Qed.

(** The same-sign product of two finite numbers whose values multiply to
    at least that of a representable number is not below it. *)
Lemma SFmul_same_sign_lower (s : bool) (mx : positive) (ex : Z) (my : positive) (ey : Z)
    (mF : positive) (eF : Z) :
  canonical64 mF eF ->
  vle (Zpos mF) eF (Zpos mx * Zpos my) (ex + ey) ->
  SFle (S754_finite false mF eF)
       (SFmul prec emax (S754_finite s mx ex) (S754_finite s my ey)).
Proof.
  intros HF H. apply SFle_of_lower. cbn [SFmul]. rewrite xorb_nilpotent.
  apply round_aux_lower; [assumption|]. rewrite Pos2Z.inj_mul. assumption.
Qed.

End Rounding.

(** ** Facts about binary64 arithmetic on primitive floats

    Each primitive operation is specified by the [spec_float] operation of
    the same name; a statement about floats is carried to [spec_float],
    where every value is a valid binary64 number, and settled there. *)

Module FloatFacts.

Import B64 Rounding.

Local Abbreviation in_unit := Spec.in_unit.
Local Abbreviation units := Spec.units.
Local Abbreviation nonneg_finite := Spec.nonneg_real.

(** The constants the comparisons are made with, as [spec_float]s. *)
Ltac sf_consts :=
  change (Prim2SF 0) with SFzero in *;
  change (Prim2SF 1) with SFone in *;
  change (Prim2SF 2) with SFtwo in *.

Lemma units_zval (x : float) : units x = zval (Prim2SF x).
Proof. reflexivity. Qed.

Lemma leb_SFle (x y : float) : (x <=? y) = true <-> SFle (Prim2SF x) (Prim2SF y).
Proof. rewrite leb_spec. reflexivity. Qed.

Lemma ltb_SFlt (x y : float) : (x <? y) = true <-> SFlt (Prim2SF x) (Prim2SF y).
Proof. rewrite ltb_spec. reflexivity. Qed.

Lemma in_unit_SF (x : float) :
  in_unit x -> fin_nonneg (Prim2SF x) /\ (zval (Prim2SF x) <= zval SFone)%Z.
Proof.
  intros [H0 H1]. rewrite leb_SFle in H0, H1. sf_consts.
  assert (F : fin_nonneg (Prim2SF x))
    by (apply (fin_nonneg_between _ _ _ (Prim2SF_valid x) H0 H1)).
  split; [assumption|]. apply SFle_zval; [assumption | apply bounded64_one | assumption].
Qed.

Lemma in_unit_of_SF (x : float) :
  SFle SFzero (Prim2SF x) -> SFle (Prim2SF x) SFone -> in_unit x.
Proof. intros H0 H1. split; apply leb_SFle; assumption. Qed.

Lemma half_sum_in_unit (a c : float) :
  in_unit a -> in_unit c -> in_unit ((a + c) / 2).
Proof.
  intros Ha Hc. apply in_unit_SF in Ha, Hc. destruct Ha as [Fa Za], Hc as [Fc Zc].
  assert (S0 : SFle SFzero (Prim2SF (a + c))).
  { rewrite add_spec. apply SFadd_nonneg; apply fin_nonneg_le_zero; assumption. }
  assert (S2 : SFle (Prim2SF (a + c)) SFtwo).
  { rewrite add_spec. apply SFadd_zval_upper; try assumption; [apply bounded64_two|].
    fold SFtwo. rewrite zval_two. lia. }
  assert (Fs : fin_nonneg (Prim2SF (a + c)))
    by (apply (fin_nonneg_between _ _ _ (Prim2SF_valid _) S0 S2)).
  assert (Zs : (zval (Prim2SF (a + c)) <= 2 * zval SFone)%Z).
  { rewrite <- zval_two. apply SFle_zval; [assumption | apply bounded64_two | assumption]. }
  apply in_unit_of_SF; rewrite div_spec; sf_consts.
  - apply SFdiv_two_nonneg. assumption.
  - apply SFdiv_two_zval_upper; [assumption | apply bounded64_one | assumption].
Qed.

Lemma sub_le_one (h b : float) :
  in_unit h -> in_unit b -> (h - b <=? 1) = true.
Proof.
  intros Hh Hb. apply in_unit_SF in Hh, Hb. destruct Hh as [Fh Zh], Hb as [Fb Zb].
  apply leb_SFle. rewrite sub_spec. sf_consts.
  apply SFsub_zval_upper; [assumption | assumption | apply bounded64_one | assumption].
Qed.

(** [min] and [max] against a bound. *)

Lemma min_never_above (a b : float) : (b <? Py.min a b) = false.
Proof.
  unfold Py.min. destruct (b <? a) eqn:E; [|assumption].
  rewrite ltb_spec. apply SFltb_irrefl.
Qed.

Lemma max_never_below (a b : float) : (Py.max a b <? b) = false.
Proof.
  unfold Py.max. destruct (a <? b) eqn:E; [|assumption].
  rewrite ltb_spec. apply SFltb_irrefl.
Qed.

Lemma le_of_not_lt (x y : float) :
  Prim2SF x <> S754_nan -> Prim2SF y <> S754_nan -> (y <? x) = false -> (x <=? y) = true.
Proof.
  intros Hx Hy H. apply leb_SFle. apply SFle_total; try assumption.
  rewrite <- ltb_spec. assumption.
Qed.

Lemma leb_not_nan_l (x y : float) : (x <=? y) = true -> Prim2SF x <> S754_nan.
Proof. rewrite leb_SFle. apply SFle_not_nan_l. Qed.

Lemma leb_not_nan_r (x y : float) : (x <=? y) = true -> Prim2SF y <> S754_nan.
Proof. rewrite leb_SFle. apply SFle_not_nan_r. Qed.

Lemma min_one_in_unit (v : float) : (0 <=? v) = true -> in_unit (Py.min v 1).
Proof.
  intros H0. unfold Py.min. destruct (1 <? v) eqn:E.
  - split; reflexivity.
  - split; [assumption|]. apply le_of_not_lt; try assumption.
    + apply (leb_not_nan_r 0 v H0).
    + discriminate.
Qed.

Lemma max_zero_nonneg (v : float) :
  Prim2SF v <> S754_nan -> (0 <=? Py.max v 0) = true.
Proof.
  intros Hv. unfold Py.max. destruct (v <? 0) eqn:E; [reflexivity|].
  apply le_of_not_lt; try assumption. discriminate.
Qed.

Lemma max_zero_in_unit (v : float) : (v <=? 1) = true -> in_unit (Py.max v 0).
Proof.
  intros H1. split.
  - apply max_zero_nonneg. apply (leb_not_nan_l v 1 H1).
  - unfold Py.max. destruct (v <? 0); [reflexivity | assumption].
Qed.

Lemma min_nonneg (a b : float) :
  (0 <=? a) = true -> (0 <=? b) = true -> (0 <=? Py.min a b) = true.
Proof. intros Ha Hb. unfold Py.min. destruct (b <? a); assumption. Qed.

Lemma add_nonneg (a b : float) :
  (0 <=? a) = true -> (0 <=? b) = true -> (0 <=? a + b) = true.
Proof.
  rewrite !leb_SFle, add_spec. sf_consts. apply SFadd_nonneg.
Qed.

Lemma nonneg_finite_SF (x : float) : nonneg_finite x -> fin_nonneg (Prim2SF x).
Proof.
  intros [H0 Hi]. rewrite leb_SFle in H0. rewrite ltb_SFlt in Hi.
  apply fin_nonneg_of; [apply Prim2SF_valid | exact H0 | exact Hi].
Qed.

Lemma mul_nonneg (a b : float) :
  nonneg_finite a -> nonneg_finite b -> (0 <=? a * b) = true.
Proof.
  intros Ha Hb. apply nonneg_finite_SF in Ha, Hb.
  rewrite leb_SFle, mul_spec. sf_consts.
  apply SFmul_nonneg; assumption.
Qed.

Lemma one_minus_not_nan (p : float) :
  (0 <=? p) = true -> Prim2SF (1 - p) <> S754_nan.
Proof.
  rewrite leb_SFle, sub_spec. sf_consts.
  apply SFsub_not_nan. exact (proj1 bounded64_one).
Qed.

Lemma one_minus_nonpos (p : float) :
  (1 <=? p) = true -> (1 - p <=? 0) = true.
Proof.
  rewrite !leb_SFle, sub_spec. sf_consts.
  apply SFsub_le_zero; [exact (proj1 bounded64_one) | apply Prim2SF_valid].
Qed.

(** Conversion of integers. *)

Lemma float_of_int_SF (n : Z) (x : float) :
  float_of_int n = Return x ->
  Prim2SF x = binary_normalize prec emax n 0 false
  /\ forall s, Prim2SF x <> S754_infinity s.
Proof.
  unfold float_of_int. pose proof (binary_normalize_valid n 0 false) as Hv.
  set (sf := binary_normalize prec emax n 0 false) in *. intros H.
  assert (A : x = SF2Prim sf /\ forall s, sf <> S754_infinity s).
  { destruct sf; inversion H; split; try reflexivity; intros; discriminate. }
  destruct A as [-> Hi]. rewrite Prim2SF_SF2Prim by assumption.
  split; [reflexivity | assumption].
Qed.

Lemma float_of_int_nonneg (n : Z) (x : float) :
  (0 <= n)%Z -> float_of_int n = Return x -> fin_nonneg (Prim2SF x).
Proof.
  intros Hn H. destruct (float_of_int_SF n x H) as [E Hi].
  pose proof (binary_normalize_signed n 0) as Hs.
  pose proof (binary_normalize_valid n 0 false) as Hv.
  rewrite <- E in Hs, Hv. replace (n <? 0)%Z with false in Hs by (symmetry; apply Z.ltb_ge; lia).
  destruct (Prim2SF x) as [s|s| |s m e]; cbn [signed fin_nonneg valid_binary] in *;
    subst; try exact I; try contradiction.
  - exfalso. apply (Hi false). reflexivity.
  - apply bounded_64 in Hv. apply Hv.
Qed.


Lemma scaled_nonneg (n : Z) (x c : float) :
  (0 <= n)%Z -> float_of_int n = Return x -> nonneg_finite c -> (0 <=? x * c) = true.
Proof.
  intros Hn E Hc. apply float_of_int_nonneg in E; [|assumption].
  apply nonneg_finite_SF in Hc.
  rewrite leb_SFle, mul_spec. sf_consts.
  apply SFmul_nonneg; assumption.
Qed.

Lemma six_le_float_of_int (n : Z) (x : float) :
  (6 <= n)%Z -> float_of_int n = Return x -> (6 <=? x) = true.
Proof.
  intros Hn H. destruct (float_of_int_SF n x H) as [E _].
  apply leb_SFle. change (Prim2SF 6) with (S754_finite false 6755399441055744 (-50)).
  rewrite E. destruct n as [|p|p]; try lia.
  apply SFle_of_lower. apply binary_normalize_lower; [reflexivity|].
  apply (vle_base _ _ _ _ (-50)%Z); [lia | lia |]. unfold scale.
  change (2 ^ (-50 - -50))%Z with 1%Z. change (2 ^ (0 - -50))%Z with 1125899906842624%Z.
  lia.
Qed.

(** From six verifications on, [n * 0.02] is above the cap [0.1]. *)
Lemma scaled_above_tenth (x : float) :
  (6 <=? x) = true -> (0.1 <? x * 0.02) = true.
Proof.
  intros H. apply leb_SFle in H. apply ltb_SFlt. rewrite mul_spec.
  change (Prim2SF 6) with (S754_finite false 6755399441055744 (-50)) in H.
  change (Prim2SF 0.1) with (S754_finite false 7205759403792794 (-56)).
  change (Prim2SF 0.02) with (S754_finite false 5764607523034235 (-58)).
  pose proof (Prim2SF_valid x) as Hv.
  destruct (Prim2SF x) as [s|[]| |[] q e]; try discriminate; [reflexivity|].
  cbn [valid_binary] in Hv. apply bounded_64 in Hv. destruct Hv as [Hc _].
  apply SFle_finite in H; [|reflexivity|assumption].
  apply (SFlt_of_lower _ 7205759403792794 7205759403792795); [reflexivity|].
  apply SFmul_lower; [reflexivity|].
  apply vle_trans with (6755399441055744 * 5764607523034235)%Z (-50 + -58)%Z.
  - apply (vle_base _ _ _ _ (-108)%Z); [lia | lia |]. unfold scale. vm_compute. discriminate.
  - apply vle_mul_r; [lia | assumption].
Qed.

Lemma bonus_saturates (n : Z) (x : float) :
  (5 <= n)%Z -> float_of_int n = Return x -> Py.min (x * 0.02) 0.1 = 0.1.
Proof.
  intros Hn H. destruct (Z.eq_dec n 5) as [->|Hne].
  - vm_compute in H. inversion H. vm_compute. reflexivity.
  - unfold Py.min. rewrite scaled_above_tenth; [reflexivity|].
    apply (six_le_float_of_int n); [lia | assumption].
Qed.

(** An exact product of at least one is at least one after rounding. *)

Lemma units_one : units 1 = (2 ^ 1074)%Z.
Proof. vm_compute. reflexivity. Qed.

Lemma product_ge_one (a d : float) :
  (units 1 * units 1 <= units a * units d)%Z -> (1 <=? a * d) = true.
Proof.
  rewrite units_one, !units_zval. intros H.
  assert (P : (0 < 2 ^ 1074)%Z) by (apply pow2_pos; lia).
  pose proof (Prim2SF_valid a) as Va. pose proof (Prim2SF_valid d) as Vd.
  apply leb_SFle. rewrite mul_spec. sf_consts.
  destruct (Prim2SF a) as [sa|sa| |sa ma ea], (Prim2SF d) as [sd|sd| |sd md ed];
    cbn [zval] in H; try lia.
  cbn [valid_binary] in Va, Vd. apply bounded_64 in Va, Vd.
  destruct Va as [Ca _], Vd as [Cd _].
  apply canonical64_digits in Ca, Cd.
  assert (Pa : (0 < 2 ^ (ea + 1074))%Z) by (apply pow2_pos; lia).
  assert (Pd : (0 < 2 ^ (ed + 1074))%Z) by (apply pow2_pos; lia).
  assert (Hs : sa = sd).
  { destruct sa, sd; try reflexivity; exfalso; nia. }
  subst sd.
  assert (Hp : (2 ^ 1074 * 2 ^ 1074
                <= Zpos ma * 2 ^ (ea + 1074) * (Zpos md * 2 ^ (ed + 1074)))%Z)
    by (destruct sa; lia).
  apply SFmul_same_sign_lower; [reflexivity|].
  apply (vle_base _ _ _ _ (-2148)%Z); [lia | lia |]. unfold scale.
  replace (ea + ed - -2148)%Z with ((ea + 1074) + (ed + 1074))%Z by lia.
  replace (-52 - -2148)%Z with (1022 + 1074)%Z by lia.
  rewrite !Z.pow_add_r by lia.
  change 4503599627370496%Z with (2 ^ 52)%Z.
  rewrite Z.mul_assoc, <- (Z.pow_add_r 2 52 1022) by lia.
  change (52 + 1022)%Z with 1074%Z. lia.
Qed.

Lemma clamp_of_nonpos (v : float) :
  (v <=? 0) = true -> Py.min (Py.max v 0 + 0) 1 = 0.
Proof.
  intros H. unfold Py.max. destruct (v <? 0) eqn:E; [reflexivity|].
  assert (Z0 : v + 0 = 0).
  { apply Prim2SF_inj. rewrite add_spec.
    rewrite leb_SFle in H. rewrite ltb_spec in E. sf_consts.
    destruct (Prim2SF v) as [[]|[]| |[] m e]; try discriminate; reflexivity. }
  rewrite Z0. reflexivity.
Qed.

(** Integers that convert, and integers that do not. *)

Lemma float_of_int_returns (n : Z) :
  (- max_float_int <= n <= max_float_int)%Z -> returns (float_of_int n) = true.
Proof.
  unfold max_float_int. intros Hn. unfold float_of_int.
  assert (A : forall s, binary_normalize prec emax n 0 false <> S754_infinity s).
  { destruct n as [|p|p]; cbn [binary_normalize]; intros s.
    - discriminate.
    - destruct (binary_round_upper false p 0 9007199254740991 971) as [E | (q & e & E & _)];
        [reflexivity | lia | | rewrite E; discriminate..].
      apply (vle_base _ _ _ _ 0%Z); [lia | lia |]. unfold scale.
      rewrite !Z.sub_0_r, Z.pow_0_r. lia.
    - destruct (binary_round_upper true p 0 9007199254740991 971) as [E | (q & e & E & _)];
        [reflexivity | lia | | rewrite E; discriminate..].
      apply (vle_base _ _ _ _ 0%Z); [lia | lia |]. unfold scale.
      rewrite !Z.sub_0_r, Z.pow_0_r. lia. }
  destruct (binary_normalize prec emax n 0 false) as [s|s| |s m e]; try reflexivity.
  exfalso. apply (A s). reflexivity.
Qed.

Lemma float_of_int_overflows (n : Z) :
  (2 ^ 1024 <= Z.abs n)%Z -> float_of_int n = Raise IntTooLarge.
Proof.
  intros Hn. unfold float_of_int.
  assert (A : exists s, binary_normalize prec emax n 0 false = S754_infinity s).
  { assert (P : (0 < 2 ^ 1024)%Z) by (apply pow2_pos; lia).
    destruct n as [|p|p]; cbn [binary_normalize]; [cbn in Hn; lia | |].
    - exists false. pose proof (binary_round_valid false p 0) as Hv.
      destruct (binary_round_lower false p 0 4503599627370496 972) as [E | (q & e & E & He)];
        [reflexivity | | assumption |].
      + apply (vle_base _ _ _ _ 0%Z); [lia | lia |]. unfold scale.
        rewrite !Z.sub_0_r, Z.pow_0_r. change 4503599627370496%Z with (2 ^ 52)%Z.
        rewrite <- Z.pow_add_r by lia. change (52 + 972)%Z with 1024%Z. lia.
      + rewrite E in Hv. cbn [valid_binary] in Hv. apply bounded_64 in Hv.
        destruct Hv as [_ Hv]. lia.
    - exists true. pose proof (binary_round_valid true p 0) as Hv.
      destruct (binary_round_lower true p 0 4503599627370496 972) as [E | (q & e & E & He)];
        [reflexivity | | assumption |].
      + apply (vle_base _ _ _ _ 0%Z); [lia | lia |]. unfold scale.
        rewrite !Z.sub_0_r, Z.pow_0_r. change 4503599627370496%Z with (2 ^ 52)%Z.
        rewrite <- Z.pow_add_r by lia. change (52 + 972)%Z with 1024%Z. lia.
      + rewrite E in Hv. cbn [valid_binary] in Hv. apply bounded_64 in Hv.
        destruct Hv as [_ Hv]. lia. }
  destruct A as [s ->]. reflexivity.
Qed.


(** Rounding to hundredths. *)

Lemma div_half_even_nearest (n d : Z) :
  (0 < d)%Z -> Spec.nearest_even n d (div_half_even n d).
Proof.
  intros Hd. unfold Spec.nearest_even, div_half_even.
  pose proof (Z.div_mod n d ltac:(lia)) as Hdm.
  pose proof (Z.mod_pos_bound n d Hd) as Hr.
  set (q := (n / d)%Z) in *. set (r := (n mod d)%Z) in *.
  destruct (Z.compare_spec (2 * r) d) as [E|L|G].
  - destruct (Z.even q) eqn:Ev.
    + split; [|intros _; assumption].
      replace (n - q * d)%Z with r by lia. lia.
    + split.
      * replace (n - (q + 1) * d)%Z with (r - d)%Z by lia. lia.
      * intros _. rewrite Z.add_1_r, Z.even_succ, <- Z.negb_even, Ev. reflexivity.
  - split.
    + replace (n - q * d)%Z with r by lia. lia.
    + replace (n - q * d)%Z with r by lia. lia.
  - split.
    + replace (n - (q + 1) * d)%Z with (r - d)%Z by lia. lia.
    + replace (n - (q + 1) * d)%Z with (r - d)%Z by lia. lia.
Qed.

Lemma nearest_even_unique (n d q q' : Z) :
  (0 < d)%Z -> Spec.nearest_even n d q -> Spec.nearest_even n d q' -> q = q'.
Proof.
  unfold Spec.nearest_even. intros Hd [H1 E1] [H2 E2].
  assert (A : (- 1 <= q - q' <= 1)%Z) by nia.
  destruct (Z.eq_dec q q') as [|Hne]; [assumption|exfalso].
  assert (B : (q' = q + 1 \/ q' = q - 1)%Z) by lia.
  assert (T1 : (2 * Z.abs (n - q * d) = d)%Z) by (destruct B as [-> | ->]; nia).
  assert (T2 : (2 * Z.abs (n - q' * d) = d)%Z) by (destruct B as [-> | ->]; nia).
  specialize (E1 T1). specialize (E2 T2).
  destruct B as [-> | ->].
  - rewrite Z.add_1_r, Z.even_succ, <- Z.negb_even, E1 in E2. discriminate.
  - rewrite Z.sub_1_r, Z.even_pred, <- Z.negb_even, E1 in E2. discriminate.
Qed.

Lemma hundredths_nearest (m : positive) (e : Z) :
  Spec.nearest_even (Zpos m * 100 * 2 ^ Z.max 0 e) (2 ^ Z.max 0 (- e)) (hundredths m e).
Proof.
  unfold hundredths. destruct e as [|p|p].
  - change (Z.max 0 (- 0)) with 0%Z. change (Z.max 0 0) with 0%Z.
    unfold Spec.nearest_even. rewrite !Z.pow_0_r. lia.
  - replace (Z.max 0 (- Zpos p)) with 0%Z by lia.
    replace (Z.max 0 (Zpos p)) with (Zpos p) by lia.
    unfold Spec.nearest_even. rewrite Z.pow_0_r. lia.
  - replace (Z.max 0 (- Zneg p)) with (Zpos p) by lia.
    replace (Z.max 0 (Zneg p)) with 0%Z by lia.
    rewrite Z.pow_0_r, Z.mul_1_r.
    apply div_half_even_nearest. apply pow2_pos. lia.
Qed.

(** The conversion back from hundredths yields a binary64 number. *)
Lemma SF_of_ratio_valid (s : bool) (n d : positive) :
  valid_binary (SF_of_ratio s n d) = true.
Proof.
  unfold SF_of_ratio.
  destruct (SFdiv_core_spec n 0 d 0) as (q & e' & l & E & _ & Hq & _ & Hpre).
  rewrite E. apply round_aux_valid; [|assumption].
  rewrite Hq. apply Z.div_pos; [|lia].
  apply Z.mul_nonneg_nonneg; [lia | apply Z.pow_nonneg; lia].
Qed.

Lemma Prim2SF_float_of_hundredths (s : bool) (h : positive) :
  Prim2SF (float_of_hundredths s (Zpos h)) = SF_of_ratio s h 100.
Proof. apply Prim2SF_SF2Prim, SF_of_ratio_valid. Qed.

Lemma round2_rounded (x : float) : Spec.rounded_2dp x (round2 x).
Proof.
  unfold Spec.rounded_2dp, round2.
  destruct (Prim2SF x) as [s|s| |s m e]; try reflexivity.
  exists (hundredths m e). split; [apply hundredths_nearest | reflexivity].
Qed.

End FloatFacts.

(** ** The arithmetic of binary64 rounds to nearest *)

Module Nearest.
Import B64 Units Rounding FloatFacts.
Local Open Scope Z_scope.

(** [lia] and [nia] on goals that mention the constants [2 ^ 1074],
    [2 ^ 2100] and the like: each power of two with a literal exponent
    above 64 is replaced by a variable, of which only the order with
    [2 ^ 64] and with the other powers is kept, so that checking the
    certificate never computes with numbers of thousands of digits. *)
Ltac closed_positive p :=
  lazymatch p with
  | xH => idtac
  | xO ?q => closed_positive q
  | xI ?q => closed_positive q
  end.

Ltac large_exponent p :=
  closed_positive p;
  let b := eval cbv in (64 <? Zpos p) in
  lazymatch b with true => idtac end.

Ltac note_pows :=
  repeat match goal with
         | |- context [2 ^ Zpos ?p] =>
             large_exponent p;
             lazymatch goal with
             | _ : 2 ^ 64 <= 2 ^ Zpos p |- _ => fail
             | _ => idtac
             end;
             assert (2 ^ 64 <= 2 ^ Zpos p) by (apply Z.pow_le_mono_r; [reflexivity | discriminate])
         | _ : context [2 ^ Zpos ?p] |- _ =>
             large_exponent p;
             lazymatch goal with
             | _ : 2 ^ 64 <= 2 ^ Zpos p |- _ => fail
             | _ => idtac
             end;
             assert (2 ^ 64 <= 2 ^ Zpos p) by (apply Z.pow_le_mono_r; [reflexivity | discriminate])
         end.

Ltac order_pows :=
  repeat match goal with
         | _ : 2 ^ 64 <= 2 ^ Zpos ?a, _ : 2 ^ 64 <= 2 ^ Zpos ?b |- _ =>
             lazymatch goal with
             | _ : 2 ^ Zpos a < 2 ^ Zpos b |- _ => fail
             | _ => idtac
             end;
             assert (2 ^ Zpos a < 2 ^ Zpos b) by (apply Z.pow_lt_mono_r; [reflexivity | discriminate | reflexivity])
         end.

Ltac hide_pows :=
  note_pows; order_pows;
  repeat match goal with
         | _ : 2 ^ 64 <= 2 ^ Zpos ?p |- _ =>
             let P := fresh "pw" in set (P := 2 ^ Zpos p) in *; clearbody P
         end.

Ltac zlia := hide_pows; first [lia | nia].
Ltac znia := hide_pows; nia.

Lemma shr_code_of_loc m l : shr_code (shr_record_of_loc m l) = 4 * m + loc_code l.
Proof. destruct l as [|[]]; unfold shr_code, shr_record_of_loc, loc_code, shr_m, shr_r, shr_s; lia. Qed.

Lemma div_mod_unique_pos (a b q r : Z) :
  0 <= r < b -> a = b * q + r -> a / b = q /\ a mod b = r.
Proof.
  intros Hr E. split.
  - symmetry. apply (Z.div_unique_pos a b q r); assumption.
  - symmetry. apply (Z.mod_unique_pos a b q r); assumption.
Qed.

Lemma sticky_4 (m c : Z) :
  0 <= c < 4 -> sticky (4 * m + c) 1 = 2 * m + (if c =? 0 then 0 else 1).
Proof.
  intros Hc. unfold sticky. change (2 ^ (1 + 1)) with 4.
  destruct (div_mod_unique_pos (4 * m + c) 4 m c) as [-> ->]; [lia | lia | reflexivity].
Qed.

Lemma shr_code_shr_1 (r : shr_record) :
  0 <= shr_m r -> shr_code (shr_1 r) = sticky (shr_code r) 1.
Proof.
  destruct r as [m b s]. cbn [shr_m]. intros Hm. unfold shr_code at 2.
  cbn [shr_m shr_r shr_s].
  replace (4 * m + (if b then 2 else 0) + (if s then 1 else 0))
    with (4 * m + ((if b then 2 else 0) + (if s then 1 else 0))) by lia.
  rewrite sticky_4 by (destruct b, s; lia).
  destruct m as [|[p|p|]|p]; try lia; destruct b, s; cbn; lia.
Qed.

Lemma sticky_nonneg K k : 0 <= K -> 0 <= k -> 0 <= sticky K k.
Proof.
  intros HK Hk. unfold sticky.
  assert (0 <= K / 2 ^ (k + 1)) by (apply Z.div_pos; [lia | apply pow2_pos; lia]).
  destruct (K mod 2 ^ (k + 1) =? 0); lia.
Qed.

Lemma sticky_sticky (K a b : Z) :
  0 <= a -> 0 <= b -> sticky (sticky K b) a = sticky K (a + b).
Proof.
  intros Ha Hb. unfold sticky.
  set (P := 2 ^ (b + 1)). set (A := 2 ^ a).
  assert (HP : 0 < P) by (apply pow2_pos; lia).
  assert (HA : 0 < A) by (apply pow2_pos; lia).
  assert (E1 : 2 ^ (a + 1) = 2 * A) by (unfold A; rewrite Z.pow_add_r by lia; lia).
  assert (E2 : 2 ^ (a + b + 1) = P * A).
  { unfold P, A. rewrite <- Z.pow_add_r by lia. f_equal. lia. }
  rewrite E1, E2.
  pose proof (Z.div_mod K P ltac:(lia)) as HK.
  pose proof (Z.mod_pos_bound K P HP) as HR.
  set (Q := K / P) in *. set (R := K mod P) in *.
  pose proof (Z.div_mod Q A ltac:(lia)) as HQ.
  pose proof (Z.mod_pos_bound Q A HA) as HS.
  set (Q' := Q / A) in *. set (S := Q mod A) in *.
  set (t := if R =? 0 then 0 else 1).
  assert (Ht : 0 <= t <= 1 /\ (t = 0 <-> R = 0)).
  { unfold t. destruct (Z.eqb_spec R 0); lia. }
  destruct (div_mod_unique_pos (2 * Q + t) (2 * A) Q' (2 * S + t)) as [-> ->]; [lia | lia |].
  destruct (div_mod_unique_pos K (P * A) Q' (P * S + R)) as [-> ->]; [nia | nia |].
  f_equal.
  destruct (Z.eqb_spec (2 * S + t) 0), (Z.eqb_spec (P * S + R) 0); try reflexivity; exfalso.
  - assert (S = 0) by lia. assert (R = 0) by (apply Ht; lia). subst S. nia.
  - assert (S = 0) by nia. assert (R = 0) by nia. assert (t = 0) by (apply Ht; assumption). lia.
Qed.

Lemma sticky_0 K : sticky K 0 = K.
Proof.
  unfold sticky. change (2 ^ (0 + 1)) with 2.
  pose proof (Z.div_mod K 2 ltac:(lia)). pose proof (Z.mod_pos_bound K 2 ltac:(lia)).
  destruct (Z.eqb_spec (K mod 2) 0); lia.
Qed.

Lemma iter_shr_code (p : positive) (r : shr_record) :
  0 <= shr_m r ->
  shr_code (iter_pos shr_1 p r) = sticky (shr_code r) (Zpos p).
Proof.
  revert r. induction p as [p IH | p IH |]; intros r Hr; cbn [iter_pos].
  - assert (H1 : 0 <= shr_m (shr_1 r)) by (rewrite shr_1_m by lia; apply Z.div_pos; lia).
    assert (H2 : 0 <= shr_m (iter_pos shr_1 p (shr_1 r)))
      by (rewrite iter_shr_1 by lia; apply Z.div_pos; [lia | apply pow2_pos; lia]).
    rewrite IH, IH, shr_code_shr_1 by lia.
    rewrite !sticky_sticky by lia. f_equal. lia.
  - assert (H2 : 0 <= shr_m (iter_pos shr_1 p r))
      by (rewrite iter_shr_1 by lia; apply Z.div_pos; [lia | apply pow2_pos; lia]).
    rewrite IH, IH by lia. rewrite sticky_sticky by lia. f_equal. lia.
  - apply shr_code_shr_1. assumption.
Qed.

Lemma shr_code_spec (r : shr_record) (e n : Z) :
  0 <= shr_m r ->
  exists r', shr r e n = (r', e + Z.max n 0)
    /\ shr_m r' = shr_m r / 2 ^ Z.max n 0
    /\ shr_code r' = sticky (shr_code r) (Z.max n 0).
Proof.
  intros Hr. destruct n as [|p|p]; cbn [shr].
  - exists r. rewrite Z.max_r, Z.add_0_r, Z.pow_0_r, Z.div_1_r, sticky_0 by lia. auto.
  - exists (iter_pos shr_1 p r). rewrite Z.max_l by lia.
    split; [reflexivity|]. split; [apply iter_shr_1; assumption|].
    apply iter_shr_code; assumption.
  - exists r. rewrite Z.max_r, Z.add_0_r, Z.pow_0_r, Z.div_1_r, sticky_0 by lia. auto.
Qed.

Lemma div_half_even_4 (m c : Z) :
  0 <= c < 4 ->
  div_half_even (4 * m + c) 4 =
  if c <? 2 then m else if c =? 2 then (if Z.even m then m else m + 1) else m + 1.
Proof.
  intros Hc. unfold div_half_even.
  destruct (div_mod_unique_pos (4 * m + c) 4 m c) as [-> ->]; [lia | lia |].
  destruct (Z.ltb_spec c 2), (Z.eqb_spec c 2), (Z.compare_spec (2 * c) 4); try lia; reflexivity.
Qed.

Lemma rne_code (r : shr_record) :
  round_nearest_even (shr_m r) (loc_of_shr_record r) = div_half_even (shr_code r) 4.
Proof.
  destruct r as [m b s]. unfold shr_code. cbn [shr_m shr_r shr_s].
  replace (4 * m + (if b then 2 else 0) + (if s then 1 else 0))
    with (4 * m + ((if b then 2 else 0) + (if s then 1 else 0))) by lia.
  rewrite div_half_even_4 by (destruct b, s; lia).
  destruct b, s; reflexivity.
Qed.

Lemma div_half_even_sticky (K k : Z) :
  0 <= k -> div_half_even (sticky K k) 4 = div_half_even K (2 ^ (k + 2)).
Proof.
  intros Hk. unfold sticky.
  set (P := 2 ^ (k + 1)).
  assert (HP : 0 < P) by (apply pow2_pos; lia).
  assert (E : 2 ^ (k + 2) = 2 * P).
  { unfold P. replace (k + 2) with (1 + (k + 1)) by lia. rewrite Z.pow_add_r by lia. lia. }
  rewrite E. clearbody P.
  pose proof (Z.div_mod K P ltac:(lia)) as HK.
  pose proof (Z.mod_pos_bound K P HP) as HR.
  set (Q := K / P) in *. set (R := K mod P) in *. clearbody Q R.
  pose proof (Z.div_mod Q 2 ltac:(lia)) as HQ.
  pose proof (Z.mod_pos_bound Q 2 ltac:(lia)) as HS.
  set (Q' := Q / 2) in *. set (S := Q mod 2) in *. clearbody Q' S.
  set (t := if R =? 0 then 0 else 1).
  assert (Ht : 0 <= t <= 1 /\ (t = 0 <-> R = 0)).
  { unfold t. destruct (Z.eqb_spec R 0); lia. }
  clearbody t.
  replace (2 * Q + t) with (4 * Q' + (2 * S + t)) by lia.
  rewrite div_half_even_4 by lia.
  unfold div_half_even.
  assert (HS01 : S = 0 \/ S = 1) by lia.
  destruct HS01; subst S.
  - destruct (div_mod_unique_pos K (2 * P) Q' R) as [-> ->]; [lia | lia |].
    destruct (Z.ltb_spec (2 * 0 + t) 2), (Z.compare_spec (2 * R) (2 * P));
      try reflexivity; exfalso; lia.
  - destruct (div_mod_unique_pos K (2 * P) Q' (P + R)) as [-> ->]; [lia | lia |].
    destruct (Z.ltb_spec (2 * 1 + t) 2), (Z.eqb_spec (2 * 1 + t) 2),
      (Z.compare_spec (2 * (P + R)) (2 * P)); try reflexivity; exfalso; lia.
Qed.

(** The first rounding of [binary_round_aux] is the nearest integer, ties to even. *)
Lemma binary_round_aux_rne (s : bool) (mx ex : Z) (lx : location) :
  0 <= mx -> ex <= fexp64 (Zdigits2 mx + ex) ->
  let f := fexp64 (Zdigits2 mx + ex) in
  let m1 := div_half_even (4 * mx + loc_code lx) (2 ^ (f - ex + 2)) in
  let e2 := f + Z.max (fexp64 (Zdigits2 m1 + f) - f) 0 in
  binary_round_aux prec emax s mx ex lx =
  match m1 / 2 ^ (e2 - f) with
  | Z0 => S754_zero s
  | Zpos m => if e2 <=? 971 then S754_finite s m e2 else S754_infinity s
  | Zneg _ => S754_nan
  end.
Proof.
  intros Hmx Hpre f m1 e2. unfold binary_round_aux, shr_fexp.
  destruct (shr_code_spec (shr_record_of_loc mx lx) ex (fexp prec emax (Zdigits2 mx + ex) - ex))
    as (r1 & E1 & M1 & C1); [rewrite shr_record_of_loc_m; assumption|].
  rewrite E1. rewrite shr_record_of_loc_m in M1. rewrite shr_code_of_loc in C1.
  fold (fexp64 (Zdigits2 mx + ex)) in *. fold f in E1, M1, C1 |- *.
  replace (Z.max (f - ex) 0) with (f - ex) in * by lia.
  replace (ex + (f - ex)) with f by lia.
  assert (Em1 : round_nearest_even (shr_m r1) (loc_of_shr_record r1) = m1).
  { rewrite rne_code, C1, div_half_even_sticky by lia. reflexivity. }
  rewrite Em1.
  assert (Hq1 : 0 <= shr_m r1) by (rewrite M1; apply Z.div_pos; [lia | apply pow2_pos; lia]).
  assert (Hm1 : 0 <= m1).
  { rewrite <- Em1. pose proof (round_nearest_even_bounds (shr_m r1) (loc_of_shr_record r1)). lia. }
  destruct (shr_code_spec (shr_record_of_loc m1 loc_Exact) f (fexp prec emax (Zdigits2 m1 + f) - f))
    as (r2 & E2 & M2 & _); [rewrite shr_record_of_loc_m; assumption|].
  rewrite E2. rewrite shr_record_of_loc_m in M2. rewrite M2.
  fold (fexp64 (Zdigits2 m1 + f)). fold e2.
  replace (Z.max (fexp64 (Zdigits2 m1 + f) - f) 0) with (e2 - f) by (unfold e2; lia).
  reflexivity.
Qed.

(** ** Binary digits *)

Lemma Zdigits2_nonneg n : 0 <= Zdigits2 n.
Proof. destruct n; cbn; lia. Qed.

Lemma Zdigits2_bounds n : 0 < n -> 2 ^ (Zdigits2 n - 1) <= n < 2 ^ Zdigits2 n.
Proof. destruct n as [|p|p]; try lia. intros _. apply digits2_pos_bounds. Qed.

Lemma Zdigits2_unique n d : 2 ^ (d - 1) <= n < 2 ^ d -> 1 <= d -> Zdigits2 n = d.
Proof.
  intros [L U] Hd.
  assert (0 < 2 ^ (d - 1)) by (apply pow2_pos; lia).
  destruct n as [|p|p]; try lia. cbn [Zdigits2].
  apply Z.le_antisymm.
  - apply digits2_pos_le; [lia | assumption].
  - replace d with (d - 1 + 1) by lia. apply digits2_pos_ge. assumption.
Qed.

Lemma Zdigits2_lt_pow n d : 0 <= n -> 0 <= d -> n < 2 ^ d -> Zdigits2 n <= d.
Proof.
  intros Hn Hd H. destruct n as [|p|p]; try lia; cbn [Zdigits2]; [assumption|].
  apply digits2_pos_le; assumption.
Qed.

Lemma Zdigits2_ge_pow n d : 2 ^ d <= n -> 0 <= d -> d + 1 <= Zdigits2 n.
Proof.
  intros H Hd. assert (0 < 2 ^ d) by (apply pow2_pos; lia).
  destruct n as [|p|p]; try lia. cbn [Zdigits2]. apply digits2_pos_ge. assumption.
Qed.

Lemma Zdigits2_mono a b : 0 <= a <= b -> Zdigits2 a <= Zdigits2 b.
Proof.
  intros [Ha Hab]. destruct (Z.eq_dec a 0) as [->|Hn]; [apply Zdigits2_nonneg|].
  destruct (Zdigits2_bounds a ltac:(lia)) as [La _].
  pose proof (Zdigits2_nonneg a).
  assert (1 <= Zdigits2 a).
  { destruct a; try lia. cbn. lia. }
  replace (Zdigits2 a) with (Zdigits2 a - 1 + 1) by lia.
  apply Zdigits2_ge_pow; lia.
Qed.

Lemma Zdigits2_pos n : 0 < n -> 1 <= Zdigits2 n.
Proof. destruct n; try lia. cbn. lia. Qed.

Lemma Zdigits2_mul_pow n k : 0 < n -> 0 <= k -> Zdigits2 (n * 2 ^ k) = Zdigits2 n + k.
Proof.
  intros Hn Hk. destruct (Zdigits2_bounds n Hn) as [L U].
  pose proof (Zdigits2_pos n Hn).
  assert (P : 0 < 2 ^ k) by (apply pow2_pos; lia).
  apply Zdigits2_unique; [|lia].
  replace (Zdigits2 n + k - 1) with (Zdigits2 n - 1 + k) by lia.
  rewrite !Z.pow_add_r by lia. nia.
Qed.

Lemma Zdigits2_div_pow n k :
  0 <= n -> 0 <= k -> Zdigits2 (n / 2 ^ k) = Z.max (Zdigits2 n - k) 0.
Proof.
  intros Hn Hk. assert (P : 0 < 2 ^ k) by (apply pow2_pos; lia).
  destruct (Z.eq_dec n 0) as [->|Hnz].
  { rewrite Z.div_0_l by lia. cbn [Zdigits2]. lia. }
  destruct (Zdigits2_bounds n ltac:(lia)) as [L U].
  pose proof (Zdigits2_pos n ltac:(lia)) as Hd.
  destruct (Z_le_gt_dec (Zdigits2 n) k) as [Hs|Hs].
  - rewrite Z.div_small; [cbn [Zdigits2]; lia|].
    split; [lia|]. apply Z.lt_le_trans with (1 := U). apply Z.pow_le_mono_r; lia.
  - rewrite Z.max_l by lia. apply Zdigits2_unique; [|lia]. split.
    + apply Z.div_le_lower_bound; [lia|]. rewrite <- Z.pow_add_r by lia.
      replace (k + (Zdigits2 n - k - 1)) with (Zdigits2 n - 1) by lia. assumption.
    + apply Z.div_lt_upper_bound; [lia|]. rewrite <- Z.pow_add_r by lia.
      replace (k + (Zdigits2 n - k)) with (Zdigits2 n) by lia. assumption.
Qed.

(** ** The nearest integer to a fraction *)

Lemma div_half_even_bounds n d : 0 < d -> n / d <= div_half_even n d <= n / d + 1.
Proof.
  intros Hd. unfold div_half_even.
  destruct (2 * (n mod d) ?= d); try destruct (Z.even (n / d)); lia.
Qed.

Lemma div_half_even_scale n d c :
  0 < d -> 0 < c -> div_half_even (n * c) (d * c) = div_half_even n d.
Proof.
  intros Hd Hc. apply (nearest_even_unique (n * c) (d * c)); [nia | apply div_half_even_nearest; nia |].
  destruct (div_half_even_nearest n d Hd) as [H1 H2]. set (q := div_half_even n d) in *.
  unfold Spec.nearest_even.
  replace (n * c - q * (d * c)) with ((n - q * d) * c) by lia.
  rewrite Z.abs_mul, (Z.abs_eq c) by lia.
  split; [nia|]. intros E. apply H2. nia.
Qed.

Lemma div_half_even_exact m d : 0 < d -> div_half_even (m * d) d = m.
Proof.
  intros Hd. apply (nearest_even_unique (m * d) d); [assumption | apply div_half_even_nearest; lia |].
  unfold Spec.nearest_even. replace (m * d - m * d) with 0 by lia. cbn. split; [lia|]. lia.
Qed.

Lemma div_half_even_le n d B : 0 < d -> n <= B * d -> div_half_even n d <= B.
Proof.
  intros Hd H. unfold div_half_even.
  pose proof (Z.div_mod n d ltac:(lia)) as Hdm. pose proof (Z.mod_pos_bound n d Hd) as Hr.
  set (q := n / d) in *. set (r := n mod d) in *.
  assert (q <= B) by nia.
  destruct (Z.eq_dec q B) as [->|Hne].
  - assert (r = 0) by nia. subst r. rewrite H1.
    destruct (Z.compare_spec (2 * 0) d); try lia.
  - destruct (2 * r ?= d); try destruct (Z.even q); lia.
Qed.

Lemma div_half_even_ge n d B : 0 < d -> B * d <= n -> B <= div_half_even n d.
Proof.
  intros Hd H. pose proof (div_half_even_bounds n d Hd).
  assert (B <= n / d) by (apply Z.div_le_lower_bound; lia). lia.
Qed.

Lemma div_half_even_mono n1 d1 n2 d2 :
  0 < d1 -> 0 < d2 -> n1 * d2 <= n2 * d1 -> div_half_even n1 d1 <= div_half_even n2 d2.
Proof.
  intros H1 H2 H.
  destruct (div_half_even_nearest n1 d1 H1) as [A1 T1].
  destruct (div_half_even_nearest n2 d2 H2) as [A2 T2].
  set (q1 := div_half_even n1 d1) in *. set (q2 := div_half_even n2 d2) in *.
  destruct (Z_le_gt_dec q1 q2) as [|Hgt]; [assumption|exfalso].
  assert (L1 : (2 * q1 - 1) * d1 <= 2 * n1) by lia.
  assert (U2 : 2 * n2 <= (2 * q2 + 1) * d2) by lia.
  assert (L1' : (2 * q1 - 1) * d1 * d2 <= 2 * n1 * d2) by (apply Z.mul_le_mono_nonneg_r; lia).
  assert (U2' : 2 * n2 * d1 <= (2 * q2 + 1) * d2 * d1) by (apply Z.mul_le_mono_nonneg_r; lia).
  assert (Hd : 0 < d1 * d2) by nia.
  assert (C : (2 * q1 - 1) * (d1 * d2) <= (2 * q2 + 1) * (d1 * d2)) by lia.
  assert (Q : q1 = q2 + 1) by nia.
  assert (E1 : (2 * q1 - 1) * d1 * d2 = 2 * n1 * d2) by (subst q1; lia).
  assert (E2 : 2 * n2 * d1 = (2 * q2 + 1) * d2 * d1) by (rewrite Q in *; lia).
  assert (E1' : (2 * q1 - 1) * d1 = 2 * n1) by nia.
  assert (E2' : 2 * n2 = (2 * q2 + 1) * d2) by nia.
  assert (Ev1 : Z.even q1 = true) by (apply T1; lia).
  assert (Ev2 : Z.even q2 = true) by (apply T2; lia).
  rewrite Q, Z.add_1_r, Z.even_succ, <- Z.negb_even, Ev2 in Ev1. discriminate.
Qed.

Lemma round_units_mono N1 D1 N2 D2 :
  0 <= N1 -> 0 < D1 -> 0 < D2 -> N1 * D2 <= N2 * D1 ->
  round_units N1 D1 <= round_units N2 D2.
Proof.
  intros HN H1 H2 H. unfold round_units.
  assert (HN2 : 0 <= N2) by znia.
  pose proof (Z.div_mod N1 D1 ltac:(zlia)) as Hdm1.
  pose proof (Z.mod_pos_bound N1 D1 H1) as Hr1.
  pose proof (Z.div_mod N2 D2 ltac:(zlia)) as Hdm2.
  pose proof (Z.mod_pos_bound N2 D2 H2) as Hr2.
  assert (Hq1 : 0 <= N1 / D1) by (apply Z.div_pos; zlia).
  assert (Hq : N1 / D1 <= N2 / D2).
  { apply Z.div_le_lower_bound; [zlia|].
    apply (Z.mul_le_mono_pos_r _ _ D1); [zlia|].
    apply Z.le_trans with (N1 * D2); [|assumption].
    replace (D2 * (N1 / D1) * D1) with (D1 * (N1 / D1) * D2) by zlia.
    apply Z.mul_le_mono_nonneg_r; zlia. }
  set (q1 := N1 / D1) in *. set (q2 := N2 / D2) in *.
  pose proof (Zdigits2_mono q1 q2 ltac:(zlia)) as Hd.
  set (k1 := Z.max 0 (Zdigits2 q1 - 53)). set (k2 := Z.max 0 (Zdigits2 q2 - 53)).
  assert (Hk : 0 <= k1 <= k2) by zlia.
  assert (P1 : 0 < 2 ^ k1) by (apply pow2_pos; zlia).
  assert (P2 : 0 < 2 ^ k2) by (apply pow2_pos; zlia).
  destruct (Z.eq_dec k1 k2) as [E|NE].
  - rewrite <- E. apply Z.mul_le_mono_nonneg_r; [zlia|].
    apply div_half_even_mono; [znia | znia |].
    replace (N1 * (D2 * 2 ^ k1)) with (N1 * D2 * 2 ^ k1) by zlia.
    replace (N2 * (D1 * 2 ^ k1)) with (N2 * D1 * 2 ^ k1) by zlia.
    apply Z.mul_le_mono_nonneg_r; zlia.
  - set (P := 2 ^ (k2 + 52)).
    assert (HP : 0 < P) by (apply pow2_pos; zlia).
    assert (L2 : P <= q2).
    { assert (0 < q2).
      { destruct (Z.eq_dec q2 0) as [Hz|Hnz]; [|zlia].
        unfold k2 in *. rewrite Hz in *. cbn [Zdigits2] in *. zlia. }
      destruct (Zdigits2_bounds q2 H0) as [L _].
      unfold P. replace (k2 + 52) with (Zdigits2 q2 - 1) by zlia. assumption. }
    assert (U1 : q1 < P).
    { destruct (Z.eq_dec q1 0) as [->|Hnz]; [zlia|].
      destruct (Zdigits2_bounds q1 ltac:(zlia)) as [_ U].
      apply Z.lt_le_trans with (1 := U). unfold P. apply Z.pow_le_mono_r; zlia. }
    apply Z.le_trans with P.
    + replace P with (2 ^ (k2 + 52 - k1) * 2 ^ k1)
        by (unfold P; rewrite <- Z.pow_add_r by zlia; f_equal; zlia).
      apply Z.mul_le_mono_nonneg_r; [zlia|].
      apply div_half_even_le; [znia|].
      replace (2 ^ (k2 + 52 - k1) * (D1 * 2 ^ k1)) with (2 ^ (k2 + 52 - k1) * 2 ^ k1 * D1) by zlia.
      rewrite <- Z.pow_add_r by zlia. replace (k2 + 52 - k1 + k1) with (k2 + 52) by zlia.
      fold P. znia.
    + replace P with (2 ^ 52 * 2 ^ k2)
        by (unfold P; rewrite <- Z.pow_add_r by zlia; f_equal; zlia).
      apply Z.mul_le_mono_nonneg_r; [zlia|].
      apply div_half_even_ge; [znia|].
      replace (2 ^ 52 * (D2 * 2 ^ k2)) with (2 ^ 52 * 2 ^ k2 * D2) by zlia.
      rewrite <- Z.pow_add_r by zlia. replace (52 + k2) with (k2 + 52) by zlia.
      fold P. znia.
Qed.

(** The rounded value depends on the fraction, not on how it is written. *)
Lemma round_units_ratio N1 D1 N2 D2 :
  0 <= N1 -> 0 < D1 -> 0 < D2 -> N1 * D2 = N2 * D1 ->
  round_units N1 D1 = round_units N2 D2.
Proof.
  intros HN H1 H2 H. assert (0 <= N2) by znia.
  apply Z.le_antisymm; apply round_units_mono; zlia.
Qed.

Lemma round_units_nonneg N D : 0 <= N -> 0 < D -> 0 <= round_units N D.
Proof.
  intros HN HD. unfold round_units.
  set (k := Z.max 0 (Zdigits2 (N / D) - 53)).
  assert (0 < 2 ^ k) by (apply pow2_pos; zlia).
  pose proof (div_half_even_bounds N (D * 2 ^ k) ltac:(znia)).
  assert (0 <= N / (D * 2 ^ k)) by (apply Z.div_pos; znia).
  znia.
Qed.

(** ** The order of binary64 numbers, by value *)

Lemma SFle_finite_neg m1 e1 m2 e2 :
  canonical64 m1 e1 -> canonical64 m2 e2 ->
  SFle (S754_finite true m1 e1) (S754_finite true m2 e2) <->
  vle (Zpos m2) e2 (Zpos m1) e1.
Proof.
  intros C1 C2. rewrite <- (SFle_finite m2 e2 m1 e1) by assumption.
  unfold SFle, SFleb.
  rewrite (SFcompare_antisym (S754_finite false m1 e1) (S754_finite false m2 e2)).
  cbn [SFcompare].
  destruct (e1 ?= e2); cbn; reflexivity.
Qed.

Lemma zval_finite_pos m e : -1074 <= e -> 0 < Zpos m * 2 ^ (e + 1074).
Proof. intros. apply Z.mul_pos_pos; [zlia | apply pow2_pos; zlia]. Qed.

Lemma zval_bounded m e : bounded64 m e -> Zpos m * 2 ^ (e + 1074) < 2 ^ 2098.
Proof.
  intros [C He]. apply canonical64_digits in C. destruct C as [Cd Ce].
  destruct (digits2_pos_bounds m) as [_ U].
  assert (Zpos m < 2 ^ 53).
  { apply Z.lt_le_trans with (1 := U). apply Z.pow_le_mono_r; zlia. }
  assert (0 < 2 ^ (e + 1074)) by (apply pow2_pos; zlia).
  assert (2 ^ (e + 1074) <= 2 ^ 2045) by (apply Z.pow_le_mono_r; zlia).
  change (2 ^ 2098) with (2 ^ 53 * 2 ^ 2045). znia.
Qed.

Lemma SFle_xval (x y : spec_float) :
  valid_binary x = true -> valid_binary y = true ->
  x <> S754_nan -> y <> S754_nan ->
  (SFle x y <-> xval x <= xval y).
Proof.
  intros Vx Vy Nx Ny.
  assert (B : 2 ^ 2098 < 2 ^ 2100) by (apply Z.pow_lt_mono_r; zlia).
  destruct x as [sx|sx| |sx mx ex], y as [sy|sy| |sy my ey]; try congruence;
    cbn [valid_binary] in Vx, Vy; try apply bounded_64 in Vx; try apply bounded_64 in Vy;
    try (pose proof (zval_bounded _ _ Vx)); try (pose proof (zval_bounded _ _ Vy));
    try (pose proof (zval_finite_pos mx ex (proj2 (canonical64_digits _ _ (proj1 Vx)))));
    try (pose proof (zval_finite_pos my ey (proj2 (canonical64_digits _ _ (proj1 Vy)))));
    try destruct sx; try destruct sy; cbn [xval zval];
    try (split; [intros _; zlia | intros _; reflexivity]);
    try (split; [discriminate | intros; exfalso; zlia]).
  - rewrite SFle_finite_neg by (apply Vx || apply Vy).
    rewrite vle_zval by (apply (canonical64_digits my), Vy || apply (canonical64_digits mx), Vx).
    zlia.
  - rewrite SFle_finite by (apply Vx || apply Vy).
    apply vle_zval; [apply (canonical64_digits mx), Vx | apply (canonical64_digits my), Vy].
Qed.

(** ** Numbers given by their units *)

Lemma SF_of_units_zero s : SF_of_units s 0 = S754_zero s.
Proof. reflexivity. Qed.

Lemma SF_of_units_pos (s : bool) (U : Z) :
  0 < U ->
  let k := Z.max 0 (Zdigits2 U - 53) in
  exists m, U / 2 ^ k = Zpos m
    /\ SF_of_units s U = (if k <=? 2045 then S754_finite s m (k - 1074) else S754_infinity s)
    /\ canonical64 m (k - 1074).
Proof.
  intros HU k. unfold SF_of_units. fold k.
  destruct (Zdigits2_bounds U HU) as [L Up]. pose proof (Zdigits2_pos U HU) as Hd.
  assert (Pk : 0 < 2 ^ k) by (apply pow2_pos; zlia).
  assert (HM : 0 < U / 2 ^ k).
  { apply Z.div_str_pos. split; [assumption|].
    apply Z.le_trans with (2 := L). apply Z.pow_le_mono_r; zlia. }
  pose proof (Zdigits2_div_pow U k ltac:(zlia) ltac:(zlia)) as HD. fold k in HD.
  destruct (U / 2 ^ k) as [|m|m] eqn:EM; try zlia.
  exists m. split; [reflexivity|]. split; [reflexivity|].
  unfold canonical64. cbn [Zdigits2] in HD. zlia.
Qed.

Lemma SF_of_units_valid (s : bool) (U : Z) :
  0 <= U -> valid_binary (SF_of_units s U) = true.
Proof.
  intros HU. destruct (Z.eq_dec U 0) as [->|Hnz]; [reflexivity|].
  destruct (SF_of_units_pos s U ltac:(zlia)) as (m & _ & -> & C).
  destruct (Z.leb_spec (Z.max 0 (Zdigits2 U - 53)) 2045); [|reflexivity].
  cbn [valid_binary]. apply bounded_64. split; [assumption | zlia].
Qed.

Lemma SF_of_units_signed (s : bool) (U : Z) : 0 <= U -> signed s (SF_of_units s U).
Proof.
  intros HU. destruct (Z.eq_dec U 0) as [->|Hnz]; [reflexivity|].
  destruct (SF_of_units_pos s U ltac:(zlia)) as (m & _ & -> & C).
  destruct (Z.max 0 (Zdigits2 U - 53) <=? 2045); reflexivity.
Qed.

Lemma xval_SF_of_units_neg (U : Z) :
  0 <= U -> xval (SF_of_units true U) = - xval (SF_of_units false U).
Proof.
  intros HU. destruct (Z.eq_dec U 0) as [->|Hnz]; [reflexivity|].
  destruct (SF_of_units_pos true U ltac:(zlia)) as (m & E & -> & C).
  destruct (SF_of_units_pos false U ltac:(zlia)) as (m' & E' & -> & C').
  assert (m' = m) by congruence. subst m'.
  destruct (Z.max 0 (Zdigits2 U - 53) <=? 2045); reflexivity.
Qed.

Lemma xval_SF_of_units_nonneg (U : Z) : 0 <= U -> 0 <= xval (SF_of_units false U).
Proof.
  intros HU. destruct (Z.eq_dec U 0) as [->|Hnz]; [cbn; zlia|].
  destruct (SF_of_units_pos false U ltac:(zlia)) as (m & E & -> & C).
  destruct (Z.max 0 (Zdigits2 U - 53) <=? 2045); cbn [xval zval].
  - apply canonical64_digits in C. pose proof (zval_finite_pos m _ (proj2 C)). zlia.
  - apply Z.pow_nonneg. zlia.
Qed.

Lemma xval_SF_of_units_mono (U1 U2 : Z) :
  0 <= U1 <= U2 -> xval (SF_of_units false U1) <= xval (SF_of_units false U2).
Proof.
  intros [H1 H12].
  destruct (Z.eq_dec U1 0) as [->|Hnz].
  { rewrite SF_of_units_zero. cbn [xval zval]. apply xval_SF_of_units_nonneg. zlia. }
  destruct (SF_of_units_pos false U1 ltac:(zlia)) as (m1 & E1 & -> & C1).
  destruct (SF_of_units_pos false U2 ltac:(zlia)) as (m2 & E2 & -> & C2).
  pose proof (Zdigits2_mono U1 U2 ltac:(zlia)) as Hd.
  destruct (Zdigits2_bounds U1 ltac:(zlia)) as [L1 Up1].
  destruct (Zdigits2_bounds U2 ltac:(zlia)) as [L2 Up2].
  pose proof (Zdigits2_pos U1 ltac:(zlia)) as Hd1.
  set (k1 := Z.max 0 (Zdigits2 U1 - 53)) in *. set (k2 := Z.max 0 (Zdigits2 U2 - 53)) in *.
  assert (Hk : 0 <= k1 <= k2) by zlia.
  assert (P1 : 0 < 2 ^ k1) by (apply pow2_pos; zlia).
  assert (P2 : 0 < 2 ^ k2) by (apply pow2_pos; zlia).
  assert (B1 : Zpos m1 * 2 ^ k1 <= U1).
  { rewrite <- E1. rewrite Z.mul_comm. apply Z.mul_div_le. zlia. }
  assert (B98 : k1 <= 2045 -> U1 < 2 ^ 2098).
  { intros Hk1. apply Z.lt_le_trans with (1 := Up1). apply Z.pow_le_mono_r; zlia. }
  assert (B : 2 ^ 2098 < 2 ^ 2100) by (apply Z.pow_lt_mono_r; zlia).
  destruct (Z.leb_spec k2 2045) as [K2|K2].
  - destruct (Z.leb_spec k1 2045) as [K1|K1]; [|zlia].
    cbn [xval zval].
    replace (k1 - 1074 + 1074) with k1 by zlia. replace (k2 - 1074 + 1074) with k2 by zlia.
    destruct (Z.eq_dec k1 k2) as [E|NE].
    + rewrite <- E in *. apply Z.mul_le_mono_nonneg_r; [zlia|].
      rewrite <- E1, <- E2. apply Z.div_le_mono; zlia.
    + assert (Up1' : U1 < 2 ^ (k2 + 52)).
      { apply Z.lt_le_trans with (1 := Up1). apply Z.pow_le_mono_r; zlia. }
      assert (L2' : 2 ^ 52 <= Zpos m2).
      { rewrite <- E2. apply Z.div_le_lower_bound; [zlia|].
        rewrite <- Z.pow_add_r by zlia. replace (k2 + 52) with (Zdigits2 U2 - 1) by zlia.
        assumption. }
      assert (2 ^ (k2 + 52) <= Zpos m2 * 2 ^ k2).
      { replace (k2 + 52) with (52 + k2) by zlia. rewrite Z.pow_add_r by zlia.
        apply Z.mul_le_mono_nonneg_r; zlia. }
      zlia.
  - destruct (Z.leb_spec k1 2045) as [K1|K1]; cbn [xval zval]; [|zlia].
    replace (k1 - 1074 + 1074) with k1 by zlia. specialize (B98 K1). zlia.
Qed.

(** A representable number of units is the value of its binary64 number. *)
Lemma xval_SF_of_units_exact (M k : Z) :
  0 <= M < 2 ^ 53 -> 0 <= k <= 2045 -> (0 < k -> 2 ^ 52 <= M) ->
  xval (SF_of_units false (M * 2 ^ k)) = M * 2 ^ k.
Proof.
  intros HM Hk Hn.
  destruct (Z.eq_dec M 0) as [->|Hnz]; [reflexivity|].
  assert (Pk : 0 < 2 ^ k) by (apply pow2_pos; zlia).
  destruct (SF_of_units_pos false (M * 2 ^ k) ltac:(znia)) as (m & E & -> & C).
  rewrite Zdigits2_mul_pow in * by zlia.
  assert (Hd : Zdigits2 M <= 53) by (apply Zdigits2_lt_pow; zlia).
  assert (Hd' : 0 < k -> 53 <= Zdigits2 M).
  { intros H. change 53 with (52 + 1). apply Zdigits2_ge_pow; [auto | zlia]. }
  pose proof (Zdigits2_pos M ltac:(zlia)).
  assert (Ek : Z.max 0 (Zdigits2 M + k - 53) = k) by zlia.
  rewrite Ek in *. rewrite Z.div_mul in E by zlia.
  destruct (Z.leb_spec k 2045); [|zlia].
  cbn [xval zval]. replace (k - 1074 + 1074) with k by zlia. zlia.
Qed.

(** The second shift of [binary_round_aux] puts the rounded mantissa in
    canonical form. *)
Lemma round_aux_canon (s : bool) (M f : Z) :
  0 <= M -> -1074 <= f -> (-1074 < f -> 2 ^ 52 <= M) ->
  let e2 := f + Z.max (fexp64 (Zdigits2 M + f) - f) 0 in
  match M / 2 ^ (e2 - f) with
  | Z0 => S754_zero s
  | Zpos m => if e2 <=? 971 then S754_finite s m e2 else S754_infinity s
  | Zneg _ => S754_nan
  end = SF_of_units s (M * 2 ^ (f + 1074)).
Proof.
  intros HM Hf Hn e2.
  destruct (Z.eq_dec M 0) as [->|Hnz].
  { rewrite Z.div_0_l by (apply Z.pow_nonzero; unfold e2; zlia). reflexivity. }
  unfold SF_of_units. rewrite Zdigits2_mul_pow by zlia.
  pose proof (Zdigits2_pos M ltac:(zlia)) as Hd.
  assert (Hd' : -1074 < f -> 53 <= Zdigits2 M).
  { intros H. change 53 with (52 + 1). apply Zdigits2_ge_pow; [auto | zlia]. }
  unfold e2 in *. rewrite fexp64_eq in *.
  set (j := Z.max (Z.max (Zdigits2 M + f - 53) (-1074) - f) 0).
  assert (Ek : Z.max 0 (Zdigits2 M + (f + 1074) - 53) = f + 1074 + j) by (unfold j; zlia).
  assert (Hj : 0 <= j) by (unfold j; zlia).
  rewrite Ek. replace (f + j - f) with j by zlia.
  rewrite (Z.pow_add_r 2 (f + 1074) j) by zlia.
  rewrite (Z.mul_comm M (2 ^ (f + 1074))).
  rewrite Z.div_mul_cancel_l by (apply Z.pow_nonzero; zlia).
  replace (f + 1074 + j - 1074) with (f + j) by zlia.
  destruct (M / 2 ^ j); try reflexivity.
  destruct (Z.leb_spec (f + j) 971), (Z.leb_spec (f + 1074 + j) 2045); try zlia; reflexivity.
Qed.

Lemma div_half_even_cases (n d q r : Z) :
  0 < d -> n = d * q + r -> 0 <= r < d ->
  div_half_even n d =
  match 2 * r ?= d with
  | Lt => q
  | Gt => q + 1
  | Eq => if Z.even q then q else q + 1
  end.
Proof.
  intros Hd E Hr. unfold div_half_even.
  destruct (div_mod_unique_pos n d q r Hr E) as [-> ->]. reflexivity.
Qed.

Lemma loc_code_of_ratio (n d : Z) :
  0 < d ->
  let c := loc_code (loc_of_ratio n d) in
  0 <= c < 4 /\ (c = 0 <-> n mod d = 0) /\ (2 * c ?= 4) = (2 * (n mod d) ?= d).
Proof.
  intros Hd c. unfold c, loc_of_ratio.
  pose proof (Z.mod_pos_bound n d Hd) as Hr.
  destruct (Z.eqb_spec (n mod d) 0) as [E|NE].
  - rewrite E. cbn [loc_code]. repeat split; try zlia.
    destruct (Z.compare_spec (2 * 0) d); try zlia. reflexivity.
  - destruct (Z.compare_spec (2 * (n mod d)) d); cbn [loc_code]; repeat split; zlia.
Qed.

(** A located quotient rounds as the exact fraction does. *)
Lemma div_half_even_located (n d j : Z) :
  0 < d -> 0 <= j ->
  div_half_even (4 * (n / d) + loc_code (loc_of_ratio n d)) (2 ^ (j + 2))
  = div_half_even n (d * 2 ^ j).
Proof.
  intros Hd Hj.
  destruct (loc_code_of_ratio n d Hd) as (Hc & Hc0 & Hcmp).
  set (c := loc_code (loc_of_ratio n d)) in *. clearbody c.
  pose proof (Z.div_mod n d ltac:(zlia)) as Hn.
  pose proof (Z.mod_pos_bound n d Hd) as Hr.
  set (q := n / d) in *. set (r := n mod d) in *. clearbody q r.
  set (A := 2 ^ j).
  assert (HA : 0 < A) by (apply pow2_pos; zlia).
  assert (E4 : 2 ^ (j + 2) = 4 * A) by (unfold A; rewrite Z.pow_add_r by zlia; zlia).
  rewrite E4.
  pose proof (Z.div_mod q A ltac:(zlia)) as Hq.
  pose proof (Z.mod_pos_bound q A HA) as HS.
  set (Q := q / A) in *. set (S := q mod A) in *.
  assert (HdS : d * S <= d * (A - 1)) by (apply Z.mul_le_mono_nonneg_l; zlia).
  rewrite (div_half_even_cases (4 * q + c) (4 * A) Q (4 * S + c)); [|zlia|zlia|zlia].
  rewrite (div_half_even_cases n (d * A) Q (d * S + r)); [|znia|znia|znia].
  assert (C : (2 * (4 * S + c) ?= 4 * A) = (2 * (d * S + r) ?= d * A)); [|rewrite C; reflexivity].
  destruct (Z.eq_dec j 0) as [J0|J0].
  - assert (A = 1) by (unfold A; rewrite J0; reflexivity).
    assert (S = 0) by zlia. clearbody A S Q. subst A S.
    replace (2 * (4 * 0 + c) ?= 4 * 1) with (2 * c ?= 4) by (f_equal; zlia).
    replace (2 * (d * 0 + r) ?= d * 1) with (2 * r ?= d) by (f_equal; zlia).
    assumption.
  - assert (EA : A = 2 * 2 ^ (j - 1)).
    { unfold A. replace j with (1 + (j - 1)) at 1 by zlia. rewrite Z.pow_add_r by zlia. zlia. }
    set (H := 2 ^ (j - 1)) in *.
    assert (HH : 0 < H) by (apply pow2_pos; zlia).
    clearbody A S Q H. subst A.
    destruct (Z.lt_trichotomy S H) as [L | [E | G]].
    + assert (d * S <= d * (H - 1)) by (apply Z.mul_le_mono_nonneg_l; zlia).
      destruct (Z.compare_spec (2 * (4 * S + c)) (4 * (2 * H))),
        (Z.compare_spec (2 * (d * S + r)) (d * (2 * H))); try reflexivity; exfalso; zlia.
    + subst S.
      destruct (Z.compare_spec (2 * (4 * H + c)) (4 * (2 * H))),
        (Z.compare_spec (2 * (d * H + r)) (d * (2 * H))); try reflexivity; exfalso; zlia.
    + assert (d * (H + 1) <= d * S) by (apply Z.mul_le_mono_nonneg_l; zlia).
      destruct (Z.compare_spec (2 * (4 * S + c)) (4 * (2 * H))),
        (Z.compare_spec (2 * (d * S + r)) (d * (2 * H))); try reflexivity; exfalso; zlia.
Qed.

Lemma Zdigits2_scaled_quotient (n d E : Z) :
  0 < d -> 0 <= E -> 0 < n / d ->
  Zdigits2 (n * 2 ^ E / d) = Zdigits2 (n / d) + E.
Proof.
  intros Hd HE Hq.
  pose proof (Z.div_mod n d ltac:(zlia)) as Hn.
  pose proof (Z.mod_pos_bound n d Hd) as Hr.
  destruct (Zdigits2_bounds (n / d) Hq) as [L U].
  pose proof (Zdigits2_pos (n / d) Hq) as Hdq.
  set (q := n / d) in *. set (dq := Zdigits2 q) in *.
  assert (PE : 0 < 2 ^ E) by (apply pow2_pos; zlia).
  apply Zdigits2_unique; [|zlia]. split.
  - apply Z.div_le_lower_bound; [zlia|].
    replace (dq + E - 1) with (dq - 1 + E) by zlia. rewrite Z.pow_add_r by zlia.
    assert (d * 2 ^ (dq - 1) <= d * q) by (apply Z.mul_le_mono_nonneg_l; zlia).
    assert (d * q <= n) by zlia.
    replace (d * (2 ^ (dq - 1) * 2 ^ E)) with (d * 2 ^ (dq - 1) * 2 ^ E) by zlia.
    apply Z.mul_le_mono_nonneg_r; zlia.
  - apply Z.div_lt_upper_bound; [zlia|].
    rewrite Z.pow_add_r by zlia.
    assert (d * (q + 1) <= d * 2 ^ dq) by (apply Z.mul_le_mono_nonneg_l; zlia).
    assert (n < d * 2 ^ dq) by zlia.
    replace (d * (2 ^ dq * 2 ^ E)) with (d * 2 ^ dq * 2 ^ E) by zlia.
    apply Z.mul_lt_mono_pos_r; zlia.
Qed.

(** [binary_round_aux] at a located quotient yields the binary64 number
    nearest to the exact fraction. *)
Lemma binary_round_aux_located (s : bool) (n d ex : Z) :
  0 <= n -> 0 < d -> ex <= fexp64 (Zdigits2 (n / d) + ex) ->
  binary_round_aux prec emax s (n / d) ex (loc_of_ratio n d)
  = SF_of_units s (round_units (n * 2 ^ Z.max 0 (ex + 1074))
                               (d * 2 ^ Z.max 0 (- (ex + 1074)))).
Proof.
  intros Hn Hd Hpre.
  pose proof (Z.div_mod n d ltac:(zlia)) as En.
  pose proof (Z.mod_pos_bound n d Hd) as Hr.
  assert (Hq : 0 <= n / d) by (apply Z.div_pos; zlia).
  rewrite binary_round_aux_rne by assumption. cbv zeta.
  rewrite div_half_even_located by zlia.
  set (q := n / d) in *. set (f := fexp64 (Zdigits2 q + ex)) in *.
  pose proof (Zdigits2_nonneg q) as Hdq0.
  assert (Ef : f = Z.max (Zdigits2 q + ex - 53) (-1074)) by (unfold f; apply fexp64_eq).
  assert (Pj : 0 < 2 ^ (f - ex)) by (apply pow2_pos; zlia).
  set (M := div_half_even n (d * 2 ^ (f - ex))).
  assert (HM : 0 <= M).
  { unfold M. apply div_half_even_ge; [znia | zlia]. }
  assert (HM52 : -1074 < f -> 2 ^ 52 <= M).
  { intros Hf. assert (Hq0 : 0 < q).
    { destruct (Z.eq_dec q 0) as [Hz|]; [|zlia]. rewrite Hz in *. cbn [Zdigits2] in *. zlia. }
    destruct (Zdigits2_bounds q Hq0) as [L _].
    unfold M. apply div_half_even_ge; [znia|].
    replace (2 ^ 52 * (d * 2 ^ (f - ex))) with (d * (2 ^ 52 * 2 ^ (f - ex))) by zlia.
    rewrite <- Z.pow_add_r by zlia.
    replace (52 + (f - ex)) with (Zdigits2 q - 1) by zlia.
    assert (d * 2 ^ (Zdigits2 q - 1) <= d * q) by (apply Z.mul_le_mono_nonneg_l; zlia).
    zlia. }
  rewrite (round_aux_canon s M f HM ltac:(zlia) HM52).
  f_equal. unfold round_units.
  set (N := n * 2 ^ Z.max 0 (ex + 1074)). set (D := d * 2 ^ Z.max 0 (- (ex + 1074))).
  assert (Ek : Z.max 0 (Zdigits2 (N / D) - 53) = f + 1074).
  { unfold N, D. destruct (Z_le_gt_dec 0 (ex + 1074)) as [HE|HE].
    - rewrite (Z.max_r 0 (ex + 1074)), (Z.max_l 0 (- (ex + 1074))) by zlia.
      rewrite Z.pow_0_r, Z.mul_1_r.
      destruct (Z.eq_dec q 0) as [Hz|Hnz].
      + rewrite Hz in *. cbn [Zdigits2] in *.
        assert (ex + 1074 = 0) by zlia. rewrite H, Z.pow_0_r, Z.mul_1_r.
        fold q. rewrite Hz. cbn [Zdigits2]. zlia.
      + rewrite Zdigits2_scaled_quotient by (fold q; zlia). fold q. zlia.
    - rewrite (Z.max_l 0 (ex + 1074)), (Z.max_r 0 (- (ex + 1074))) by zlia.
      rewrite Z.pow_0_r, Z.mul_1_r.
      rewrite <- Z.div_div by (try apply pow2_pos; zlia). fold q.
      rewrite Zdigits2_div_pow by zlia. zlia. }
  rewrite Ek. f_equal.
  unfold M, N, D. destruct (Z_le_gt_dec 0 (ex + 1074)) as [HE|HE].
  - rewrite (Z.max_r 0 (ex + 1074)), (Z.max_l 0 (- (ex + 1074))) by zlia.
    rewrite Z.pow_0_r, Z.mul_1_r.
    replace (f + 1074) with ((f - ex) + (ex + 1074)) by zlia.
    rewrite (Z.pow_add_r 2 (f - ex) (ex + 1074)) by zlia.
    rewrite (Z.mul_assoc d).
    symmetry. apply div_half_even_scale; [znia | apply pow2_pos; zlia].
  - rewrite (Z.max_l 0 (ex + 1074)), (Z.max_r 0 (- (ex + 1074))) by zlia.
    rewrite Z.pow_0_r, Z.mul_1_r, <- Z.mul_assoc, <- Z.pow_add_r by zlia.
    do 3 f_equal. zlia.
Qed.

Lemma loc_of_ratio_1 n : loc_of_ratio n 1 = loc_Exact.
Proof. unfold loc_of_ratio. rewrite Z.mod_1_r. reflexivity. Qed.

(** [binary_round_aux] at an exact integer mantissa. *)
Lemma binary_round_aux_exact (s : bool) (mx ex : Z) :
  0 <= mx -> ex <= fexp64 (Zdigits2 mx + ex) ->
  binary_round_aux prec emax s mx ex loc_Exact
  = SF_of_units s (round_units (mx * 2 ^ Z.max 0 (ex + 1074)) (2 ^ Z.max 0 (- (ex + 1074)))).
Proof.
  intros Hmx Hpre.
  pose proof (binary_round_aux_located s mx 1 ex Hmx ltac:(zlia)) as H.
  rewrite Z.div_1_r, loc_of_ratio_1, Z.mul_1_l in H. apply H. assumption.
Qed.

Lemma binary_round_units (s : bool) (m : positive) (e : Z) :
  -1074 <= e ->
  binary_round prec emax s m e = SF_of_units s (round_units (Zpos m * 2 ^ (e + 1074)) 1).
Proof.
  intros He.
  destruct (binary_round_aligned s m e) as (m' & e' & E & He' & Hm & Hpre). rewrite E.
  rewrite binary_round_aux_exact by (assumption || zlia).
  f_equal.
  assert (P1 : 0 < 2 ^ Z.max 0 (e' + 1074)) by (apply pow2_pos; zlia).
  assert (P2 : 0 < 2 ^ Z.max 0 (- (e' + 1074))) by (apply pow2_pos; zlia).
  apply round_units_ratio; [znia | zlia | zlia |].
  rewrite Hm, Z.mul_1_r.
  rewrite <- !Z.mul_assoc, <- !Z.pow_add_r by zlia.
  do 2 f_equal. zlia.
Qed.

(** ** The binary64 number nearest to a signed fraction of units *)

Lemma SFround_pos N D : 0 < N -> SFround N D = SF_of_units false (round_units N D).
Proof. destruct N; try zlia. reflexivity. Qed.

Lemma SFround_neg N D : N < 0 -> SFround N D = SF_of_units true (round_units (- N) D).
Proof. destruct N; try zlia. reflexivity. Qed.

Lemma SFround_valid N D : 0 < D -> valid_binary (SFround N D) = true.
Proof.
  intros HD. destruct N as [|p|p]; cbn [SFround]; [reflexivity | |];
    apply SF_of_units_valid, round_units_nonneg; zlia.
Qed.

Lemma SFround_not_nan N D : 0 < D -> SFround N D <> S754_nan.
Proof.
  intros HD. destruct N as [|p|p]; cbn [SFround]; [discriminate | |].
  - apply (signed_not_nan false), SF_of_units_signed, round_units_nonneg; zlia.
  - apply (signed_not_nan true), SF_of_units_signed, round_units_nonneg; zlia.
Qed.

Lemma SFround_mono N1 D1 N2 D2 :
  0 < D1 -> 0 < D2 -> N1 * D2 <= N2 * D1 ->
  xval (SFround N1 D1) <= xval (SFround N2 D2).
Proof.
  intros H1 H2 H.
  destruct (Z.lt_trichotomy N1 0) as [L1 | [E1 | G1]].
  - rewrite (SFround_neg N1) by assumption.
    rewrite xval_SF_of_units_neg by (apply round_units_nonneg; zlia).
    pose proof (xval_SF_of_units_nonneg (round_units (- N1) D1)
                  ltac:(apply round_units_nonneg; zlia)).
    destruct (Z.lt_trichotomy N2 0) as [L2 | [E2 | G2]].
    + rewrite (SFround_neg N2) by assumption.
      rewrite xval_SF_of_units_neg by (apply round_units_nonneg; zlia).
      assert (xval (SF_of_units false (round_units (- N2) D2))
              <= xval (SF_of_units false (round_units (- N1) D1))); [|zlia].
      apply xval_SF_of_units_mono. split; [apply round_units_nonneg; zlia|].
      apply round_units_mono; zlia.
    + subst N2. cbn [SFround xval zval]. zlia.
    + rewrite (SFround_pos N2) by assumption.
      pose proof (xval_SF_of_units_nonneg (round_units N2 D2)
                    ltac:(apply round_units_nonneg; zlia)). zlia.
  - subst N1. cbn [SFround xval zval].
    assert (0 <= N2) by znia.
    destruct (Z.eq_dec N2 0) as [->|]; [cbn; zlia|].
    rewrite (SFround_pos N2) by zlia.
    apply xval_SF_of_units_nonneg, round_units_nonneg; zlia.
  - assert (0 < N2) by znia.
    rewrite (SFround_pos N1), (SFround_pos N2) by assumption.
    apply xval_SF_of_units_mono. split; [apply round_units_nonneg; zlia|].
    apply round_units_mono; zlia.
Qed.

Lemma round_units_representable (M k : Z) :
  0 <= M < 2 ^ 53 -> 0 <= k -> (0 < k -> 2 ^ 52 <= M) ->
  round_units (M * 2 ^ k) 1 = M * 2 ^ k.
Proof.
  intros HM Hk Hn. unfold round_units. rewrite Z.div_1_r, Z.mul_1_l.
  destruct (Z.eq_dec M 0) as [->|Hnz]; [reflexivity|].
  rewrite Zdigits2_mul_pow by zlia.
  assert (Hd : Zdigits2 M <= 53) by (apply Zdigits2_lt_pow; zlia).
  assert (Hd' : 0 < k -> 53 <= Zdigits2 M).
  { intros H. change 53 with (52 + 1). apply Zdigits2_ge_pow; [auto | zlia]. }
  pose proof (Zdigits2_pos M ltac:(zlia)).
  replace (Z.max 0 (Zdigits2 M + k - 53)) with k by zlia.
  rewrite div_half_even_exact by (apply pow2_pos; zlia). reflexivity.
Qed.

Lemma bounded64_units (m : positive) (e : Z) :
  bounded64 m e ->
  0 <= Zpos m < 2 ^ 53 /\ 0 <= e + 1074 <= 2045 /\ (0 < e + 1074 -> 2 ^ 52 <= Zpos m).
Proof.
  intros [C He]. unfold canonical64 in C.
  destruct (digits2_pos_bounds m) as [L U].
  split; [split; [zlia|]|split; [zlia|]].
  - apply Z.lt_le_trans with (1 := U). apply Z.pow_le_mono_r; zlia.
  - intros H. replace 52 with (Zpos (digits2_pos m) - 1) by zlia. assumption.
Qed.

Lemma zval_finite (s : bool) (m : positive) (e : Z) :
  zval (S754_finite s m e) = cond_Zopp s (Zpos m) * 2 ^ (e + 1074).
Proof. destruct s; cbn [zval cond_Zopp]; zlia. Qed.

(** A binary64 number is the nearest to its own value. *)
Lemma SFround_exact (x : spec_float) :
  valid_binary x = true -> SFfinite x -> xval (SFround (zval x) 1) = xval x.
Proof.
  destruct x as [s|s| |s m e]; cbn [SFfinite]; try contradiction; intros Hv _;
    [reflexivity|].
  cbn [valid_binary] in Hv. apply bounded_64 in Hv.
  destruct (bounded64_units m e Hv) as (HM & Hk & Hn).
  assert (P : 0 < 2 ^ (e + 1074)) by (apply pow2_pos; zlia).
  destruct s; cbn [zval xval].
  - rewrite SFround_neg by zlia. rewrite Z.opp_involutive.
    rewrite round_units_representable by (assumption || zlia).
    rewrite xval_SF_of_units_neg by zlia.
    rewrite xval_SF_of_units_exact by (assumption || zlia). reflexivity.
  - rewrite SFround_pos by zlia.
    rewrite round_units_representable by (assumption || zlia).
    rewrite xval_SF_of_units_exact by (assumption || zlia). reflexivity.
Qed.

(** ** The operations as roundings of exact values *)

Lemma binary_normalize_round (n e : Z) :
  -1074 <= e ->
  binary_normalize prec emax n e false = SFround (n * 2 ^ (e + 1074)) 1.
Proof.
  intros He. assert (P : 0 < 2 ^ (e + 1074)) by (apply pow2_pos; zlia).
  destruct n as [|p|p]; cbn [binary_normalize].
  - reflexivity.
  - rewrite SFround_pos by zlia. apply binary_round_units. assumption.
  - rewrite SFround_neg by zlia. rewrite binary_round_units by assumption.
    do 2 f_equal. zlia.
Qed.

Lemma SFadd_finite_round (sx : bool) (mx : positive) (ex : Z) (sy : bool) (my : positive) (ey : Z) :
  -1074 <= ex -> -1074 <= ey ->
  SFadd prec emax (S754_finite sx mx ex) (S754_finite sy my ey)
  = SFround (zval (S754_finite sx mx ex) + zval (S754_finite sy my ey)) 1.
Proof.
  intros Hx Hy. unfold SFadd.
  destruct (shl_align_min mx ex ey) as (mx' & -> & Ex).
  destruct (shl_align_min my ey ex) as (my' & Ey & Ey').
  rewrite Z.min_comm in Ey, Ey'. rewrite Ey.
  rewrite binary_normalize_round by zlia. f_equal.
  rewrite !zval_finite.
  replace (cond_Zopp sx (Zpos mx')) with (cond_Zopp sx (Zpos mx) * 2 ^ (ex - Z.min ex ey))
    by (destruct sx; cbn [cond_Zopp]; zlia).
  replace (cond_Zopp sy (Zpos my')) with (cond_Zopp sy (Zpos my) * 2 ^ (ey - Z.min ex ey))
    by (destruct sy; cbn [cond_Zopp]; zlia).
  rewrite Z.mul_add_distr_r, <- !Z.mul_assoc, <- !Z.pow_add_r by zlia.
  do 2 f_equal; f_equal; zlia.
Qed.

Lemma SFsub_finite_round (sx : bool) (mx : positive) (ex : Z) (sy : bool) (my : positive) (ey : Z) :
  -1074 <= ex -> -1074 <= ey ->
  SFsub prec emax (S754_finite sx mx ex) (S754_finite sy my ey)
  = SFround (zval (S754_finite sx mx ex) - zval (S754_finite sy my ey)) 1.
Proof.
  intros Hx Hy. unfold SFsub.
  destruct (shl_align_min mx ex ey) as (mx' & -> & Ex).
  destruct (shl_align_min my ey ex) as (my' & Ey & Ey').
  rewrite Z.min_comm in Ey, Ey'. rewrite Ey.
  rewrite binary_normalize_round by zlia. f_equal.
  rewrite !zval_finite.
  replace (cond_Zopp sx (Zpos mx')) with (cond_Zopp sx (Zpos mx) * 2 ^ (ex - Z.min ex ey))
    by (destruct sx; cbn [cond_Zopp]; zlia).
  replace (cond_Zopp sy (Zpos my')) with (cond_Zopp sy (Zpos my) * 2 ^ (ey - Z.min ex ey))
    by (destruct sy; cbn [cond_Zopp]; zlia).
  rewrite Z.mul_sub_distr_r, <- !Z.mul_assoc, <- !Z.pow_add_r by zlia.
  do 2 f_equal; f_equal; zlia.
Qed.

Lemma digits2_pos_mul_ge (a b : positive) :
  Zpos (digits2_pos a) + Zpos (digits2_pos b) - 1 <= Zpos (digits2_pos (a * b)).
Proof.
  destruct (digits2_pos_bounds a) as [La _]. destruct (digits2_pos_bounds b) as [Lb _].
  set (da := Zpos (digits2_pos a)) in *. set (db := Zpos (digits2_pos b)) in *.
  assert (1 <= da /\ 1 <= db) as [Ha Hb] by (unfold da, db; zlia).
  replace (da + db - 1) with (da - 1 + (db - 1) + 1) by zlia.
  apply digits2_pos_ge. rewrite Z.pow_add_r, Pos2Z.inj_mul by zlia.
  assert (0 < 2 ^ (da - 1)) by (apply pow2_pos; zlia).
  assert (0 < 2 ^ (db - 1)) by (apply pow2_pos; zlia). znia.
Qed.

Lemma SFmul_finite_round (sx : bool) (mx : positive) (ex : Z) (sy : bool) (my : positive) (ey : Z) :
  canonical64 mx ex -> canonical64 my ey ->
  SFmul prec emax (S754_finite sx mx ex) (S754_finite sy my ey)
  = SF_of_units (xorb sx sy)
      (round_units (Zpos mx * 2 ^ (ex + 1074) * (Zpos my * 2 ^ (ey + 1074))) (2 ^ 1074)).
Proof.
  intros Cx Cy. cbn [SFmul].
  pose proof (digits2_pos_mul_ge mx my) as Hd.
  unfold canonical64 in Cx, Cy.
  assert (Hx1 : 1 <= Zpos (digits2_pos mx)) by zlia.
  assert (Hy1 : 1 <= Zpos (digits2_pos my)) by zlia.
  rewrite binary_round_aux_exact; [|zlia|cbn [Zdigits2]; rewrite fexp64_eq; zlia].
  f_equal.
  set (E := ex + ey + 1074).
  assert (P1 : 0 < 2 ^ Z.max 0 E) by (apply pow2_pos; zlia).
  assert (P2 : 0 < 2 ^ Z.max 0 (- E)) by (apply pow2_pos; zlia).
  assert (P3 : 0 < 2 ^ 1074) by (apply pow2_pos; zlia).
  apply round_units_ratio; [znia | zlia | zlia |].
  rewrite Pos2Z.inj_mul.
  replace (Zpos mx * Zpos my * 2 ^ Z.max 0 E * 2 ^ 1074)
    with (Zpos mx * Zpos my * (2 ^ Z.max 0 E * 2 ^ 1074)) by zlia.
  replace (Zpos mx * 2 ^ (ex + 1074) * (Zpos my * 2 ^ (ey + 1074)) * 2 ^ Z.max 0 (- E))
    with (Zpos mx * Zpos my * (2 ^ (ex + 1074) * 2 ^ (ey + 1074) * 2 ^ Z.max 0 (- E))) by zlia.
  rewrite <- !Z.pow_add_r by zlia. do 2 f_equal. unfold E. zlia.
Qed.

Lemma new_location_ratio (n d : Z) :
  0 < d -> new_location d (n mod d) = loc_of_ratio n d.
Proof.
  intros Hd. unfold new_location, new_location_even, new_location_odd, loc_of_ratio.
  pose proof (Z.mod_pos_bound n d Hd) as Hr. set (r := n mod d) in *.
  destruct (Z.even d) eqn:Ev; destruct (Z.eqb_spec r 0); try reflexivity.
  f_equal.
  assert (Od : Z.odd d = true) by (rewrite <- Z.negb_even, Ev; reflexivity).
  apply Z.odd_spec in Od. destruct Od as [c Hc].
  destruct (Z.compare_spec (2 * r + 1) d), (Z.compare_spec (2 * r) d); try reflexivity; zlia.
Qed.

Lemma SFdiv_core_located (mx : positive) (ex : Z) (my : positive) (ey : Z) :
  exists e',
    SFdiv_core_binary prec emax (Zpos mx) ex (Zpos my) ey
    = (Zpos mx * 2 ^ (ex - ey - e') / Zpos my, e',
       loc_of_ratio (Zpos mx * 2 ^ (ex - ey - e')) (Zpos my))
    /\ e' <= ex - ey
    /\ e' <= fexp64 (Zdigits2 (Zpos mx * 2 ^ (ex - ey - e') / Zpos my) + e').
Proof.
  destruct (SFdiv_core_spec mx ex my ey) as (q & e0 & l & E & He & Hq & _ & Hpre).
  exists e0. split; [|split; [assumption | rewrite <- Hq; assumption]].
  rewrite E. rewrite <- Hq. do 1 f_equal.
  revert E. unfold SFdiv_core_binary. cbn [Zdigits2].
  set (e' := Z.min _ _).
  set (sh := ex - ey - e').
  set (m' := match sh with Z.pos _ => Z.shiftl (Zpos mx) sh | 0 => Zpos mx | Z.neg _ => 0 end).
  destruct (Z.div_eucl m' (Zpos my)) as [q' r] eqn:Ed.
  intros E. inversion E. subst q' e0.
  assert (Hsh : 0 <= sh) by (unfold sh; zlia).
  assert (Em' : m' = Zpos mx * 2 ^ sh).
  { unfold m'. destruct sh as [|p|p] eqn:Es; [cbn; zlia | | zlia].
    apply Z.shiftl_mul_pow2. zlia. }
  assert (Er : r = m' mod Zpos my) by (unfold Z.modulo; rewrite Ed; reflexivity).
  fold sh. rewrite <- Em', Er. apply new_location_ratio. zlia.
Qed.

Lemma SFdiv_finite_round (sx : bool) (mx : positive) (ex : Z) (sy : bool) (my : positive) (ey : Z) :
  -1074 <= ex -> -1074 <= ey ->
  SFdiv prec emax (S754_finite sx mx ex) (S754_finite sy my ey)
  = SF_of_units (xorb sx sy)
      (round_units (Zpos mx * 2 ^ (ex + 1074) * 2 ^ 1074) (Zpos my * 2 ^ (ey + 1074))).
Proof.
  intros Hx Hy. cbn [SFdiv].
  destruct (SFdiv_core_located mx ex my ey) as (e' & E & He & Hpre). rewrite E.
  set (sh := ex - ey - e') in *.
  assert (Psh : 0 < 2 ^ sh) by (apply pow2_pos; unfold sh; zlia).
  rewrite binary_round_aux_located; [|znia|zlia|assumption].
  f_equal.
  assert (P1 : 0 < 2 ^ Z.max 0 (e' + 1074)) by (apply pow2_pos; zlia).
  assert (P2 : 0 < 2 ^ Z.max 0 (- (e' + 1074))) by (apply pow2_pos; zlia).
  assert (P3 : 0 < 2 ^ (ey + 1074)) by (apply pow2_pos; zlia).
  apply round_units_ratio; [znia | znia | znia |].
  replace (Zpos mx * 2 ^ sh * 2 ^ Z.max 0 (e' + 1074) * (Zpos my * 2 ^ (ey + 1074)))
    with (Zpos mx * Zpos my * (2 ^ sh * 2 ^ Z.max 0 (e' + 1074) * 2 ^ (ey + 1074))) by zlia.
  replace (Zpos mx * 2 ^ (ex + 1074) * 2 ^ 1074 * (Zpos my * 2 ^ Z.max 0 (- (e' + 1074))))
    with (Zpos mx * Zpos my * (2 ^ (ex + 1074) * 2 ^ 1074 * 2 ^ Z.max 0 (- (e' + 1074)))) by zlia.
  rewrite <- !Z.pow_add_r by (unfold sh; zlia). do 2 f_equal. unfold sh. zlia.
Qed.

Lemma SF_of_ratio_round (s : bool) (n d : positive) :
  SF_of_ratio s n d = SF_of_units s (round_units (Zpos n * 2 ^ 1074) (Zpos d)).
Proof.
  unfold SF_of_ratio.
  destruct (SFdiv_core_located n 0 d 0) as (e' & E & He & Hpre). rewrite E.
  set (sh := 0 - 0 - e') in *.
  assert (Psh : 0 < 2 ^ sh) by (apply pow2_pos; unfold sh; zlia).
  rewrite binary_round_aux_located; [|znia|zlia|assumption].
  f_equal.
  assert (P1 : 0 < 2 ^ Z.max 0 (e' + 1074)) by (apply pow2_pos; zlia).
  assert (P2 : 0 < 2 ^ Z.max 0 (- (e' + 1074))) by (apply pow2_pos; zlia).
  apply round_units_ratio; [znia | znia | zlia |].
  replace (Zpos n * 2 ^ sh * 2 ^ Z.max 0 (e' + 1074) * Zpos d)
    with (Zpos n * Zpos d * (2 ^ sh * 2 ^ Z.max 0 (e' + 1074))) by zlia.
  replace (Zpos n * 2 ^ 1074 * (Zpos d * 2 ^ Z.max 0 (- (e' + 1074))))
    with (Zpos n * Zpos d * (2 ^ 1074 * 2 ^ Z.max 0 (- (e' + 1074)))) by zlia.
  rewrite <- !Z.pow_add_r by (unfold sh; zlia). do 2 f_equal. unfold sh. zlia.
Qed.

(** ** The rounded value is a nearest representable one *)

Lemma nearest_even_closest (n d q j : Z) :
  0 < d -> Spec.nearest_even n d q -> Z.abs (n - q * d) <= Z.abs (n - j * d).
Proof.
  intros Hd [H _]. destruct (Z.eq_dec j q) as [->|Hne]; [zlia|].
  assert (d <= Z.abs ((q - j) * d)).
  { rewrite Z.abs_mul, (Z.abs_eq d) by zlia.
    assert (1 <= Z.abs (q - j)) by zlia. znia. }
  replace (n - j * d) with ((n - q * d) + (q - j) * d) by zlia. zlia.
Qed.

(** The rounded number of units, in canonical form. *)
Lemma round_units_canonical (N D : Z) :
  0 <= N -> 0 < D ->
  exists M k, round_units N D = M * 2 ^ k
    /\ 0 <= M < 2 ^ 53 /\ 0 <= k /\ (0 < k -> 2 ^ 52 <= M).
Proof.
  intros HN HD. unfold round_units.
  pose proof (Z.div_mod N D ltac:(zlia)) as Hdm.
  pose proof (Z.mod_pos_bound N D HD) as Hr.
  assert (Hq : 0 <= N / D) by (apply Z.div_pos; zlia).
  set (q := N / D) in *. set (k := Z.max 0 (Zdigits2 q - 53)).
  assert (Pk : 0 < 2 ^ k) by (apply pow2_pos; zlia).
  set (g := div_half_even N (D * 2 ^ k)).
  assert (Hg0 : 0 <= g) by (apply div_half_even_ge; [znia | zlia]).
  assert (Hg53 : g <= 2 ^ 53).
  { apply div_half_even_le; [znia|].
    destruct (Z.eq_dec q 0) as [Hz|Hnz].
    - assert (N < D) by znia. assert (0 < 2 ^ 53) by (apply pow2_pos; zlia). znia.
    - destruct (Zdigits2_bounds q ltac:(zlia)) as [_ U].
      assert (2 ^ Zdigits2 q <= 2 ^ (53 + k)) by (apply Z.pow_le_mono_r; zlia).
      rewrite Z.pow_add_r in H by zlia.
      assert (N < (q + 1) * D) by zlia.
      assert ((q + 1) * D <= 2 ^ 53 * 2 ^ k * D) by (apply Z.mul_le_mono_nonneg_r; zlia).
      zlia. }
  assert (Hg52 : 0 < k -> 2 ^ 52 <= g).
  { intros Hk. assert (Hq0 : 0 < q).
    { destruct (Z.eq_dec q 0) as [Hz|]; [|zlia]. unfold k in Hk. rewrite Hz in Hk.
      cbn [Zdigits2] in Hk. zlia. }
    destruct (Zdigits2_bounds q Hq0) as [L _].
    apply div_half_even_ge; [znia|].
    replace (2 ^ 52 * (D * 2 ^ k)) with (2 ^ 52 * 2 ^ k * D) by zlia.
    rewrite <- Z.pow_add_r by zlia. replace (52 + k) with (Zdigits2 q - 1) by zlia.
    assert (2 ^ (Zdigits2 q - 1) * D <= q * D) by (apply Z.mul_le_mono_nonneg_r; zlia).
    zlia. }
  destruct (Z.eq_dec g (2 ^ 53)) as [E|NE].
  - exists (2 ^ 52), (k + 1). rewrite E. split.
    + rewrite <- !Z.pow_add_r by zlia. f_equal. zlia.
    + split; [split; [apply Z.pow_nonneg; zlia | apply Z.pow_lt_mono_r; zlia]|].
      split; [zlia|]. intros _. zlia.
  - exists g, k. split; [reflexivity|]. split; [zlia|]. split; [zlia | assumption].
Qed.

(** No representable number of units is nearer to the fraction than the
    rounded one. *)
Lemma round_units_nearest (N D Ma ka : Z) :
  0 <= N -> 0 < D -> 0 <= Ma < 2 ^ 53 -> 0 <= ka ->
  Z.abs (N - round_units N D * D) <= Z.abs (N - Ma * 2 ^ ka * D).
Proof.
  intros HN HD HM Hka. unfold round_units.
  pose proof (Z.div_mod N D ltac:(zlia)) as Hdm.
  pose proof (Z.mod_pos_bound N D HD) as Hr.
  assert (Hq : 0 <= N / D) by (apply Z.div_pos; zlia).
  set (q := N / D) in *. set (k := Z.max 0 (Zdigits2 q - 53)).
  assert (Pk : 0 < 2 ^ k) by (apply pow2_pos; zlia).
  assert (Pka : 0 < 2 ^ ka) by (apply pow2_pos; zlia).
  pose proof (div_half_even_nearest N (D * 2 ^ k) ltac:(znia)) as Hne.
  set (g := div_half_even N (D * 2 ^ k)) in *.
  assert (Cl : forall j, Z.abs (N - g * 2 ^ k * D) <= Z.abs (N - j * 2 ^ k * D)).
  { intros j. pose proof (nearest_even_closest N (D * 2 ^ k) g j ltac:(znia) Hne) as H.
    replace (g * 2 ^ k * D) with (g * (D * 2 ^ k)) by zlia.
    replace (j * 2 ^ k * D) with (j * (D * 2 ^ k)) by zlia. assumption. }
  destruct (Z_le_gt_dec k ka) as [Hle|Hgt].
  - replace (Ma * 2 ^ ka * D) with (Ma * 2 ^ (ka - k) * 2 ^ k * D).
    + apply Cl.
    + rewrite <- (Z.mul_assoc Ma), <- Z.pow_add_r by zlia. do 3 f_equal. zlia.
  - assert (Hq0 : 0 < q).
    { destruct (Z.eq_dec q 0) as [Hz|]; [|zlia]. unfold k in Hgt. rewrite Hz in Hgt.
      cbn [Zdigits2] in Hgt. zlia. }
    destruct (Zdigits2_bounds q Hq0) as [L _].
    assert (LP : 2 ^ (k + 52) <= q) by (replace (k + 52) with (Zdigits2 q - 1) by zlia; assumption).
    assert (UA : Ma * 2 ^ ka < 2 ^ (k + 52)).
    { assert (2 ^ (53 + ka) <= 2 ^ (k + 52)) by (apply Z.pow_le_mono_r; zlia).
      rewrite Z.pow_add_r in H by zlia. znia. }
    specialize (Cl (2 ^ 52)). rewrite <- Z.pow_add_r in Cl by zlia.
    replace (52 + k) with (k + 52) in Cl by zlia.
    assert (2 ^ (k + 52) * D <= q * D) by (apply Z.mul_le_mono_nonneg_r; zlia).
    assert (Ma * 2 ^ ka * D < 2 ^ (k + 52) * D) by (apply Z.mul_lt_mono_pos_r; zlia).
    zlia.
Qed.

End Nearest.

(** ** The value of a float and of the results of the operations *)

Module Values.
Import B64 Units Rounding FloatFacts Nearest.
Local Open Scope Z_scope.

Lemma xval_bounds (x : spec_float) :
  valid_binary x = true -> - 2 ^ 2100 <= xval x <= 2 ^ 2100.
Proof.
  intros Hv.
  assert (B : 2 ^ 2098 < 2 ^ 2100) by (apply Z.pow_lt_mono_r; zlia).
  destruct x as [s|[]| |[] m e]; cbn [xval zval]; try zlia;
    cbn [valid_binary] in Hv; apply bounded_64 in Hv;
    pose proof (zval_bounded m e Hv);
    pose proof (zval_finite_pos m e (proj2 (canonical64_digits _ _ (proj1 Hv)))); zlia.
Qed.

Lemma xval_finite_bounds (x : spec_float) :
  valid_binary x = true -> SFfinite x -> - 2 ^ 2098 < xval x < 2 ^ 2098.
Proof.
  intros Hv Hf.
  assert (B : 0 < 2 ^ 2098) by (apply pow2_pos; zlia).
  destruct x as [s|[]| |[] m e]; cbn [SFfinite] in Hf; try contradiction;
    cbn [xval zval]; try zlia;
    cbn [valid_binary] in Hv; apply bounded_64 in Hv;
    pose proof (zval_bounded m e Hv);
    pose proof (zval_finite_pos m e (proj2 (canonical64_digits _ _ (proj1 Hv)))); zlia.
Qed.

Lemma xval_finite (x : spec_float) : SFfinite x -> xval x = zval x.
Proof. destruct x as [s|[]| |[] m e]; cbn; try contradiction; reflexivity. Qed.

Lemma SFlt_not_le (x y : spec_float) :
  x <> S754_nan -> y <> S754_nan -> (SFltb y x = true <-> ~ SFle x y).
Proof.
  intros Hx Hy. split.
  - intros H L. apply SFle_not_lt in L. congruence.
  - intros H. destruct (SFltb y x) eqn:E; [reflexivity|].
    exfalso. apply H. apply SFle_total; assumption.
Qed.

(** ** Order of floats by value *)

Lemma leb_fval (x y : float) :
  ~ is_NaN x -> ~ is_NaN y -> ((x <=? y)%float = true <-> fval x <= fval y).
Proof.
  intros Hx Hy. rewrite leb_SFle. apply SFle_xval; auto using Prim2SF_valid.
Qed.

Lemma ltb_fval (x y : float) :
  ~ is_NaN x -> ~ is_NaN y -> ((x <? y)%float = true <-> fval x < fval y).
Proof.
  intros Hx Hy. rewrite ltb_spec.
  rewrite (SFlt_not_le (Prim2SF y) (Prim2SF x)) by assumption.
  rewrite (SFle_xval (Prim2SF y) (Prim2SF x)) by auto using Prim2SF_valid.
  unfold fval. zlia.
Qed.

Lemma ltb_false_fval (x y : float) :
  ~ is_NaN x -> ~ is_NaN y -> ((x <? y)%float = false <-> fval y <= fval x).
Proof.
  intros Hx Hy. pose proof (ltb_fval x y Hx Hy) as H.
  destruct (x <? y)%float; split; intros; try reflexivity; try discriminate; try zlia.
Qed.

Lemma leb_not_nan (x y : float) : (x <=? y)%float = true -> ~ is_NaN x /\ ~ is_NaN y.
Proof.
  intros H. split; [apply (leb_not_nan_l x y H) | apply (leb_not_nan_r x y H)].
Qed.

Lemma leb_le (x y : float) :
  (x <=? y)%float = true -> ~ is_NaN x /\ ~ is_NaN y /\ fval x <= fval y.
Proof.
  intros H. destruct (leb_not_nan x y H) as [Hx Hy].
  repeat split; try assumption. apply leb_fval; assumption.
Qed.

Lemma finite_not_nan (x : float) : finite x -> ~ is_NaN x.
Proof. unfold finite, is_NaN. intros H E. rewrite E in H. exact H. Qed.

Lemma fval_bounds (x : float) : - 2 ^ 2100 <= fval x <= 2 ^ 2100.
Proof. apply xval_bounds, Prim2SF_valid. Qed.

Lemma fval_finite_bounds (x : float) : finite x -> - 2 ^ 2098 < fval x < 2 ^ 2098.
Proof. apply xval_finite_bounds, Prim2SF_valid. Qed.

Lemma finite_of_bounds (x : float) :
  ~ is_NaN x -> - 2 ^ 2100 < fval x < 2 ^ 2100 -> finite x.
Proof.
  unfold is_NaN, finite, fval. destruct (Prim2SF x) as [s|[]| |s m e]; cbn; try zlia; auto.
Qed.

(** ** Rounded values *)

Lemma rnd_mono N1 D1 N2 D2 :
  0 < D1 -> 0 < D2 -> N1 * D2 <= N2 * D1 -> rnd N1 D1 <= rnd N2 D2.
Proof. apply SFround_mono. Qed.

Lemma rnd_0 D : rnd 0 D = 0.
Proof. reflexivity. Qed.

Lemma rnd_exact (x : float) : finite x -> rnd (fval x) 1 = fval x.
Proof.
  intros H. unfold rnd, fval. rewrite (xval_finite _ H).
  rewrite SFround_exact; [apply xval_finite, H | apply Prim2SF_valid | exact H].
Qed.

Lemma SFround_overflow N D :
  0 < D -> 2 ^ 2098 * D <= N -> SFround N D = S754_infinity false.
Proof.
  intros HD H. assert (P : 0 < 2 ^ 2098) by (apply pow2_pos; zlia).
  rewrite SFround_pos by znia.
  assert (L : 2 ^ 2098 <= round_units N D).
  { rewrite <- (round_units_representable (2 ^ 52) 2046) at 1;
      [|split; [zlia | apply Z.pow_lt_mono_r; zlia] | zlia | zlia].
    rewrite <- Z.pow_add_r by zlia. change (52 + 2046) with 2098.
    apply round_units_mono; zlia. }
  destruct (SF_of_units_pos false (round_units N D) ltac:(zlia)) as (m & _ & -> & _).
  pose proof (Zdigits2_ge_pow _ 2098 L ltac:(zlia)).
  destruct (Z.leb_spec (Z.max 0 (Zdigits2 (round_units N D) - 53)) 2045); [zlia | reflexivity].
Qed.

Lemma rnd_opp N D : 0 < D -> rnd (- N) D = - rnd N D.
Proof.
  intros HD. unfold rnd. destruct N as [|p|p]; cbn [Z.opp SFround]; [reflexivity | |].
  - change (- Z.neg p) with (Zpos p). apply xval_SF_of_units_neg.
    apply round_units_nonneg; zlia.
  - rewrite xval_SF_of_units_neg by (apply round_units_nonneg; zlia). zlia.
Qed.

Lemma rnd_overflow N D : 0 < D -> 2 ^ 2098 * D <= N -> rnd N D = 2 ^ 2100.
Proof. intros HD H. unfold rnd. rewrite SFround_overflow by assumption. reflexivity. Qed.

Lemma rnd_underflow N D : 0 < D -> N <= - (2 ^ 2098 * D) -> rnd N D = - 2 ^ 2100.
Proof.
  intros HD H. replace N with (- - N) by zlia. rewrite rnd_opp by assumption.
  rewrite rnd_overflow by zlia. reflexivity.
Qed.

Lemma SF_of_units_overflow (s : bool) (U : Z) :
  2 ^ 2098 <= U -> SF_of_units s U = S754_infinity s.
Proof.
  intros L. assert (P : 0 < 2 ^ 2098) by (apply pow2_pos; zlia).
  destruct (SF_of_units_pos s U ltac:(zlia)) as (m & _ & -> & _).
  pose proof (Zdigits2_ge_pow _ 2098 L ltac:(zlia)).
  destruct (Z.leb_spec (Z.max 0 (Zdigits2 U - 53)) 2045); [zlia | reflexivity].
Qed.

Lemma round_units_overflow N D :
  0 < D -> 2 ^ 2098 * D <= N -> 2 ^ 2098 <= round_units N D.
Proof.
  intros HD H. assert (P : 0 < 2 ^ 2098) by (apply pow2_pos; zlia).
  rewrite <- (round_units_representable (2 ^ 52) 2046) at 1;
    [|split; [zlia | apply Z.pow_lt_mono_r; zlia] | zlia | zlia].
  rewrite <- Z.pow_add_r by zlia. change (52 + 2046) with 2098.
  apply round_units_mono; zlia.
Qed.

Lemma SFround_underflow N D :
  0 < D -> N <= - (2 ^ 2098 * D) -> SFround N D = S754_infinity true.
Proof.
  intros HD H. assert (P : 0 < 2 ^ 2098) by (apply pow2_pos; zlia).
  rewrite SFround_neg by znia.
  apply SF_of_units_overflow, round_units_overflow; zlia.
Qed.

Lemma zval_bounds (x : spec_float) :
  valid_binary x = true -> - 2 ^ 2098 < zval x < 2 ^ 2098.
Proof.
  intros Hv. assert (B : 0 < 2 ^ 2098) by (apply pow2_pos; zlia).
  destruct x as [s|s| |[] m e]; cbn [zval]; try zlia;
    cbn [valid_binary] in Hv; apply bounded_64 in Hv;
    pose proof (zval_bounded m e Hv);
    pose proof (zval_finite_pos m e (proj2 (canonical64_digits _ _ (proj1 Hv)))); zlia.
Qed.

Lemma pow_2100 : 2 ^ 2100 = 4 * 2 ^ 2098.
Proof. change 2100 with (2 + 2098). rewrite Z.pow_add_r by zlia. reflexivity. Qed.

(** ** Addition and subtraction *)

Lemma xval_SFadd (x y : spec_float) :
  valid_binary x = true -> valid_binary y = true ->
  SFadd prec emax x y <> S754_nan ->
  xval (SFadd prec emax x y) = xval (SFround (xval x + xval y) 1).
Proof.
  intros Vx Vy Hn.
  pose proof (zval_bounds x Vx) as Bx. pose proof (zval_bounds y Vy) as By.
  pose proof pow_2100 as E4. assert (P : 0 < 2 ^ 2098) by (apply pow2_pos; zlia).
  destruct x as [sx|sx| |sx mx ex], y as [sy|sy| |sy my ey];
    try (exfalso; apply Hn; reflexivity).
  - destruct sx, sy; reflexivity.
  - destruct sy; cbn [SFadd xval zval]; rewrite Z.add_0_l;
      [rewrite SFround_underflow by zlia | rewrite SFround_overflow by zlia]; reflexivity.
  - change (SFadd prec emax (S754_zero sx) (S754_finite sy my ey)) with (S754_finite sy my ey).
    change (xval (S754_zero sx)) with 0. rewrite Z.add_0_l.
    rewrite xval_finite by exact I. symmetry. rewrite SFround_exact by (assumption || exact I).
    apply xval_finite. exact I.
  - destruct sx; cbn [SFadd xval zval]; rewrite Z.add_0_r;
      [rewrite SFround_underflow by zlia | rewrite SFround_overflow by zlia]; reflexivity.
  - destruct sx, sy; cbn [SFadd] in *; try (exfalso; apply Hn; reflexivity); cbn [xval zval];
      [rewrite SFround_underflow by zlia | rewrite SFround_overflow by zlia]; reflexivity.
  - destruct sx; cbn [SFadd xval];
      [rewrite SFround_underflow by zlia | rewrite SFround_overflow by zlia]; reflexivity.
  - change (SFadd prec emax (S754_finite sx mx ex) (S754_zero sy)) with (S754_finite sx mx ex).
    change (xval (S754_zero sy)) with 0. rewrite Z.add_0_r.
    rewrite xval_finite by exact I. symmetry. rewrite SFround_exact by (assumption || exact I).
    apply xval_finite. exact I.
  - destruct sy; cbn [SFadd xval];
      [rewrite SFround_underflow by zlia | rewrite SFround_overflow by zlia]; reflexivity.
  - cbn [valid_binary] in Vx, Vy. apply bounded_64 in Vx, Vy.
    rewrite SFadd_finite_round
      by (apply (canonical64_digits mx), Vx || apply (canonical64_digits my), Vy).
    rewrite (xval_finite (S754_finite sx mx ex)), (xval_finite (S754_finite sy my ey)) by exact I.
    reflexivity.
Qed.

Lemma xval_SFsub (x y : spec_float) :
  valid_binary x = true -> valid_binary y = true ->
  SFsub prec emax x y <> S754_nan ->
  xval (SFsub prec emax x y) = xval (SFround (xval x - xval y) 1).
Proof.
  intros Vx Vy Hn.
  pose proof (zval_bounds x Vx) as Bx. pose proof (zval_bounds y Vy) as By.
  pose proof pow_2100 as E4. assert (P : 0 < 2 ^ 2098) by (apply pow2_pos; zlia).
  destruct x as [sx|sx| |sx mx ex], y as [sy|sy| |sy my ey];
    try (exfalso; apply Hn; reflexivity).
  - destruct sx, sy; reflexivity.
  - destruct sy; cbn [SFsub xval zval negb];
      [rewrite SFround_overflow by zlia | rewrite SFround_underflow by zlia]; reflexivity.
  - change (SFsub prec emax (S754_zero sx) (S754_finite sy my ey))
      with (S754_finite (negb sy) my ey).
    change (xval (S754_zero sx)) with 0. rewrite Z.sub_0_l.
    rewrite (xval_finite (S754_finite sy my ey)) by exact I.
    replace (- zval (S754_finite sy my ey)) with (zval (S754_finite (negb sy) my ey))
      by (destruct sy; cbn [zval negb]; zlia).
    symmetry. rewrite SFround_exact; [apply xval_finite; exact I | | exact I].
    exact Vy.
  - destruct sx; cbn [SFsub xval zval];
      [rewrite SFround_underflow by zlia | rewrite SFround_overflow by zlia]; reflexivity.
  - destruct sx, sy; cbn [SFsub] in *; try (exfalso; apply Hn; reflexivity); cbn [xval zval];
      [rewrite SFround_underflow by zlia | rewrite SFround_overflow by zlia]; reflexivity.
  - destruct sx; cbn [SFsub xval];
      [rewrite SFround_underflow by zlia | rewrite SFround_overflow by zlia]; reflexivity.
  - change (SFsub prec emax (S754_finite sx mx ex) (S754_zero sy)) with (S754_finite sx mx ex).
    change (xval (S754_zero sy)) with 0. rewrite Z.sub_0_r.
    rewrite xval_finite by exact I. symmetry. rewrite SFround_exact by (assumption || exact I).
    apply xval_finite. exact I.
  - destruct sy; cbn [SFsub xval negb];
      [rewrite SFround_overflow by zlia | rewrite SFround_underflow by zlia]; reflexivity.
  - cbn [valid_binary] in Vx, Vy. apply bounded_64 in Vx, Vy.
    rewrite SFsub_finite_round
      by (apply (canonical64_digits mx), Vx || apply (canonical64_digits my), Vy).
    rewrite (xval_finite (S754_finite sx mx ex)), (xval_finite (S754_finite sy my ey)) by exact I.
    reflexivity.
Qed.

Lemma fval_add (a b : float) :
  ~ is_NaN (a + b)%float -> fval (a + b)%float = rnd (fval a + fval b) 1.
Proof.
  unfold is_NaN, fval, rnd. rewrite add_spec.
  apply xval_SFadd; apply Prim2SF_valid.
Qed.

Lemma fval_sub (a b : float) :
  ~ is_NaN (a - b)%float -> fval (a - b)%float = rnd (fval a - fval b) 1.
Proof.
  unfold is_NaN, fval, rnd. rewrite sub_spec.
  apply xval_SFsub; apply Prim2SF_valid.
Qed.

(** ** Multiplication *)

Lemma xval_SFmul (x y : spec_float) :
  valid_binary x = true -> valid_binary y = true -> SFfinite x -> SFfinite y ->
  SFmul prec emax x y <> S754_nan
  /\ xval (SFmul prec emax x y) = xval (SFround (zval x * zval y) (2 ^ 1074)).
Proof.
  intros Vx Vy Fx Fy.
  destruct x as [sx|sx| |sx mx ex], y as [sy|sy| |sy my ey]; cbn [SFfinite] in *;
    try contradiction.
  - split; [discriminate | reflexivity].
  - split; [discriminate | reflexivity].
  - split; [discriminate|]. cbn [SFmul zval]. rewrite Z.mul_0_r. reflexivity.
  - cbn [valid_binary] in Vx, Vy. apply bounded_64 in Vx, Vy.
    rewrite SFmul_finite_round by (apply Vx || apply Vy).
    pose proof (zval_finite_pos mx ex (proj2 (canonical64_digits _ _ (proj1 Vx)))) as Px.
    pose proof (zval_finite_pos my ey (proj2 (canonical64_digits _ _ (proj1 Vy)))) as Py.
    set (A := Zpos mx * 2 ^ (ex + 1074)) in *. set (B := Zpos my * 2 ^ (ey + 1074)) in *.
    assert (PD : 0 < 2 ^ 1074) by (apply pow2_pos; zlia).
    assert (PAB : 0 < A * B) by znia.
    split.
    + apply (signed_not_nan (xorb sx sy)), SF_of_units_signed, round_units_nonneg; zlia.
    + destruct sx, sy; cbn [xorb zval]; fold A B.
      * replace (- A * - B) with (A * B) by zlia. rewrite SFround_pos by zlia. reflexivity.
      * replace (- A * B) with (- (A * B)) by zlia. rewrite SFround_neg by zlia.
        rewrite Z.opp_involutive. reflexivity.
      * replace (A * - B) with (- (A * B)) by zlia. rewrite SFround_neg by zlia.
        rewrite Z.opp_involutive. reflexivity.
      * rewrite SFround_pos by zlia. reflexivity.
Qed.

Lemma fval_mul (a b : float) :
  finite a -> finite b ->
  ~ is_NaN (a * b)%float /\ fval (a * b)%float = rnd (fval a * fval b) (2 ^ 1074).
Proof.
  unfold finite, is_NaN, fval, rnd. intros Fa Fb. rewrite mul_spec.
  rewrite (xval_finite _ Fa), (xval_finite _ Fb).
  apply xval_SFmul; auto using Prim2SF_valid.
Qed.

(** ** Halving *)

Lemma xval_SFdiv_two (x : spec_float) :
  valid_binary x = true -> x <> S754_nan ->
  SFdiv prec emax x SFtwo <> S754_nan
  /\ xval (SFdiv prec emax x SFtwo) = xval (SFround (xval x * 2 ^ 1074) (2 ^ 1075)).
Proof.
  intros Vx Hn. unfold SFtwo.
  pose proof pow_2100 as E4. assert (P : 0 < 2 ^ 2098) by (apply pow2_pos; zlia).
  assert (PD : 0 < 2 ^ 1075) by (apply pow2_pos; zlia).
  assert (E1 : 2 ^ 1075 = 2 * 2 ^ 1074)
    by (change 1075 with (1 + 1074); rewrite Z.pow_add_r by zlia; reflexivity).
  assert (P1 : 0 < 2 ^ 1074) by (apply pow2_pos; zlia).
  destruct x as [sx|sx| |sx mx ex]; try congruence.
  - split; [discriminate | reflexivity].
  - split; [discriminate|]. destruct sx; cbn [SFdiv xorb xval].
    + rewrite SFround_underflow; [reflexivity | zlia | znia].
    + rewrite SFround_overflow; [reflexivity | zlia | znia].
  - cbn [valid_binary] in Vx. apply bounded_64 in Vx.
    rewrite SFdiv_finite_round by (apply (canonical64_digits mx), Vx || zlia).
    pose proof (zval_finite_pos mx ex (proj2 (canonical64_digits _ _ (proj1 Vx)))) as Px.
    set (A := Zpos mx * 2 ^ (ex + 1074)) in *.
    replace (Zpos 4503599627370496 * 2 ^ (-51 + 1074)) with (2 ^ 1075).
    rewrite xorb_false_r. split.
    + apply (signed_not_nan sx), SF_of_units_signed, round_units_nonneg; znia.
    + destruct sx; cbn [xval zval]; fold A.
      * replace (- A * 2 ^ 1074) with (- (A * 2 ^ 1074)) by zlia.
        rewrite SFround_neg by znia. rewrite Z.opp_involutive. reflexivity.
      * rewrite SFround_pos by znia. reflexivity.
Qed.

Lemma fval_div_two (a : float) :
  ~ is_NaN a ->
  ~ is_NaN (a / 2)%float /\ fval (a / 2)%float = rnd (fval a * 2 ^ 1074) (2 ^ 1075).
Proof.
  unfold is_NaN, fval, rnd. intros Ha. rewrite div_spec.
  change (Prim2SF 2) with SFtwo.
  apply xval_SFdiv_two; auto using Prim2SF_valid.
Qed.

(** ** Absolute value, minimum and maximum *)

Lemma fval_abs (a : float) :
  fval (abs a) = Z.abs (fval a) /\ (is_NaN (abs a) <-> is_NaN a).
Proof.
  unfold fval, is_NaN. rewrite abs_spec.
  pose proof (Prim2SF_valid a) as Va.
  assert (P : 0 < 2 ^ 2100) by (apply pow2_pos; zlia).
  destruct (Prim2SF a) as [s|[]| |[] m e]; cbn [SFabs xval zval]; split;
    try (split; intros; congruence); zlia.
Qed.

Lemma fval_min (a b : float) :
  ~ is_NaN a -> ~ is_NaN b ->
  ~ is_NaN (Py.min a b) /\ fval (Py.min a b) = Z.min (fval a) (fval b).
Proof.
  intros Ha Hb. unfold Py.min.
  destruct (b <? a)%float eqn:E.
  - apply ltb_fval in E; try assumption. split; [assumption | zlia].
  - apply ltb_false_fval in E; try assumption. split; [assumption | zlia].
Qed.

Lemma fval_max (a b : float) :
  ~ is_NaN a -> ~ is_NaN b ->
  ~ is_NaN (Py.max a b) /\ fval (Py.max a b) = Z.max (fval a) (fval b).
Proof.
  intros Ha Hb. unfold Py.max.
  destruct (a <? b)%float eqn:E.
  - apply ltb_fval in E; try assumption. split; [assumption | zlia].
  - apply ltb_false_fval in E; try assumption. split; [assumption | zlia].
Qed.

(** ** Conversion of integers *)

Lemma fval_float_of_int (n : Z) (x : float) :
  float_of_int n = Return x -> finite x /\ fval x = rnd (n * 2 ^ 1074) 1.
Proof.
  intros H. destruct (float_of_int_SF n x H) as [E Hi].
  rewrite binary_normalize_round in E by zlia. change (0 + 1074) with 1074 in E.
  unfold finite, fval, rnd. rewrite E. split; [|reflexivity].
  pose proof (SFround_not_nan (n * 2 ^ 1074) 1 ltac:(zlia)) as Hn.
  rewrite <- E in *.
  destruct (Prim2SF x) as [s|s| |s m e]; cbn; try exact I; congruence.
Qed.

Lemma hundredths_units (m : positive) (e : Z) :
  -1074 <= e -> hundredths m e = hund (Zpos m * 2 ^ (e + 1074)).
Proof.
  intros He. unfold hundredths, hund.
  assert (P : 0 < 2 ^ 1074) by (apply pow2_pos; zlia).
  destruct e as [|p|p].
  - rewrite Z.pow_0_r, Z.mul_1_r. change (0 + 1074) with 1074.
    rewrite Z.mul_assoc, (Z.mul_comm 100). symmetry. apply div_half_even_exact. zlia.
  - rewrite Z.pow_add_r by zlia.
    replace (100 * (Zpos m * (2 ^ Zpos p * 2 ^ 1074)))
      with (Zpos m * 100 * 2 ^ Zpos p * 2 ^ 1074) by zlia.
    symmetry. apply div_half_even_exact. zlia.
  - assert (Hp : Zpos p <= 1074) by zlia.
    assert (E : 2 ^ 1074 = 2 ^ Zpos p * 2 ^ (Zneg p + 1074)).
    { rewrite <- Z.pow_add_r by zlia. f_equal. zlia. }
    rewrite E at 1.
    replace (100 * (Zpos m * 2 ^ (Zneg p + 1074)))
      with (Zpos m * 100 * 2 ^ (Zneg p + 1074)) by zlia.
    symmetry. apply div_half_even_scale; apply pow2_pos; zlia.
Qed.

Lemma hund_nonneg v : 0 <= v -> 0 <= hund v.
Proof.
  intros Hv. unfold hund. assert (P : 0 < 2 ^ 1074) by (apply pow2_pos; zlia).
  apply div_half_even_ge; zlia.
Qed.

Lemma hund_mono u v : u <= v -> hund u <= hund v.
Proof.
  intros H. unfold hund. assert (P : 0 < 2 ^ 1074) by (apply pow2_pos; zlia).
  apply div_half_even_mono; zlia.
Qed.

Lemma rnd_nonneg N D : 0 < D -> 0 <= N -> 0 <= rnd N D.
Proof. intros HD HN. rewrite <- (rnd_0 1). apply rnd_mono; zlia. Qed.

Lemma rnd_bounds N D : 0 < D -> - 2 ^ 2100 <= rnd N D <= 2 ^ 2100.
Proof. intros HD. apply xval_bounds, SFround_valid. assumption. Qed.

Lemma r2pos_nonneg v : 0 <= v -> 0 <= r2pos v.
Proof.
  intros Hv. unfold r2pos. assert (P : 0 < 2 ^ 1074) by (apply pow2_pos; zlia).
  pose proof (hund_nonneg v Hv). apply rnd_nonneg; znia.
Qed.

Lemma r2pos_mono u v : u <= v -> r2pos u <= r2pos v.
Proof.
  intros H. unfold r2pos. assert (P : 0 < 2 ^ 1074) by (apply pow2_pos; zlia).
  pose proof (hund_mono u v H). apply rnd_mono; zlia.
Qed.

Lemma r2val_mono u v :
  u <= v -> - 2 ^ 2100 <= u -> v <= 2 ^ 2100 -> r2val u <= r2val v.
Proof.
  intros H Hu Hv. unfold r2val.
  assert (P : 0 < 2 ^ 2100) by (apply pow2_pos; zlia).
  pose proof (rnd_bounds (hund u * 2 ^ 1074) 100 ltac:(zlia)) as B1. fold (r2pos u) in B1.
  pose proof (rnd_bounds (hund (- u) * 2 ^ 1074) 100 ltac:(zlia)) as B2. fold (r2pos (- u)) in B2.
  pose proof (rnd_bounds (hund v * 2 ^ 1074) 100 ltac:(zlia)) as B3. fold (r2pos v) in B3.
  pose proof (rnd_bounds (hund (- v) * 2 ^ 1074) 100 ltac:(zlia)) as B4. fold (r2pos (- v)) in B4.
  destruct (Z.ltb_spec (Z.abs u) (2 ^ 2100)), (Z.ltb_spec (Z.abs v) (2 ^ 2100)),
    (Z.ltb_spec u 0), (Z.ltb_spec v 0); try zlia.
  - pose proof (r2pos_mono (- v) (- u) ltac:(zlia)). zlia.
  - pose proof (r2pos_nonneg (- u) ltac:(zlia)). pose proof (r2pos_nonneg v ltac:(zlia)). zlia.
  - apply r2pos_mono. assumption.
Qed.

Lemma fval_round2 (x : float) :
  ~ is_NaN x -> ~ is_NaN (round2 x) /\ fval (round2 x) = r2val (fval x).
Proof.
  unfold is_NaN, fval, round2. intros Hn.
  pose proof (Prim2SF_valid x) as Vx.
  assert (P : 0 < 2 ^ 2100) by (apply pow2_pos; zlia).
  destruct (Prim2SF x) as [s|s| |s m e] eqn:E; try congruence.
  - rewrite E. split; [discriminate | reflexivity].
  - rewrite E. split; [discriminate|]. unfold r2val.
    destruct s; cbn [xval];
      [destruct (Z.ltb_spec (Z.abs (- 2 ^ 2100)) (2 ^ 2100))
      | destruct (Z.ltb_spec (Z.abs (2 ^ 2100)) (2 ^ 2100))]; try zlia; reflexivity.
  - cbn [valid_binary] in Vx. apply bounded_64 in Vx.
    pose proof (zval_finite_pos m e (proj2 (canonical64_digits _ _ (proj1 Vx)))) as PA.
    pose proof (zval_bounded m e Vx) as BA.
    assert (B : 2 ^ 2098 < 2 ^ 2100) by (apply Z.pow_lt_mono_r; zlia).
    rewrite hundredths_units by (apply (canonical64_digits m), Vx).
    set (A := Zpos m * 2 ^ (e + 1074)) in *.
    pose proof (hund_nonneg A ltac:(zlia)) as Hq.
    assert (V : xval (S754_finite s m e) = cond_Zopp s A) by (destruct s; reflexivity).
    rewrite V.
    assert (R : r2val (cond_Zopp s A) = cond_Zopp s (r2pos A)).
    { unfold r2val. destruct s; cbn [cond_Zopp].
      - destruct (Z.ltb_spec (Z.abs (- A)) (2 ^ 2100)), (Z.ltb_spec (- A) 0); try zlia.
        rewrite Z.opp_involutive. reflexivity.
      - destruct (Z.ltb_spec (Z.abs A) (2 ^ 2100)), (Z.ltb_spec A 0); zlia. }
    rewrite R. unfold r2pos.
    destruct (hund A) as [|h|h] eqn:Eh; try zlia.
    + cbn [float_of_hundredths]. rewrite Z.mul_0_l, rnd_0.
      destruct s; split; try discriminate; reflexivity.
    + rewrite Prim2SF_float_of_hundredths, SF_of_ratio_round.
      assert (P1 : 0 < 2 ^ 1074) by (apply pow2_pos; zlia).
      pose proof (round_units_nonneg (Zpos h * 2 ^ 1074) 100 ltac:(zlia) ltac:(zlia)) as HU.
      split; [apply (signed_not_nan s), SF_of_units_signed; assumption|].
      unfold rnd. rewrite SFround_pos by zlia.
      destruct s; cbn [cond_Zopp]; [apply xval_SF_of_units_neg; assumption | reflexivity].
Qed.

(** [round(x, 2)] keeps the order of floats. *)
Lemma round2_mono (x y : float) :
  (x <=? y)%float = true -> (round2 x <=? round2 y)%float = true.
Proof.
  intros H. apply leb_le in H. destruct H as (Hx & Hy & H).
  destruct (fval_round2 x Hx) as [Nx Ex]. destruct (fval_round2 y Hy) as [Ny Ey].
  apply leb_fval; try assumption. rewrite Ex, Ey.
  apply r2val_mono; [assumption | apply fval_bounds | apply fval_bounds].
Qed.

(** Rounding to hundredths undoes the conversion of hundredths to a float,
    for hundredths that come from a float. *)
Lemma hund_round_trip (Ma ka : Z) :
  0 <= Ma < 2 ^ 53 -> 0 <= ka ->
  let q := hund (Ma * 2 ^ ka) in
  hund (round_units (q * 2 ^ 1074) 100) = q.
Proof.
  intros HM Hka q. unfold hund at 1.
  assert (PD : 0 < 2 ^ 1074) by (apply pow2_pos; zlia).
  assert (Pka : 0 < 2 ^ ka) by (apply pow2_pos; zlia).
  pose proof (hund_nonneg (Ma * 2 ^ ka) ltac:(znia)) as Hq. fold q in Hq.
  pose proof (div_half_even_nearest (100 * (Ma * 2 ^ ka)) (2 ^ 1074) PD) as [A1 A2].
  fold (hund (Ma * 2 ^ ka)) in A1, A2. fold q in A1, A2.
  pose proof (round_units_nearest (q * 2 ^ 1074) 100 Ma ka ltac:(znia) ltac:(zlia) HM Hka) as Near.
  set (U := round_units (q * 2 ^ 1074) 100) in *.
  apply (nearest_even_unique (100 * U) (2 ^ 1074)); [assumption | apply div_half_even_nearest; assumption |].
  unfold Spec.nearest_even.
  assert (E1 : Z.abs (100 * U - q * 2 ^ 1074) = Z.abs (q * 2 ^ 1074 - U * 100)) by zlia.
  assert (E2 : Z.abs (100 * (Ma * 2 ^ ka) - q * 2 ^ 1074)
               = Z.abs (q * 2 ^ 1074 - Ma * 2 ^ ka * 100)) by zlia.
  split; [zlia|]. intros T. apply A2. zlia.
Qed.

End Values.

(** ** Order and NaN through the operations *)

Module Order.
Import B64 Units Rounding FloatFacts Nearest Values.
Local Open Scope float_scope.

(** ** NaN goes through every operation *)

Lemma add_nan_l (a b : float) : is_NaN a -> is_NaN (a + b).
Proof. unfold is_NaN. intros H. rewrite add_spec, H. reflexivity. Qed.

Lemma add_nan_r (a b : float) : is_NaN b -> is_NaN (a + b).
Proof. unfold is_NaN. intros H. rewrite add_spec, H. destruct (Prim2SF a); reflexivity. Qed.

Lemma sub_nan_l (a b : float) : is_NaN a -> is_NaN (a - b).
Proof. unfold is_NaN. intros H. rewrite sub_spec, H. reflexivity. Qed.

Lemma sub_nan_r (a b : float) : is_NaN b -> is_NaN (a - b).
Proof. unfold is_NaN. intros H. rewrite sub_spec, H. destruct (Prim2SF a); reflexivity. Qed.

Lemma mul_nan_l (a b : float) : is_NaN a -> is_NaN (a * b).
Proof. unfold is_NaN. intros H. rewrite mul_spec, H. reflexivity. Qed.

Lemma mul_nan_r (a b : float) : is_NaN b -> is_NaN (a * b).
Proof. unfold is_NaN. intros H. rewrite mul_spec, H. destruct (Prim2SF a); reflexivity. Qed.

Lemma div_nan_l (a b : float) : is_NaN a -> is_NaN (a / b).
Proof. unfold is_NaN. intros H. rewrite div_spec, H. reflexivity. Qed.

Lemma abs_nan (a : float) : is_NaN a -> is_NaN (abs a).
Proof. unfold is_NaN. intros H. rewrite abs_spec, H. reflexivity. Qed.

Lemma ltb_nan_l (a b : float) : is_NaN a -> (a <? b) = false.
Proof. unfold is_NaN. intros H. rewrite ltb_spec, H. reflexivity. Qed.

Lemma ltb_nan_r (a b : float) : is_NaN b -> (a <? b) = false.
Proof.
  unfold is_NaN. intros H. rewrite ltb_spec, H. unfold SFltb.
  destruct (Prim2SF a); reflexivity.
Qed.

Lemma min_nan_l (a b : float) : is_NaN a -> Py.min a b = a.
Proof. intros H. unfold Py.min. rewrite ltb_nan_r by assumption. reflexivity. Qed.

Lemma max_nan_l (a b : float) : is_NaN a -> Py.max a b = a.
Proof. intros H. unfold Py.max. rewrite ltb_nan_l by assumption. reflexivity. Qed.

Lemma round2_nan (x : float) : is_NaN x -> round2 x = x.
Proof. unfold is_NaN, round2. intros ->. reflexivity. Qed.

(** ** Floats of the same value *)

Lemma canonical64_value_inj (m1 : positive) (e1 : Z) (m2 : positive) (e2 : Z) :
  canonical64 m1 e1 -> canonical64 m2 e2 ->
  (Zpos m1 * 2 ^ (e1 + 1074) = Zpos m2 * 2 ^ (e2 + 1074))%Z ->
  m1 = m2 /\ e1 = e2.
Proof.
  intros C1 C2 E.
  pose proof (canonical64_digits _ _ C1) as [_ L1].
  pose proof (canonical64_digits _ _ C2) as [_ L2].
  assert (e1 = e2).
  { destruct (Z.lt_trichotomy e1 e2) as [L | [Eq | G]]; [exfalso | assumption | exfalso].
    - pose proof (canonical64_exp_lt _ _ _ _ C1 C2 L) as V.
      apply (vlt_base _ _ _ _ (-1074)%Z) in V; [|zlia|zlia]. unfold scale in V.
      replace (e1 - -1074)%Z with (e1 + 1074)%Z in V by zlia.
      replace (e2 - -1074)%Z with (e2 + 1074)%Z in V by zlia. zlia.
    - pose proof (canonical64_exp_lt _ _ _ _ C2 C1 ltac:(zlia)) as V.
      apply (vlt_base _ _ _ _ (-1074)%Z) in V; [|zlia|zlia]. unfold scale in V.
      replace (e1 - -1074)%Z with (e1 + 1074)%Z in V by zlia.
      replace (e2 - -1074)%Z with (e2 + 1074)%Z in V by zlia. zlia. }
  subst e2. split; [|reflexivity].
  assert (P : (0 < 2 ^ (e1 + 1074))%Z) by (apply pow2_pos; zlia).
  apply Z.mul_cancel_r in E; [|zlia]. congruence.
Qed.

(** Two floats of the same value that is not zero are the same float. *)
Lemma fval_inj (x y : float) :
  ~ is_NaN x -> ~ is_NaN y -> fval x = fval y -> fval x <> 0%Z -> x = y.
Proof.
  unfold is_NaN, fval. intros Hx Hy E Hz. apply Prim2SF_inj.
  pose proof (Prim2SF_valid x) as Vx. pose proof (Prim2SF_valid y) as Vy.
  pose proof (xval_finite_bounds (Prim2SF x) Vx) as Bx.
  pose proof (xval_finite_bounds (Prim2SF y) Vy) as By.
  assert (B : (2 ^ 2098 < 2 ^ 2100)%Z) by (apply Z.pow_lt_mono_r; zlia).
  assert (P : (0 < 2 ^ 2098)%Z) by (apply pow2_pos; zlia).
  destruct (Prim2SF x) as [sx|[]| |sx mx ex], (Prim2SF y) as [sy|[]| |sy my ey];
    try congruence; cbn [xval zval SFfinite] in *;
    try (specialize (Bx I)); try (specialize (By I)); try zlia.
  cbn [valid_binary] in Vx, Vy. apply bounded_64 in Vx, Vy.
  pose proof (zval_finite_pos mx ex (proj2 (canonical64_digits _ _ (proj1 Vx)))).
  pose proof (zval_finite_pos my ey (proj2 (canonical64_digits _ _ (proj1 Vy)))).
  destruct sx, sy; try zlia.
  - destruct (canonical64_value_inj mx ex my ey (proj1 Vx) (proj1 Vy) ltac:(zlia)) as [-> ->].
    reflexivity.
  - destruct (canonical64_value_inj mx ex my ey (proj1 Vx) (proj1 Vy) ltac:(zlia)) as [-> ->].
    reflexivity.
Qed.

(** ** Neighbouring floats *)

(** Nothing lies between a positive float and the one of the next mantissa. *)
Lemma SFlt_succ (m : positive) (e : Z) (y : spec_float) :
  SFltb (S754_finite false m e) y = true ->
  SFleb (S754_finite false (m + 1) e) y = true.
Proof.
  unfold SFltb, SFleb. destruct y as [s|[]| |[] my ey]; cbn [SFcompare]; try discriminate;
    try reflexivity.
  destruct (Z.compare_spec e ey); try discriminate; try reflexivity.
  change (Pos.compare_cont Eq m my) with (Pos.compare m my).
  change (Pos.compare_cont Eq (m + 1) my) with (Pos.compare (m + 1) my).
  destruct (Pos.compare_spec m my) as [|L|]; try discriminate. intros _.
  destruct (Pos.compare_spec (m + 1) my); try reflexivity. zlia.
Qed.

Lemma SFlt_pred (m : positive) (e : Z) (y : spec_float) :
  SFltb y (S754_finite false (m + 1) e) = true ->
  SFleb y (S754_finite false m e) = true.
Proof.
  unfold SFltb, SFleb. destruct y as [s|[]| |[] my ey]; cbn [SFcompare]; try discriminate;
    try reflexivity.
  destruct (Z.compare_spec ey e); try discriminate; try reflexivity.
  change (Pos.compare_cont Eq my (m + 1)) with (Pos.compare my (m + 1)).
  change (Pos.compare_cont Eq my m) with (Pos.compare my m).
  destruct (Pos.compare_spec my (m + 1)) as [|L|]; try discriminate. intros _.
  destruct (Pos.compare_spec my m); try reflexivity. zlia.
Qed.

(** ** Scores and weights by value *)

Lemma fval_0 : fval 0 = 0%Z.
Proof. reflexivity. Qed.

Lemma fval_1 : fval 1 = (2 ^ 1074)%Z.
Proof. vm_compute. reflexivity. Qed.

Lemma in_unit_fval (x : float) :
  Spec.in_unit x <-> ~ is_NaN x /\ (0 <= fval x <= 2 ^ 1074)%Z.
Proof.
  unfold Spec.in_unit. split.
  - intros [H0 H1]. apply leb_le in H0, H1. rewrite fval_0 in H0. rewrite fval_1 in H1.
    tauto.
  - intros (Hn & H0 & H1). split; (apply leb_fval; [try assumption; discriminate.. |]).
    + rewrite fval_0. assumption.
    + rewrite fval_1. assumption.
Qed.

Lemma nonneg_real_fval (x : float) :
  Spec.nonneg_real x <-> finite x /\ (0 <= fval x)%Z.
Proof.
  unfold Spec.nonneg_real. split.
  - intros [H0 Hi]. apply leb_le in H0. destruct H0 as (_ & Hn & H0). rewrite fval_0 in H0.
    apply ltb_fval in Hi; [|assumption|discriminate].
    change (fval infinity) with (2 ^ 2100)%Z in Hi.
    split; [|assumption]. apply finite_of_bounds; [assumption|].
    assert (0 < 2 ^ 2100)%Z by (apply pow2_pos; zlia). zlia.
  - intros [Hf H0]. pose proof (fval_finite_bounds x Hf) as B.
    assert (2 ^ 2098 < 2 ^ 2100)%Z by (apply Z.pow_lt_mono_r; zlia).
    split.
    + apply leb_fval; [discriminate | apply finite_not_nan, Hf | rewrite fval_0; assumption].
    + apply ltb_fval; [apply finite_not_nan, Hf | discriminate |].
      change (fval infinity) with (2 ^ 2100)%Z. zlia.
Qed.

Lemma in_unit_finite (x : float) : Spec.in_unit x -> finite x.
Proof.
  intros H. apply in_unit_fval in H. destruct H as (Hn & H0 & H1).
  apply finite_of_bounds; [assumption|].
  assert (0 < 2 ^ 1074)%Z by (apply pow2_pos; zlia).
  assert (2 ^ 1074 < 2 ^ 2100)%Z by (apply Z.pow_lt_mono_r; zlia). zlia.
Qed.


(** ** Sums and differences that are not NaN *)

Lemma add_not_nan (a b : float) :
  ~ is_NaN a -> ~ is_NaN b ->
  (- 2 ^ 2100 < fval a /\ - 2 ^ 2100 < fval b)%Z \/ (fval a < 2 ^ 2100 /\ fval b < 2 ^ 2100)%Z ->
  ~ is_NaN (a + b).
Proof.
  unfold is_NaN, fval. rewrite add_spec.
  pose proof (Prim2SF_valid a) as Va. pose proof (Prim2SF_valid b) as Vb.
  destruct (Prim2SF a) as [sa|[]| |sa ma ea], (Prim2SF b) as [sb|[]| |sb mb eb];
    intros Ha Hb H; try congruence; cbn [xval] in H; try zlia;
    try (destruct sa; discriminate); try (destruct sb; discriminate);
    try (destruct sa, sb; discriminate); try discriminate.
  cbn [valid_binary] in Va, Vb. apply bounded_64 in Va, Vb.
  rewrite SFadd_finite_round
    by (apply (canonical64_digits ma), Va || apply (canonical64_digits mb), Vb).
  apply SFround_not_nan. zlia.
Qed.

Lemma sub_not_nan (a b : float) :
  ~ is_NaN a -> ~ is_NaN b ->
  (- 2 ^ 2100 < fval a /\ fval b < 2 ^ 2100)%Z \/ (fval a < 2 ^ 2100 /\ - 2 ^ 2100 < fval b)%Z ->
  ~ is_NaN (a - b).
Proof.
  unfold is_NaN, fval. rewrite sub_spec.
  pose proof (Prim2SF_valid a) as Va. pose proof (Prim2SF_valid b) as Vb.
  destruct (Prim2SF a) as [sa|[]| |sa ma ea], (Prim2SF b) as [sb|[]| |sb mb eb];
    intros Ha Hb H; try congruence; cbn [xval] in H; try zlia;
    try (destruct sa; discriminate); try (destruct sb; discriminate);
    try (destruct sa, sb; discriminate); try discriminate.
  cbn [valid_binary] in Va, Vb. apply bounded_64 in Va, Vb.
  rewrite SFsub_finite_round
    by (apply (canonical64_digits ma), Va || apply (canonical64_digits mb), Vb).
  apply SFround_not_nan. zlia.
Qed.

Lemma finite_bounds_lt (x : float) :
  finite x -> (- 2 ^ 2100 < fval x < 2 ^ 2100)%Z.
Proof.
  intros H. pose proof (fval_finite_bounds x H).
  assert (2 ^ 2098 < 2 ^ 2100)%Z by (apply Z.pow_lt_mono_r; zlia). zlia.
Qed.

(** The value of a sum, a difference, a half whose operands are ordered. *)

Lemma add_mono (a b a' b' : float) :
  ~ is_NaN (a + b) -> ~ is_NaN (a' + b') ->
  (fval a <= fval a')%Z -> (fval b <= fval b')%Z ->
  (fval (a + b) <= fval (a' + b'))%Z.
Proof.
  intros H1 H2 Ha Hb. rewrite !fval_add by assumption. apply rnd_mono; zlia.
Qed.

Lemma sub_mono (a b a' b' : float) :
  ~ is_NaN (a - b) -> ~ is_NaN (a' - b') ->
  (fval a <= fval a')%Z -> (fval b' <= fval b)%Z ->
  (fval (a - b) <= fval (a' - b'))%Z.
Proof.
  intros H1 H2 Ha Hb. rewrite !fval_sub by assumption. apply rnd_mono; zlia.
Qed.

Lemma div_two_mono (a a' : float) :
  ~ is_NaN a -> ~ is_NaN a' -> (fval a <= fval a')%Z ->
  (fval (a / 2) <= fval (a' / 2))%Z.
Proof.
  intros H1 H2 Ha.
  rewrite (proj2 (fval_div_two a H1)), (proj2 (fval_div_two a' H2)).
  assert (0 < 2 ^ 1074)%Z by (apply pow2_pos; zlia).
  assert (0 < 2 ^ 1075)%Z by (apply pow2_pos; zlia).
  apply rnd_mono; [zlia | zlia |].
  apply Z.mul_le_mono_nonneg_r; [zlia|]. apply Z.mul_le_mono_nonneg_r; zlia.
Qed.

Lemma mul_mono_nonneg (a b a' b' : float) :
  finite a -> finite b -> finite a' -> finite b' ->
  (0 <= fval a <= fval a')%Z -> (0 <= fval b <= fval b')%Z ->
  (0 <= fval (a * b) <= fval (a' * b'))%Z.
Proof.
  intros Fa Fb Fa' Fb' Ha Hb.
  rewrite (proj2 (fval_mul a b Fa Fb)), (proj2 (fval_mul a' b' Fa' Fb')).
  assert (0 < 2 ^ 1074)%Z by (apply pow2_pos; zlia).
  split.
  - apply rnd_nonneg; [zlia|]. apply Z.mul_nonneg_nonneg; zlia.
  - apply rnd_mono; try zlia. apply Z.mul_le_mono_nonneg_r; [zlia|].
    apply Z.mul_le_mono_nonneg; zlia.
Qed.

(** A product by a constant that is not negative keeps the order, whatever
    the sign of the other factor. *)
Lemma mul_mono_l (a a' c : float) :
  finite a -> finite a' -> finite c -> (0 <= fval c)%Z -> (fval a <= fval a')%Z ->
  (fval (a * c) <= fval (a' * c))%Z.
Proof.
  intros Fa Fa' Fc Hc Ha.
  rewrite (proj2 (fval_mul a c Fa Fc)), (proj2 (fval_mul a' c Fa' Fc)).
  assert (0 < 2 ^ 1074)%Z by (apply pow2_pos; zlia).
  apply rnd_mono; try zlia. apply Z.mul_le_mono_nonneg_r; [zlia|].
  apply Z.mul_le_mono_nonneg_r; zlia.
Qed.

Lemma mul_one_r_value (w : float) : finite w -> fval (w * 1) = fval w.
Proof.
  intros Fw. rewrite (proj2 (fval_mul w 1 Fw I)). rewrite fval_1.
  rewrite <- (rnd_exact w Fw) at 2.
  assert (0 < 2 ^ 1074)%Z by (apply pow2_pos; zlia).
  apply Z.le_antisymm; apply rnd_mono; zlia.
Qed.

Lemma add_finite_not_nan (a b : float) : finite a -> finite b -> ~ is_NaN (a + b).
Proof.
  intros Fa Fb. apply add_not_nan; try (apply finite_not_nan; assumption).
  pose proof (finite_bounds_lt a Fa). pose proof (finite_bounds_lt b Fb). left. zlia.
Qed.

Lemma add_finite_r_not_nan (a b : float) : ~ is_NaN a -> finite b -> ~ is_NaN (a + b).
Proof.
  intros Na Fb. apply add_not_nan; [assumption | apply finite_not_nan, Fb |].
  pose proof (fval_bounds a). pose proof (finite_bounds_lt b Fb).
  destruct (Z.eq_dec (fval a) (- 2 ^ 2100)); [right | left]; zlia.
Qed.

Lemma sub_finite_r_not_nan (a b : float) : ~ is_NaN a -> finite b -> ~ is_NaN (a - b).
Proof.
  intros Na Fb. apply sub_not_nan; [assumption | apply finite_not_nan, Fb |].
  pose proof (fval_bounds a). pose proof (finite_bounds_lt b Fb).
  destruct (Z.eq_dec (fval a) (- 2 ^ 2100)); [right | left]; zlia.
Qed.

Lemma half_sum_mono (a c a' c' : float) :
  finite a -> finite c -> finite a' -> finite c' ->
  (fval a <= fval a')%Z -> (fval c <= fval c')%Z ->
  ~ is_NaN ((a + c) / 2) /\ ~ is_NaN ((a' + c') / 2)
  /\ (fval ((a + c) / 2) <= fval ((a' + c') / 2))%Z.
Proof.
  intros Fa Fc Fa' Fc' La Lc.
  pose proof (add_finite_not_nan a c Fa Fc) as N.
  pose proof (add_finite_not_nan a' c' Fa' Fc') as N'.
  split; [apply fval_div_two, N|]. split; [apply fval_div_two, N'|].
  apply div_two_mono; try assumption. apply add_mono; assumption.
Qed.

Lemma sum_of_nonneg (a b : float) :
  ~ is_NaN a -> ~ is_NaN b -> (0 <= fval a)%Z -> (0 <= fval b)%Z ->
  ~ is_NaN (a + b) /\ (0 <= fval (a + b))%Z.
Proof.
  intros Na Nb Ha Hb.
  assert (P : (0 < 2 ^ 2100)%Z) by (apply pow2_pos; zlia).
  assert (N : ~ is_NaN (a + b)) by (apply add_not_nan; try assumption; left; zlia).
  split; [assumption|]. rewrite (fval_add a b N). apply rnd_nonneg; zlia.
Qed.

Lemma SFadd_comm (x y : spec_float) : SFadd prec emax x y = SFadd prec emax y x.
Proof.
  destruct x as [sx|sx| |sx mx ex], y as [sy|sy| |sy my ey]; try reflexivity;
    try (destruct sx, sy; reflexivity).
  unfold SFadd. rewrite (Z.min_comm ey ex), Z.add_comm. reflexivity.
Qed.

Lemma add_comm_float (a b : float) : a + b = b + a.
Proof. apply Prim2SF_inj. rewrite !add_spec. apply SFadd_comm. Qed.

(** [round(x, 2)] changes nothing on a float that it returned. *)
Lemma round2_idempotent (x : float) : round2 (round2 x) = round2 x.
Proof.
  remember (round2 x) as y eqn:Ey. unfold round2 in Ey.
  pose proof (Prim2SF_valid x) as Vx.
  destruct (Prim2SF x) as [s|s| |s m e] eqn:E;
    try (subst y; unfold round2; rewrite E; reflexivity).
  cbn [valid_binary] in Vx. apply bounded_64 in Vx.
  destruct (bounded64_units m e Vx) as (HM & Hk & _).
  rewrite hundredths_units in Ey by zlia.
  pose proof (hund_round_trip (Zpos m) (e + 1074) HM ltac:(zlia)) as RT. cbv zeta in RT.
  assert (PA : (0 < Zpos m * 2 ^ (e + 1074))%Z) by (apply zval_finite_pos; zlia).
  pose proof (hund_nonneg _ (Z.lt_le_incl _ _ PA)) as Hq.
  destruct (hund (Zpos m * 2 ^ (e + 1074))) as [|h|h] eqn:Eq; try zlia.
  - subst y. destruct s; reflexivity.
  - assert (PD : (0 < 2 ^ 1074)%Z) by (apply pow2_pos; zlia).
    pose proof (Prim2SF_float_of_hundredths s h) as Py. rewrite SF_of_ratio_round in Py.
    rewrite <- Ey in Py.
    set (U := round_units (Zpos h * 2 ^ 1074) 100) in *.
    destruct (round_units_canonical (Zpos h * 2 ^ 1074) 100 ltac:(zlia) ltac:(zlia))
      as (M & k & EU & HM' & Hk' & Hn').
    fold U in EU.
    assert (PU : (0 < U)%Z).
    { destruct (Z_lt_le_dec 0 U) as [|HU0]; [assumption|exfalso].
      pose proof (round_units_nonneg (Zpos h * 2 ^ 1074) 100 ltac:(zlia) ltac:(zlia)) as HU.
      fold U in HU. assert (EU0 : U = 0%Z) by zlia. rewrite EU0 in RT.
      vm_compute in RT. discriminate. }
    destruct (SF_of_units_pos s U PU) as (m' & Em' & ES & _).
    assert (Pk : (0 < 2 ^ k)%Z) by (apply pow2_pos; zlia).
    assert (HM0 : (0 < M)%Z) by znia.
    assert (Ek : Z.max 0 (Zdigits2 U - 53) = k).
    { rewrite EU, Zdigits2_mul_pow by zlia.
      assert (Hd : (Zdigits2 M <= 53)%Z) by (apply Zdigits2_lt_pow; zlia).
      assert (Hd' : (0 < k -> 53 <= Zdigits2 M)%Z).
      { intros H. change 53%Z with (52 + 1)%Z. apply Zdigits2_ge_pow; [auto | zlia]. }
      pose proof (Zdigits2_pos M HM0). zlia. }
    rewrite Ek in *. rewrite EU, Z.div_mul in Em' by zlia.
    rewrite ES in Py.
    unfold round2. rewrite Py.
    destruct (k <=? 2045)%Z; [|reflexivity].
    rewrite hundredths_units by zlia.
    replace (k - 1074 + 1074)%Z with k by zlia.
    rewrite <- Em', <- EU, RT. symmetry. exact Ey.
Qed.

End Order.

Import FloatFacts.

(** ** Sample scenarios

    The examples of the docstrings, evaluated.  These hold, the
    sub-scores compared at two decimals. *)
Example docstring_examples :
  compute_S 0.5 0.6 0 = Return 0.55
  /\ compute_S 1 1 10 = Return 1
  /\ round2 (compute_C 0.7 0.6 0) = 0.65
  /\ compute_C 1 1 0.2 = 0.8
  /\ compute_T 0 0 0.05 = Return 1
  /\ compute_T 30 0 0.05 = Return 0
  /\ calculate_VRS 0.8 0.7 0.9 default_w1 default_w2 default_w3 = Return 0.78
  /\ calculate_VRS 0.5 0.6 0.4 default_w1 default_w2 default_w3 = Return 0.52
  /\ calculate_VRS 1 1 1 0.33 0.33 0.34 = Return 1
  /\ calculate_VRS_from_raw 0.5 0.6 0 0.7 0.6 0 10 2
       default_relevance_decay default_w1 default_w2 default_w3 = Return 0.6
  /\ calculate_VRS 0.5 0.5 0.5 0.5 0.5 0.5 = Raise InvalidWeights.
Proof. repeat split; vm_compute; reflexivity. Qed.

(** These do not: the docstrings give 0.76, 0.65 and 0.79. *)
Example docstring_examples_off :
  compute_C 0.9 0.8 0.1 = 0.7500000000000001
  /\ compute_T 10 2 0.05 = Return 0.6
  /\ calculate_VRS_from_raw 0.8 0.9 5 0.9 0.8 0.1 0 0
       default_relevance_decay default_w1 default_w2 default_w3 = Return 0.88.
Proof. repeat split; vm_compute; reflexivity. Qed.

(** Ties go to the even hundredth; 2.675 is no tie, the float being
    slightly below it. *)
Example round2_ties :
  round2 0.125 = 0.12 /\ round2 0.375 = 0.38 /\ round2 (-0.125) = -0.12
  /\ round2 2.675 = 2.67.
Proof. repeat split; vm_compute; reflexivity. Qed.

(** The weight check compares computed values: with the weights 0.5, 0.5
    and 0.01 the computed sum minus 1.0 is just above 0.01 and the call
    is rejected; within the tolerance the score can pass 1.0. *)
Example weights_near_the_tolerance :
  0.5 + 0.5 + 0.01 - 1.0 = 0.010000000000000009
  /\ calculate_VRS 1 1 1 0.5 0.5 0.01 = Raise InvalidWeights
  /\ calculate_VRS 1 1 1 0.4 0.4 0.209 = Return 1.01.
Proof. repeat split; vm_compute; reflexivity. Qed.

(** ** The scoring functions against their specification *)

Lemma float_of_int_error (n : Z) (e : error) :
  float_of_int n = Raise e -> e = IntTooLarge.
Proof.
  unfold float_of_int.
  destruct (binary_normalize prec emax n 0 false); intros H; inversion H; reflexivity.
Qed.

Lemma int_mul_cases (n : Z) (c : float) :
  (exists x, float_of_int n = Return x /\ int_mul n c = Return (x * c))
  \/ (float_of_int n = Raise IntTooLarge /\ int_mul n c = Raise IntTooLarge).
Proof.
  unfold int_mul. destruct (float_of_int n) as [x|e] eqn:E; cbn [bind].
  - left. exists x. split; reflexivity.
  - right. rewrite (float_of_int_error n e E). split; reflexivity.
Qed.

Lemma returns_Return {A : Type} (c : result A) :
  returns c = true -> exists a, c = Return a.
Proof. destruct c as [a|e]; [exists a; reflexivity | discriminate]. Qed.

(** No sub-score is clamped on both sides: each of the three leaves the
    unit interval on an input outside the documented domains.  The final
    score is not clamped at all, and passes 1.0 even on sub-scores of 1.0
    when the weights sum to 1.009, within the tolerance. *)
Lemma scores_outside_unit_interval :
  (compute_S (-1) (-1) 0 = Return (-1) /\ ~ Spec.in_unit (-1))
  /\ (compute_C 2 2 0 = 2 /\ ~ Spec.in_unit 2)
  /\ (compute_T 0 (-100) 0.05 = Return (-4) /\ ~ Spec.in_unit (-4))
  /\ (calculate_VRS 2 2 2 0.4 0.4 0.2 = Return 2)
  /\ (calculate_VRS 1 1 1 0.4 0.4 0.209 = Return 1.01 /\ ~ Spec.in_unit 1.01).
Proof.
  repeat split; try (vm_compute; reflexivity);
    intros [H0 H1]; vm_compute in H0, H1; discriminate.
Qed.

(** C1 (as amended): for every input, [compute_S] and [compute_T] never
    return a value above 1.0 and [compute_C] never returns a value below
    0.0; a call of [compute_S] or [compute_T] that does not return ends
    with the interpreter's overflow error. *)
Theorem scores_clamped_on_one_side
    (credibility_score source_reputation : float) (verification_count : Z)
    (accuracy completeness bias_score : float)
    (age_days : float) (update_frequency : Z) (relevance_decay : float) :
  match compute_S credibility_score source_reputation verification_count with
  | Return v => (1 <? v) = false
  | Raise e => e = IntTooLarge
  end
  /\ (compute_C accuracy completeness bias_score <? 0) = false
  /\ match compute_T age_days update_frequency relevance_decay with
     | Return v => (1 <? v) = false
     | Raise e => e = IntTooLarge
     end.
Proof.
  split; [|split].
  - unfold compute_S.
    destruct (int_mul_cases verification_count 0.02) as [(x & _ & ->) | [_ ->]];
      cbn [bind]; [apply min_never_above | reflexivity].
  - unfold compute_C. apply max_never_below.
  - unfold compute_T.
    destruct (int_mul_cases update_frequency 0.05) as [(x & _ & ->) | [_ ->]];
      cbn [bind]; [apply min_never_above | reflexivity].
Qed.

(** A count that does not fit a float makes [compute_S] fail, with an
    error that is not InvalidWeights. *)
Lemma compute_S_overflow_error :
  compute_S 0.5 0.5 (2 ^ 1024) = Raise IntTooLarge /\ IntTooLarge <> InvalidWeights.
Proof. split; [vm_compute; reflexivity | discriminate]. Qed.

(** C2 (as amended): [calculate_VRS] fails, with InvalidWeights, exactly
    when the computed [|w1 + w2 + w3 - 1.0|] exceeds 0.01, and returns the
    rounded weighted sum otherwise, whatever S, C and T are.  It is the
    only error the module raises itself: [compute_C] always returns, and
    [compute_S], [compute_T] and with them [calculate_VRS_from_raw] fail
    only with the overflow error of an integer count that does not
    convert to a float. *)
Theorem weight_check_is_the_only_raise :
  (forall S C T w1 w2 w3,
      calculate_VRS S C T w1 w2 w3 =
        (if Spec.weights_rejected w1 w2 w3 then Raise InvalidWeights
         else Return (round2 (w1 * S + w2 * C + w3 * T)))
      /\ (calculate_VRS S C T w1 w2 w3 = Raise InvalidWeights
          <-> Spec.weights_rejected w1 w2 w3 = true))
  /\ (forall c r n,
        match compute_S c r n with
        | Return _ => returns (float_of_int n) = true
        | Raise e => e = IntTooLarge /\ returns (float_of_int n) = false
        end)
  /\ (forall age n decay,
        match compute_T age n decay with
        | Return _ => returns (float_of_int n) = true
        | Raise e => e = IntTooLarge /\ returns (float_of_int n) = false
        end)
  /\ (forall c r n a c' b age u decay w1 w2 w3,
        match calculate_VRS_from_raw c r n a c' b age u decay w1 w2 w3 with
        | Return _ => Spec.weights_rejected w1 w2 w3 = false
        | Raise InvalidWeights => Spec.weights_rejected w1 w2 w3 = true
        | Raise IntTooLarge =>
            returns (float_of_int n) = false \/ returns (float_of_int u) = false
        end).
Proof.
  assert (HS : forall c r n,
             match compute_S c r n with
             | Return _ => returns (float_of_int n) = true
             | Raise e => e = IntTooLarge /\ returns (float_of_int n) = false
             end).
  { intros c r n. unfold compute_S.
    destruct (int_mul_cases n 0.02) as [(x & E & ->) | [E ->]]; cbn [bind]; rewrite E;
      repeat split. }
  assert (HT : forall age n decay,
             match compute_T age n decay with
             | Return _ => returns (float_of_int n) = true
             | Raise e => e = IntTooLarge /\ returns (float_of_int n) = false
             end).
  { intros age n decay. unfold compute_T.
    destruct (int_mul_cases n 0.05) as [(x & E & ->) | [E ->]]; cbn [bind]; rewrite E;
      repeat split. }
  split; [|split; [exact HS | split; [exact HT|]]].
  - intros S C T w1 w2 w3. unfold calculate_VRS, Spec.weights_rejected.
    destruct (0.01 <? abs (w1 + w2 + w3 - 1)); split; try reflexivity;
      split; intros H; try reflexivity; discriminate.
  - intros c r n a c' b age u decay w1 w2 w3. unfold calculate_VRS_from_raw.
    specialize (HS c r n). specialize (HT age u decay).
    destruct (compute_S c r n) as [S|e]; cbn [bind].
    + destruct (compute_T age u decay) as [T|e]; cbn [bind].
      * unfold calculate_VRS, Spec.weights_rejected.
        destruct (0.01 <? abs (w1 + w2 + w3 - 1)); reflexivity.
      * destruct HT as [-> HT]. right. assumption.
    + destruct HS as [-> HS]. left. assumption.
Qed.

(** Weights whose exact sum is within 0.01 of 1 and which are rejected
    all the same.  The sums of 0.3, 0.3 and 0.41 and of 0.4, 0.4 and 0.19
    differ from 1 by less than a hundredth, and the sum of 0.5, 0.5 and
    0.01 by the float 0.01 exactly; the float additions round each sum away
    from 1, and the computed difference is above 0.01. *)
Lemma exact_sums_within_the_tolerance_rejected :
  ((100 * Z.abs (Spec.units 0.3 + Spec.units 0.3 + Spec.units 0.41 - Spec.units 1)
    <= Spec.units 1)%Z
   /\ calculate_VRS 0.8 0.7 0.9 0.3 0.3 0.41 = Raise InvalidWeights)
  /\ ((100 * Z.abs (Spec.units 0.4 + Spec.units 0.4 + Spec.units 0.19 - Spec.units 1)
       <= Spec.units 1)%Z
      /\ calculate_VRS 0.8 0.7 0.9 0.4 0.4 0.19 = Raise InvalidWeights)
  /\ ((Z.abs (Spec.units 0.5 + Spec.units 0.5 + Spec.units 0.01 - Spec.units 1)
       <= Spec.units 0.01)%Z
      /\ calculate_VRS 0.8 0.7 0.9 0.5 0.5 0.01 = Raise InvalidWeights).
Proof. repeat split; vm_compute; try reflexivity; discriminate. Qed.

(** C3 (as amended): when the difference [|w1 + w2 + w3 - 1.0|], computed
    in binary64 as the code computes it, does not exceed 0.01,
    [calculate_VRS] returns the weighted sum rounded to two decimal
    places, half to even, and nothing else is done to it. *)
Theorem weighted_sum_rounded_half_even (S C T w1 w2 w3 : float) :
  (abs (w1 + w2 + w3 - 1.0) <=? 0.01) = true ->
  exists r,
    calculate_VRS S C T w1 w2 w3 = Return r
    /\ Spec.rounded_2dp (w1 * S + w2 * C + w3 * T) r.
Proof.
  intros H. exists (round2 (w1 * S + w2 * C + w3 * T)).
  split; [|apply round2_rounded].
  unfold calculate_VRS. apply leb_SFle in H. apply Rounding.SFle_not_lt in H.
  rewrite ltb_spec, H. reflexivity.
Qed.

Lemma weighted_sum_rounded_half_even_witness :
  (abs (0.4 + 0.4 + 0.2 - 1.0) <=? 0.01) = true
  /\ exists r,
       calculate_VRS 0.8 0.7 0.9 0.4 0.4 0.2 = Return r
       /\ Spec.rounded_2dp (0.4 * 0.8 + 0.4 * 0.7 + 0.2 * 0.9) r.
Proof.
  split; [reflexivity|].
  apply (weighted_sum_rounded_half_even 0.8 0.7 0.9 0.4 0.4 0.2). reflexivity.
Defined.



(** C5: on the input of the scenario the code returns
    0.9500000000000001, which is 0.95 at two decimals and not the 0.88
    of the docstring. *)
Example compute_S_on_the_scenario :
  compute_S 0.8 0.9 5 = Return 0.9500000000000001
  /\ round2 0.9500000000000001 = 0.95
  /\ (0.88 <? 0.95) = true.
Proof. repeat split; vm_compute; reflexivity. Qed.

(** An update count for which [compute_T] returns no value: 2^1024 and
    its opposite do not convert to a float, and neither does
    2^1024 - 2^970, half way between the largest float and 2^1024.  The
    integer just below converts, and the score is the capped bonus. *)
Lemma compute_T_returns_nothing_for_a_large_count :
  compute_T 30 (2 ^ 1024) 0.05 = Raise IntTooLarge
  /\ compute_T 30 (- 2 ^ 1024) 0.05 = Raise IntTooLarge
  /\ compute_T 30 (2 ^ 1024 - 2 ^ 970) 0.05 = Raise IntTooLarge
  /\ compute_T 30 (2 ^ 1024 - 2 ^ 970 - 1) 0.05 = Return 0.15.
Proof. repeat split; vm_compute; reflexivity. Qed.

(** C6 (as amended): for every age and decay rate, [compute_T] returns
    the linear decay [max(1.0 - age_days*relevance_decay, 0.0)] plus the
    update bonus [min(update_frequency*0.05, 0.15)], clamped to at most
    1.0, whenever the update count converts to a float, as every count
    from [- max_float_int] to [max_float_int] does; for a count that does
    not convert, as every count of magnitude 2^1024 or more, it returns
    no value and ends with the overflow error.  With no updates, an age
    that has reached [1/relevance_decay], the exact product of age and
    decay rate being 1 (or more), makes the decay term, and the score,
    exactly 0. *)
Theorem compute_T_linear_decay :
  (forall age_days update_frequency relevance_decay,
      compute_T age_days update_frequency relevance_decay
      = match float_of_int update_frequency with
        | Return count =>
            Return (Py.min (Py.max (1.0 - age_days * relevance_decay) 0.0
                            + Py.min (count * 0.05) 0.15) 1.0)
        | Raise _ => Raise IntTooLarge
        end)
  /\ (forall age_days update_frequency relevance_decay,
        (- max_float_int <= update_frequency <= max_float_int)%Z ->
        returns (compute_T age_days update_frequency relevance_decay) = true)
  /\ (forall age_days update_frequency relevance_decay,
        (2 ^ 1024 <= Z.abs update_frequency)%Z ->
        compute_T age_days update_frequency relevance_decay = Raise IntTooLarge)
  /\ (forall age_days relevance_decay,
        (Spec.units 1 * Spec.units 1
         <= Spec.units age_days * Spec.units relevance_decay)%Z ->
        (Py.max (1.0 - age_days * relevance_decay) 0.0 =? 0) = true
        /\ compute_T age_days 0 relevance_decay = Return 0).
Proof.
  split; [|split; [|split]].
  - intros age_days update_frequency relevance_decay. unfold compute_T, int_mul.
    destruct (float_of_int update_frequency) as [count|e] eqn:E; cbn [bind];
      [reflexivity | rewrite (float_of_int_error update_frequency e E); reflexivity].
  - intros age_days update_frequency relevance_decay H.
    apply float_of_int_returns in H. unfold compute_T, int_mul.
    destruct (float_of_int update_frequency) as [count|e]; [reflexivity | discriminate].
  - intros age_days update_frequency relevance_decay H.
    unfold compute_T, int_mul. rewrite (float_of_int_overflows update_frequency H).
    reflexivity.
  - intros age_days relevance_decay H.
    apply product_ge_one in H. apply one_minus_nonpos in H. split.
    + unfold Py.max. destruct (1 - age_days * relevance_decay <? 0) eqn:E; [reflexivity|].
      rewrite FloatAxioms.eqb_spec. rewrite leb_SFle in H. rewrite ltb_spec in E.
      change (Prim2SF 0) with B64.SFzero in *.
      destruct (Prim2SF (1 - age_days * relevance_decay)) as [[]|[]| |[] m e];
        try discriminate; reflexivity.
    + change (compute_T age_days 0 relevance_decay)
        with (Return (Py.min (Py.max (1 - age_days * relevance_decay) 0 + 0) 1)).
      rewrite clamp_of_nonpos by assumption. reflexivity.
Qed.

Lemma compute_T_linear_decay_witness :
  (Spec.units 1 * Spec.units 1 <= Spec.units 20 * Spec.units 0.05)%Z
  /\ compute_T 20 0 0.05 = Return 0.
Proof.
  assert (H : (Spec.units 1 * Spec.units 1 <= Spec.units 20 * Spec.units 0.05)%Z)
    by (vm_compute; discriminate).
  split; [exact H|].
  exact (proj2 (proj2 (proj2 (proj2 compute_T_linear_decay)) 20 0.05 H)).
Defined.

(** The quotient [1 / 49] computed in binary64 is below the real number
    1/49: that age has not reached the zero of the decay, and the score
    is the small remainder. *)
Example compute_T_just_before_full_decay :
  (Spec.units (1 / 49) * Spec.units 49 < Spec.units 1 * Spec.units 1)%Z
  /\ (1 / 49) * 49 = 0.9999999999999999
  /\ compute_T (1 / 49) 0 49 = Return 1.1102230246251565e-16.
Proof. repeat split; vm_compute; reflexivity. Qed.

(** A verification count for which [compute_S] returns no value: 2^1024
    and its opposite do not convert to a float.  The integer
    2^1024 - 2^970 - 1 still converts, and there the score is the one of
    five verifications. *)
Lemma compute_S_returns_nothing_for_a_large_count :
  compute_S 0.8 0.9 (2 ^ 1024) = Raise IntTooLarge
  /\ compute_S 0.8 0.9 (- 2 ^ 1024) = Raise IntTooLarge
  /\ compute_S 0.8 0.9 (2 ^ 1024 - 2 ^ 970 - 1) = Return 0.9500000000000001.
Proof. repeat split; vm_compute; reflexivity. Qed.

(** C7 (as amended): for every pair of ratings, [compute_S] returns the
    average of the two ratings plus the verification bonus
    [min(verification_count * 0.02, 0.1)], clamped to at most 1.0,
    whenever the count converts to a float, as every count from
    [- max_float_int] to [max_float_int] does; for a count that does not
    convert, as every count of magnitude 2^1024 or more, it returns no
    value and ends with the overflow error.  The bonus never exceeds 0.1
    and nothing clamps the score from below. *)
Theorem compute_S_formula :
  (forall credibility_score source_reputation verification_count,
      compute_S credibility_score source_reputation verification_count
      = match float_of_int verification_count with
        | Return count =>
            Return (Py.min ((credibility_score + source_reputation) / 2
                            + Py.min (count * 0.02) 0.1) 1.0)
        | Raise _ => Raise IntTooLarge
        end)
  /\ (forall credibility_score source_reputation verification_count,
        (- max_float_int <= verification_count <= max_float_int)%Z ->
        returns (compute_S credibility_score source_reputation verification_count) = true)
  /\ (forall credibility_score source_reputation verification_count,
        (2 ^ 1024 <= Z.abs verification_count)%Z ->
        compute_S credibility_score source_reputation verification_count
        = Raise IntTooLarge)
  /\ (forall scaled, (0.1 <? Py.min scaled 0.1) = false)
  /\ (forall sum, (1 <? Py.min sum 1.0) = false)
  /\ compute_S (-1) (-1) 0 = Return (-1).
Proof.
  split; [|split; [|split]].
  - intros credibility_score source_reputation verification_count.
    unfold compute_S, int_mul.
    destruct (float_of_int verification_count) as [count|e] eqn:E; cbn [bind];
      [reflexivity | rewrite (float_of_int_error verification_count e E); reflexivity].
  - intros credibility_score source_reputation verification_count H.
    apply float_of_int_returns in H. unfold compute_S, int_mul.
    destruct (float_of_int verification_count) as [count|e]; [reflexivity | discriminate].
  - intros credibility_score source_reputation verification_count H.
    unfold compute_S, int_mul. rewrite (float_of_int_overflows verification_count H).
    reflexivity.
  - split; [intros; apply min_never_above|].
    split; [intros; apply min_never_above|]. vm_compute. reflexivity.
Qed.

Lemma compute_S_formula_witness :
  (- max_float_int <= 5 <= max_float_int)%Z
  /\ returns (compute_S 0.8 0.9 5) = true.
Proof.
  assert (H : (- max_float_int <= 5 <= max_float_int)%Z)
    by (split; vm_compute; discriminate).
  split; [exact H|].
  exact (proj1 (proj2 compute_S_formula) 0.8 0.9 5%Z H).
Defined.

(** C8: [compute_C] is the average of the two ratings minus the bias
    penalty, clamped to a minimum of 0.0; nothing clamps it from above. *)
Theorem compute_C_formula :
  (forall accuracy completeness bias_score,
      compute_C accuracy completeness bias_score
      = Spec.compute_C_spec accuracy completeness bias_score)
  /\ (forall difference, (Py.max difference 0.0 <? 0) = false)
  /\ compute_C 2 2 0 = 2.
Proof.
  split; [reflexivity|]. split; [intros; apply max_never_below|].
  vm_compute. reflexivity.
Qed.

(** An update count within the documented domain, an integer that is not
    negative, for which [compute_T] returns no value. *)
Lemma compute_T_count_too_large :
  Spec.nonneg_real 1 /\ (0 <= 2 ^ 1024)%Z /\ Spec.nonneg_real 0.05
  /\ compute_T 1 (2 ^ 1024) 0.05 = Raise IntTooLarge.
Proof.
  split; [split; reflexivity|]. split; [apply Z.pow_nonneg; lia|].
  split; [split; reflexivity|]. vm_compute. reflexivity.
Qed.

(** C9 (as amended): on inputs within the documented domains whose integer
    counts convert to a float, each of [compute_S], [compute_C] and
    [compute_T] returns a value in [0.0, 1.0]. *)
Theorem sub_scores_in_unit_interval
    (credibility_score source_reputation : float) (verification_count : Z)
    (accuracy completeness bias_score : float)
    (age_days : float) (update_frequency : Z) (relevance_decay : float) :
  Spec.in_unit credibility_score -> Spec.in_unit source_reputation ->
  (0 <= verification_count)%Z -> returns (float_of_int verification_count) = true ->
  Spec.in_unit accuracy -> Spec.in_unit completeness -> Spec.in_unit bias_score ->
  Spec.nonneg_real age_days -> (0 <= update_frequency)%Z ->
  returns (float_of_int update_frequency) = true -> Spec.nonneg_real relevance_decay ->
  (exists v, compute_S credibility_score source_reputation verification_count = Return v
             /\ Spec.in_unit v)
  /\ Spec.in_unit (compute_C accuracy completeness bias_score)
  /\ (exists v, compute_T age_days update_frequency relevance_decay = Return v
                /\ Spec.in_unit v).
Proof.
  intros Hc Hr Hn Rn Ha Hk Hb Hage Hu Ru Hd.
  apply returns_Return in Rn, Ru. destruct Rn as [x Ex], Ru as [y Ey].
  split; [|split].
  - unfold compute_S, int_mul. rewrite Ex. cbn [bind].
    eexists. split; [reflexivity|].
    apply min_one_in_unit, add_nonneg.
    + apply half_sum_in_unit; assumption.
    + apply min_nonneg; [|reflexivity].
      apply (scaled_nonneg verification_count); [assumption | assumption |].
      split; reflexivity.
  - unfold compute_C. apply max_zero_in_unit, sub_le_one; [|assumption].
    apply half_sum_in_unit; assumption.
  - unfold compute_T, int_mul. rewrite Ey. cbn [bind].
    eexists. split; [reflexivity|].
    apply min_one_in_unit, add_nonneg.
    + apply max_zero_nonneg, one_minus_not_nan, mul_nonneg; assumption.
    + apply min_nonneg; [|reflexivity].
      apply (scaled_nonneg update_frequency); [assumption | assumption |].
      split; reflexivity.
Qed.

Lemma sub_scores_in_unit_interval_witness :
  (exists v, compute_S 0.8 0.9 5 = Return v /\ Spec.in_unit v)
  /\ Spec.in_unit (compute_C 0.9 0.8 0.1)
  /\ (exists v, compute_T 10 2 0.05 = Return v /\ Spec.in_unit v).
Proof.
  apply (sub_scores_in_unit_interval 0.8 0.9 5 0.9 0.8 0.1 10 2 0.05);
    try (split; reflexivity); try reflexivity; lia.
Defined.

(** A count of at least five for which [compute_S] returns no value,
    while it returns 0.6 for five verifications. *)
Lemma compute_S_count_too_large :
  (5 <= 2 ^ 2000)%Z
  /\ compute_S 0.5 0.5 (2 ^ 2000) = Raise IntTooLarge
  /\ compute_S 0.5 0.5 5 = Return 0.6.
Proof.
  split; [|split; vm_compute; reflexivity].
  apply Z.le_trans with (2 ^ 3)%Z; [vm_compute; discriminate|].
  apply Z.pow_le_mono_r; lia.
Qed.

(** C10 (as amended): for every count of at least five that converts to a
    float, [compute_S] returns what it returns for five verifications:
    the bonus has reached its cap of 0.1. *)
Theorem verification_bonus_saturates
    (credibility_score source_reputation : float) (verification_count : Z) :
  (5 <= verification_count)%Z ->
  returns (float_of_int verification_count) = true ->
  compute_S credibility_score source_reputation verification_count
  = compute_S credibility_score source_reputation 5.
Proof.
  intros Hn Rn. apply returns_Return in Rn. destruct Rn as [x Ex].
  unfold compute_S, int_mul. rewrite Ex.
  change (float_of_int 5) with (Return 5). cbn [bind].
  rewrite (bonus_saturates verification_count x Hn Ex).
  change (Py.min (5 * 0.02) 0.1) with 0.1. reflexivity.
Qed.

Lemma verification_bonus_saturates_witness :
  compute_S 0.8 0.9 8 = compute_S 0.8 0.9 5.
Proof.
  apply (verification_bonus_saturates 0.8 0.9 8); [lia | reflexivity].
Defined.

(** ** Further properties of the scoring functions *)

(** *** The weight check *)

Import B64 Rounding Units Nearest Values Order.

Lemma sub_one_not_nan (W : float) : ~ is_NaN W -> ~ is_NaN (W - 1).
Proof.
  intros H. apply sub_not_nan; [assumption | discriminate |].
  pose proof (fval_bounds W). pose proof (finite_bounds_lt 1 I).
  destruct (Z.eq_dec (fval W) (- 2 ^ 2100)); [right | left]; zlia.
Qed.

Lemma above_greatest_accepted (W : float) :
  ~ is_NaN W -> (fval greatest_accepted_sum < fval W)%Z -> (fval 1.01 <= fval W)%Z.
Proof.
  intros HW H. apply ltb_fval in H; [|discriminate|assumption].
  rewrite ltb_spec in H.
  change (Prim2SF greatest_accepted_sum) with (S754_finite false 4548635623644200 (-52)) in H.
  apply SFlt_succ in H.
  change (S754_finite false (4548635623644200 + 1) (-52)) with (Prim2SF 1.01) in H.
  rewrite <- leb_spec in H. apply leb_fval in H; [assumption | discriminate | assumption].
Qed.

Lemma below_least_accepted (W : float) :
  ~ is_NaN W -> (fval W < fval least_accepted_sum)%Z -> (fval W <= fval 0.99)%Z.
Proof.
  intros HW H. apply ltb_fval in H; [|assumption|discriminate].
  rewrite ltb_spec in H.
  change (Prim2SF least_accepted_sum) with (S754_finite false (8917127262193582 + 1) (-53)) in H.
  apply SFlt_pred in H.
  change (S754_finite false 8917127262193582 (-53)) with (Prim2SF 0.99) in H.
  rewrite <- leb_spec in H. apply leb_fval in H; [assumption | assumption | discriminate].
Qed.

(** The difference of a constant and 1.0, by value. *)
Ltac const_minus_one c :=
  let H := fresh "E" in
  assert (H : fval (c - 1) = rnd (fval c - 2 ^ 1074) 1)
    by (rewrite <- fval_1; apply fval_sub; vm_compute; discriminate).

Lemma weights_accepted_by_value (w1 w2 w3 : float) :
  ~ is_NaN (w1 + w2 + w3) ->
  (Spec.weights_rejected w1 w2 w3 = false
   <-> (fval least_accepted_sum <= fval (w1 + w2 + w3) <= fval greatest_accepted_sum)%Z).
Proof.
  unfold Spec.weights_rejected. set (W := w1 + w2 + w3). intros HW.
  pose proof (sub_one_not_nan W HW) as Hd.
  destruct (fval_abs (W - 1)) as [Ea Na].
  assert (Hna : ~ is_NaN (abs (W - 1))) by (rewrite Na; assumption).
  rewrite (ltb_false_fval 0.01 (abs (W - 1))) by (assumption || discriminate).
  rewrite Ea, (fval_sub W 1 Hd), fval_1.
  const_minus_one 1.01. const_minus_one 0.99.
  const_minus_one least_accepted_sum. const_minus_one greatest_accepted_sum.
  assert (C1 : (fval 0.01 < fval (1.01 - 1))%Z)
    by (apply ltb_fval; [discriminate | vm_compute; discriminate | reflexivity]).
  assert (C2 : (fval (0.99 - 1) < - fval 0.01)%Z).
  { change (- fval 0.01)%Z with (fval (-0.01)).
    apply ltb_fval; [vm_compute; discriminate | discriminate | reflexivity]. }
  assert (C3 : (- fval 0.01 <= fval (least_accepted_sum - 1))%Z).
  { change (- fval 0.01)%Z with (fval (-0.01)).
    apply leb_fval; [discriminate | vm_compute; discriminate | reflexivity]. }
  assert (C4 : (fval (greatest_accepted_sum - 1) <= fval 0.01)%Z)
    by (apply leb_fval; [vm_compute; discriminate | discriminate | reflexivity]).
  split.
  - intros H. split.
    + destruct (Z_le_gt_dec (fval least_accepted_sum) (fval W)) as [|G]; [assumption|exfalso].
      pose proof (below_least_accepted W HW ltac:(zlia)) as L.
      pose proof (rnd_mono (fval W - 2 ^ 1074) 1 (fval 0.99 - 2 ^ 1074) 1
                    ltac:(zlia) ltac:(zlia) ltac:(zlia)). zlia.
    + destruct (Z_le_gt_dec (fval W) (fval greatest_accepted_sum)) as [|G]; [assumption|exfalso].
      pose proof (above_greatest_accepted W HW ltac:(zlia)) as L.
      pose proof (rnd_mono (fval 1.01 - 2 ^ 1074) 1 (fval W - 2 ^ 1074) 1
                    ltac:(zlia) ltac:(zlia) ltac:(zlia)). zlia.
  - intros [L U].
    pose proof (rnd_mono (fval least_accepted_sum - 2 ^ 1074) 1 (fval W - 2 ^ 1074) 1
                  ltac:(zlia) ltac:(zlia) ltac:(zlia)).
    pose proof (rnd_mono (fval W - 2 ^ 1074) 1 (fval greatest_accepted_sum - 2 ^ 1074) 1
                  ltac:(zlia) ltac:(zlia) ltac:(zlia)).
    zlia.
Qed.



(** X2: [calculate_VRS] does not reject NaN.  A NaN among the weights
    passes the weight check, because [abs(nan) > 0.01] is false, and with
    accepted weights a NaN among the scores is no error either: in both
    cases the call returns NaN. *)
Theorem nan_is_never_rejected (S C T w1 w2 w3 : float) :
  is_NaN w1 \/ is_NaN w2 \/ is_NaN w3
  \/ (Spec.weights_rejected w1 w2 w3 = false /\ (is_NaN S \/ is_NaN C \/ is_NaN T)) ->
  exists v, calculate_VRS S C T w1 w2 w3 = Return v /\ is_NaN v.
Proof.
  intros H.
  assert (HR : Spec.weights_rejected w1 w2 w3 = false).
  { unfold Spec.weights_rejected.
    destruct H as [H | [H | [H | [H _]]]]; [| | |exact H]; apply ltb_nan_r, abs_nan, sub_nan_l.
    - apply add_nan_l, add_nan_l, H.
    - apply add_nan_l, add_nan_r, H.
    - apply add_nan_r, H. }
  assert (HV : is_NaN (w1 * S + w2 * C + w3 * T)).
  { destruct H as [H | [H | [H | [_ [H | [H | H]]]]]].
    - apply add_nan_l, add_nan_l, mul_nan_l, H.
    - apply add_nan_l, add_nan_r, mul_nan_l, H.
    - apply add_nan_r, mul_nan_l, H.
    - apply add_nan_l, add_nan_l, mul_nan_r, H.
    - apply add_nan_l, add_nan_r, mul_nan_r, H.
    - apply add_nan_r, mul_nan_r, H. }
  unfold calculate_VRS. unfold Spec.weights_rejected in HR. rewrite HR.
  eexists. split; [reflexivity|]. rewrite round2_nan; assumption.
Qed.

Lemma nan_is_never_rejected_witness :
  exists v, calculate_VRS 0.8 0.7 0.9 nan 0.4 0.2 = Return v /\ is_NaN v.
Proof.
  apply (nan_is_never_rejected 0.8 0.7 0.9 nan 0.4 0.2). left. reflexivity.
Defined.

(** X3: the clamps of the sub-scores do not stop a NaN.  With a NaN
    rating [compute_S] returns NaN, with a NaN argument [compute_C] returns
    NaN, and with a NaN age or decay rate [compute_T] returns NaN, whenever
    the count converts to a float: Python's [min] and [max] return their
    first argument when the comparison with it is false. *)
Theorem clamps_let_nan_through :
  (forall c r n, is_NaN c \/ is_NaN r -> returns (float_of_int n) = true ->
     exists v, compute_S c r n = Return v /\ is_NaN v)
  /\ (forall a c b, is_NaN a \/ is_NaN c \/ is_NaN b -> is_NaN (compute_C a c b))
  /\ (forall age u decay, is_NaN age \/ is_NaN decay -> returns (float_of_int u) = true ->
        exists v, compute_T age u decay = Return v /\ is_NaN v).
Proof.
  split; [|split].
  - intros c r n H Rn. apply returns_Return in Rn. destruct Rn as [x Ex].
    unfold compute_S, int_mul. rewrite Ex. cbn [bind].
    eexists. split; [reflexivity|].
    assert (N : is_NaN ((c + r) / 2 + Py.min (x * 0.02) 0.1)).
    { apply add_nan_l, div_nan_l. destruct H; [apply add_nan_l | apply add_nan_r]; assumption. }
    rewrite min_nan_l; assumption.
  - intros a c b H. unfold compute_C.
    assert (N : is_NaN ((a + c) / 2 - b)).
    { destruct H as [H | [H | H]].
      - apply sub_nan_l, div_nan_l, add_nan_l, H.
      - apply sub_nan_l, div_nan_l, add_nan_r, H.
      - apply sub_nan_r, H. }
    rewrite max_nan_l; assumption.
  - intros age u decay H Ru. apply returns_Return in Ru. destruct Ru as [x Ex].
    unfold compute_T, int_mul. rewrite Ex. cbn [bind].
    eexists. split; [reflexivity|].
    assert (N : is_NaN (1 - age * decay)).
    { apply sub_nan_r. destruct H; [apply mul_nan_l | apply mul_nan_r]; assumption. }
    rewrite (max_nan_l _ 0 N).
    rewrite min_nan_l; apply add_nan_l, N.
Qed.

Lemma clamps_let_nan_through_witness :
  (exists v, compute_S nan 0.9 5 = Return v /\ is_NaN v)
  /\ is_NaN (compute_C 0.9 nan 0.1)
  /\ (exists v, compute_T nan 2 0.05 = Return v /\ is_NaN v).
Proof.
  destruct clamps_let_nan_through as (HS & HC & HT).
  split; [|split].
  - apply (HS nan 0.9 5%Z); [left; reflexivity | reflexivity].
  - apply (HC 0.9 nan 0.1). right. left. reflexivity.
  - apply (HT nan 2%Z 0.05); [left; reflexivity | reflexivity].
Defined.

(** X4: how [calculate_VRS_from_raw] ends.  It fails with the overflow
    error exactly when one of the two counts does not convert to a float,
    whatever the weights are, because the sub-scores are computed before
    the weights are checked; it fails with the weight error exactly when
    both counts convert and the weights are rejected; and it returns a
    score exactly when both counts convert and the weights are accepted. *)
Theorem from_raw_errors_in_order
    (c r : float) (n : Z) (a k b age : float) (u : Z) (decay w1 w2 w3 : float) :
  let result := calculate_VRS_from_raw c r n a k b age u decay w1 w2 w3 in
  (result = Raise IntTooLarge
   <-> returns (float_of_int n) = false \/ returns (float_of_int u) = false)
  /\ (result = Raise InvalidWeights
      <-> returns (float_of_int n) = true /\ returns (float_of_int u) = true
          /\ Spec.weights_rejected w1 w2 w3 = true)
  /\ ((exists v, result = Return v)
      <-> returns (float_of_int n) = true /\ returns (float_of_int u) = true
          /\ Spec.weights_rejected w1 w2 w3 = false).
Proof.
  cbv zeta. unfold calculate_VRS_from_raw, compute_S, compute_T, int_mul.
  destruct (float_of_int n) as [x|e] eqn:En; cbn [bind returns];
    [destruct (float_of_int u) as [y|e] eqn:Eu; cbn [bind returns];
       [unfold calculate_VRS, Spec.weights_rejected;
        destruct (0.01 <? abs (w1 + w2 + w3 - 1))
       | rewrite (float_of_int_error u e Eu)]
    | rewrite (float_of_int_error n e En)];
    repeat split; intros;
    repeat match goal with
           | H : _ \/ _ |- _ => destruct H
           | H : _ /\ _ |- _ => destruct H
           | H : exists _, _ |- _ => destruct H
           end;
    try discriminate; try reflexivity; try tauto; try (eexists; reflexivity).
Qed.

(** ** The capped bonus for a count *)

Lemma float_of_int_mono (n n' : Z) (x x' : float) :
  (n <= n')%Z -> float_of_int n = Return x -> float_of_int n' = Return x' ->
  (fval x <= fval x')%Z.
Proof.
  intros H E E'. rewrite (proj2 (fval_float_of_int n x E)), (proj2 (fval_float_of_int n' x' E')).
  apply rnd_mono; zlia.
Qed.

Lemma float_of_int_nonneg_value (n : Z) (x : float) :
  (0 <= n)%Z -> float_of_int n = Return x -> (0 <= fval x)%Z.
Proof.
  intros H E. rewrite (proj2 (fval_float_of_int n x E)). apply rnd_nonneg; zlia.
Qed.

(** A count times a rate of at most one is a finite float. *)
Lemma scaled_count_finite (x c : float) :
  finite x -> finite c -> (0 <= fval c <= 2 ^ 1074)%Z -> finite (x * c).
Proof.
  intros Fx Fc Hc. destruct (fval_mul x c Fx Fc) as [N E].
  apply finite_of_bounds; [assumption|].
  pose proof (fval_finite_bounds x Fx) as Bx.
  assert (P : (0 < 2 ^ 1074)%Z) by (apply pow2_pos; zlia).
  assert (B : (2 ^ 2098 < 2 ^ 2100)%Z) by (apply Z.pow_lt_mono_r; zlia).
  assert (Ex : rnd (fval x * 2 ^ 1074) (2 ^ 1074) = fval x).
  { rewrite <- (rnd_exact x Fx) at 2. apply Z.le_antisymm; apply rnd_mono; zlia. }
  assert (Ex' : rnd (- fval x * 2 ^ 1074) (2 ^ 1074) = (- fval x)%Z).
  { replace (- fval x * 2 ^ 1074)%Z with (- (fval x * 2 ^ 1074))%Z by zlia.
    rewrite rnd_opp by zlia. rewrite Ex. reflexivity. }
  rewrite E. destruct (Z_le_gt_dec 0 (fval x)) as [Hx|Hx].
  - assert (0 <= rnd (fval x * fval c) (2 ^ 1074))%Z
      by (apply rnd_nonneg; [zlia | apply Z.mul_nonneg_nonneg; zlia]).
    assert (rnd (fval x * fval c) (2 ^ 1074) <= rnd (fval x * 2 ^ 1074) (2 ^ 1074))%Z.
    { apply rnd_mono; [zlia | zlia |].
      first [zlia | apply Z.mul_le_mono_nonneg_r; [zlia|]; apply Z.mul_le_mono_nonneg_l; zlia]. }
    zlia.
  - assert (rnd (fval x * fval c) (2 ^ 1074) <= 0)%Z.
    { rewrite <- (rnd_0 1). apply rnd_mono; [zlia | zlia |].
      assert (fval x * fval c <= 0)%Z by (apply Z.mul_nonpos_nonneg; zlia). zlia. }
    assert (rnd (fval x * 2 ^ 1074) (2 ^ 1074) <= rnd (fval x * fval c) (2 ^ 1074))%Z.
    { apply rnd_mono; [zlia | zlia |].
      assert (- fval x * fval c <= - fval x * 2 ^ 1074)%Z
        by (apply Z.mul_le_mono_nonneg_l; zlia). zlia. }
    zlia.
Qed.

Lemma capped_bonus (n : Z) (x c cap : float) :
  float_of_int n = Return x -> finite c -> (0 <= fval c <= 2 ^ 1074)%Z -> finite cap ->
  finite (Py.min (x * c) cap)
  /\ fval (Py.min (x * c) cap) = Z.min (rnd (fval x * fval c) (2 ^ 1074)) (fval cap).
Proof.
  intros E Fc Hc Fcap. destruct (fval_float_of_int n x E) as [Fx _].
  pose proof (scaled_count_finite x c Fx Fc Hc) as Fs.
  destruct (fval_min (x * c) cap (finite_not_nan _ Fs) (finite_not_nan _ Fcap)) as [N Em].
  rewrite (proj2 (fval_mul x c Fx Fc)) in Em. split; [|assumption].
  apply finite_of_bounds; [assumption|].
  rewrite Em. rewrite <- (proj2 (fval_mul x c Fx Fc)).
  pose proof (finite_bounds_lt _ Fs). pose proof (finite_bounds_lt _ Fcap). zlia.
Qed.

Lemma capped_bonus_mono (n n' : Z) (x x' c cap : float) :
  (n <= n')%Z -> float_of_int n = Return x -> float_of_int n' = Return x' ->
  finite c -> (0 <= fval c <= 2 ^ 1074)%Z -> finite cap ->
  (fval (Py.min (x * c) cap) <= fval (Py.min (x' * c) cap))%Z.
Proof.
  intros H E E' Fc Hc Fcap.
  rewrite (proj2 (capped_bonus n x c cap E Fc Hc Fcap)).
  rewrite (proj2 (capped_bonus n' x' c cap E' Fc Hc Fcap)).
  pose proof (float_of_int_mono n n' x x' H E E') as Hx.
  assert (P : (0 < 2 ^ 1074)%Z) by (apply pow2_pos; zlia).
  assert (rnd (fval x * fval c) (2 ^ 1074) <= rnd (fval x' * fval c) (2 ^ 1074))%Z.
  { apply rnd_mono; [zlia | zlia |].
    first [zlia | apply Z.mul_le_mono_nonneg_r; [zlia|]; apply Z.mul_le_mono_nonneg_r; zlia]. }
  zlia.
Qed.

Lemma capped_bonus_nonneg (n : Z) (x c cap : float) :
  (0 <= n)%Z -> float_of_int n = Return x -> finite c -> (0 <= fval c <= 2 ^ 1074)%Z ->
  finite cap -> (0 <= fval cap)%Z ->
  (0 <= fval (Py.min (x * c) cap))%Z.
Proof.
  intros Hn E Fc Hc Fcap Hcap.
  rewrite (proj2 (capped_bonus n x c cap E Fc Hc Fcap)).
  pose proof (float_of_int_nonneg_value n x Hn E).
  assert (P : (0 < 2 ^ 1074)%Z) by (apply pow2_pos; zlia).
  assert (0 <= rnd (fval x * fval c) (2 ^ 1074))%Z
    by (apply rnd_nonneg; [zlia | apply Z.mul_nonneg_nonneg; zlia]).
  zlia.
Qed.

Lemma rate_002 : finite 0.02 /\ (0 <= fval 0.02 <= 2 ^ 1074)%Z.
Proof.
  split; [exact I|]. rewrite <- fval_0, <- fval_1.
  split; apply leb_fval; try discriminate; reflexivity.
Qed.

Lemma rate_005 : finite 0.05 /\ (0 <= fval 0.05 <= 2 ^ 1074)%Z.
Proof.
  split; [exact I|]. rewrite <- fval_0, <- fval_1.
  split; apply leb_fval; try discriminate; reflexivity.
Qed.

(** From three updates on, [n * 0.05] is above the cap [0.15]. *)
Lemma update_bonus_cap (n : Z) (x : float) :
  (3 <= n)%Z -> float_of_int n = Return x -> Py.min (x * 0.05) 0.15 = 0.15.
Proof.
  intros Hn E. destruct (fval_float_of_int n x E) as [Fx _].
  destruct rate_005 as [F5 H5].
  assert (E3 : float_of_int 3 = Return 3) by reflexivity.
  pose proof (float_of_int_mono 3 n 3 x Hn E3 E) as Hx.
  pose proof (mul_mono_l 3 x 0.05 I Fx F5 ltac:(zlia) Hx) as Hm.
  assert (C : (fval 0.15 < fval (3 * 0.05))%Z)
    by (apply ltb_fval; [discriminate | vm_compute; discriminate | reflexivity]).
  unfold Py.min.
  replace (0.15 <? x * 0.05) with true; [reflexivity|].
  symmetry. apply ltb_fval; [discriminate | apply (fval_mul x 0.05 Fx F5) | zlia].
Qed.

(** X5: the update bonus of [compute_T] is at its cap from three updates
    on: for every count of at least 3 that converts to a float,
    [compute_T] returns what it returns for the count 3. *)
Theorem update_bonus_saturates (age_days : float) (update_frequency : Z)
    (relevance_decay : float) :
  (3 <= update_frequency)%Z -> returns (float_of_int update_frequency) = true ->
  compute_T age_days update_frequency relevance_decay = compute_T age_days 3 relevance_decay.
Proof.
  intros Hn Rn. apply returns_Return in Rn. destruct Rn as [x Ex].
  unfold compute_T, int_mul. rewrite Ex.
  change (float_of_int 3) with (Return 3). cbn [bind].
  rewrite (update_bonus_cap update_frequency x Hn Ex).
  change (Py.min (3 * 0.05) 0.15) with 0.15. reflexivity.
Qed.

Lemma update_bonus_saturates_witness :
  compute_T 10 7 0.05 = compute_T 10 3 0.05.
Proof.
  apply (update_bonus_saturates 10 7 0.05); [lia | reflexivity].
Defined.

(** ** Information of age zero *)

Lemma one_minus_zero_product (decay : float) : finite decay -> 1 - 0 * decay = 1.
Proof.
  unfold finite. intros H. apply Prim2SF_inj. rewrite sub_spec, mul_spec.
  change (Prim2SF 0) with (S754_zero false). change (Prim2SF 1) with SFone.
  destruct (Prim2SF decay) as [s|s| |s m e]; cbn in H; try contradiction; reflexivity.
Qed.

(** X6: information of age zero scores exactly 1.0 in [compute_T], for
    every update count that is not negative and every finite decay rate:
    the bonus is added to 1.0 and the sum is clamped back to 1.0. *)
Theorem compute_T_at_age_zero (update_frequency : Z) (relevance_decay : float) :
  (0 <= update_frequency)%Z -> returns (float_of_int update_frequency) = true ->
  finite relevance_decay ->
  compute_T 0 update_frequency relevance_decay = Return 1.
Proof.
  intros Hn Rn Fd. apply returns_Return in Rn. destruct Rn as [x Ex].
  unfold compute_T, int_mul. rewrite Ex. cbn [bind]. f_equal.
  rewrite (one_minus_zero_product relevance_decay Fd).
  change (Py.max 1 0) with 1.
  destruct rate_005 as [F5 H5].
  destruct (capped_bonus update_frequency x 0.05 0.15 Ex F5 H5 I) as [Fb _].
  assert (Hb : (0 <= fval (Py.min (x * 0.05) 0.15))%Z).
  { apply (capped_bonus_nonneg update_frequency); try assumption; try exact I.
    rewrite <- fval_0. apply leb_fval; try discriminate; reflexivity. }
  set (b := Py.min (x * 0.05) 0.15) in *.
  assert (Ns : ~ is_NaN (1 + b)).
  { apply add_not_nan; [discriminate | apply finite_not_nan, Fb |].
    left. pose proof (finite_bounds_lt 1 I). pose proof (finite_bounds_lt b Fb). zlia. }
  assert (Hs : (fval 1 <= fval (1 + b))%Z).
  { rewrite (fval_add 1 b Ns). rewrite <- (rnd_exact 1 I) at 1. apply rnd_mono; zlia. }
  unfold Py.min at 1. destruct (1 <? 1 + b) eqn:L; [reflexivity|].
  apply ltb_false_fval in L; [|discriminate|assumption].
  apply fval_inj; [assumption | discriminate | zlia |].
  rewrite fval_1 in *. assert (0 < 2 ^ 1074)%Z by (apply pow2_pos; zlia). zlia.
Qed.

Lemma compute_T_at_age_zero_witness : compute_T 0 2 0.05 = Return 1.
Proof.
  apply (compute_T_at_age_zero 2 0.05); [lia | reflexivity | exact I].
Defined.

(** ** The weighted sum *)

Lemma weighted_sum_mono (S C T S' C' T' w1 w2 w3 : float) :
  Spec.nonneg_real w1 -> Spec.nonneg_real w2 -> Spec.nonneg_real w3 ->
  Spec.nonneg_real S -> Spec.nonneg_real C -> Spec.nonneg_real T ->
  Spec.nonneg_real S' -> Spec.nonneg_real C' -> Spec.nonneg_real T' ->
  (fval S <= fval S')%Z -> (fval C <= fval C')%Z -> (fval T <= fval T')%Z ->
  ~ is_NaN (w1 * S + w2 * C + w3 * T) /\ ~ is_NaN (w1 * S' + w2 * C' + w3 * T')
  /\ (0 <= fval (w1 * S + w2 * C + w3 * T) <= fval (w1 * S' + w2 * C' + w3 * T'))%Z.
Proof.
  rewrite !nonneg_real_fval.
  intros [F1 H1] [F2 H2] [F3 H3] [FS HS] [FC HC] [FT HT] [FS' HS'] [FC' HC'] [FT' HT'] LS LC LT.
  pose proof (mul_mono_nonneg w1 S w1 S' F1 FS F1 FS' ltac:(zlia) ltac:(zlia)) as M1.
  pose proof (mul_mono_nonneg w2 C w2 C' F2 FC F2 FC' ltac:(zlia) ltac:(zlia)) as M2.
  pose proof (mul_mono_nonneg w3 T w3 T' F3 FT F3 FT' ltac:(zlia) ltac:(zlia)) as M3.
  pose proof (proj1 (fval_mul w1 S F1 FS)) as N1.
  pose proof (proj1 (fval_mul w2 C F2 FC)) as N2.
  pose proof (proj1 (fval_mul w3 T F3 FT)) as N3.
  pose proof (proj1 (fval_mul w1 S' F1 FS')) as N1'.
  pose proof (proj1 (fval_mul w2 C' F2 FC')) as N2'.
  pose proof (proj1 (fval_mul w3 T' F3 FT')) as N3'.
  destruct (sum_of_nonneg (w1 * S) (w2 * C) N1 N2 ltac:(zlia) ltac:(zlia)) as [Na Ha].
  destruct (sum_of_nonneg (w1 * S') (w2 * C') N1' N2' ltac:(zlia) ltac:(zlia)) as [Na' Ha'].
  destruct (sum_of_nonneg _ (w3 * T) Na N3 Ha ltac:(zlia)) as [Nb Hb].
  destruct (sum_of_nonneg _ (w3 * T') Na' N3' Ha' ltac:(zlia)) as [Nb' Hb'].
  split; [assumption|]. split; [assumption|]. split; [assumption|].
  apply add_mono; try assumption; [|zlia].
  apply add_mono; try assumption; zlia.
Qed.

Lemma nonneg_real_weights_sum (w1 w2 w3 : float) :
  Spec.nonneg_real w1 -> Spec.nonneg_real w2 -> Spec.nonneg_real w3 ->
  ~ is_NaN (w1 + w2 + w3)
  /\ fval (w1 + w2 + w3) = fval (w1 * 1 + w2 * 1 + w3 * 1).
Proof.
  rewrite !nonneg_real_fval. intros [F1 H1] [F2 H2] [F3 H3].
  pose proof (mul_one_r_value w1 F1) as E1.
  pose proof (mul_one_r_value w2 F2) as E2.
  pose proof (mul_one_r_value w3 F3) as E3.
  pose proof (proj1 (fval_mul w1 1 F1 I)) as N1.
  pose proof (proj1 (fval_mul w2 1 F2 I)) as N2.
  pose proof (proj1 (fval_mul w3 1 F3 I)) as N3.
  destruct (sum_of_nonneg w1 w2 (finite_not_nan _ F1) (finite_not_nan _ F2) H1 H2) as [Na Ha].
  destruct (sum_of_nonneg _ w3 Na (finite_not_nan _ F3) Ha H3) as [Nb Hb].
  destruct (sum_of_nonneg (w1 * 1) (w2 * 1) N1 N2 ltac:(zlia) ltac:(zlia)) as [Na' Ha'].
  destruct (sum_of_nonneg _ (w3 * 1) Na' N3 Ha' ltac:(zlia)) as [Nb' Hb'].
  split; [assumption|].
  rewrite (fval_add (w1 + w2) w3 Nb), (fval_add w1 w2 Na).
  rewrite (fval_add (w1 * 1 + w2 * 1) (w3 * 1) Nb'), (fval_add (w1 * 1) (w2 * 1) Na').
  rewrite E1, E2, E3. reflexivity.
Qed.

Lemma in_unit_nonneg_real (x : float) : Spec.in_unit x -> Spec.nonneg_real x.
Proof.
  intros H. apply nonneg_real_fval. split; [apply in_unit_finite, H|].
  apply in_unit_fval in H. zlia.
Qed.

Lemma nonneg_real_1 : Spec.nonneg_real 1.
Proof. split; reflexivity. Qed.

(** With scores in the unit interval the weighted sum does not pass the sum
    of the weights. *)
Lemma weighted_sum_le_weights (S C T w1 w2 w3 : float) :
  Spec.in_unit S -> Spec.in_unit C -> Spec.in_unit T ->
  Spec.nonneg_real w1 -> Spec.nonneg_real w2 -> Spec.nonneg_real w3 ->
  ~ is_NaN (w1 * S + w2 * C + w3 * T) /\ ~ is_NaN (w1 + w2 + w3)
  /\ (0 <= fval (w1 * S + w2 * C + w3 * T) <= fval (w1 + w2 + w3))%Z.
Proof.
  intros HS HC HT H1 H2 H3.
  destruct (nonneg_real_weights_sum w1 w2 w3 H1 H2 H3) as [NW EW].
  destruct (weighted_sum_mono S C T 1 1 1 w1 w2 w3) as (N & _ & L);
    try assumption; try apply nonneg_real_1; try (apply in_unit_nonneg_real; assumption);
    try (rewrite fval_1; apply in_unit_fval; assumption).
  rewrite EW. auto.
Qed.

(** X7: a higher sub-score never lowers the result of [calculate_VRS].
    With weights and scores that are finite and not negative, raising
    any of the three scores gives a result at least as large, rounding
    included; the weight check does not look at the scores, so both calls
    return or both fail with the weight error. *)
Theorem vrs_monotone_in_scores (S C T S' C' T' w1 w2 w3 : float) :
  Spec.nonneg_real w1 -> Spec.nonneg_real w2 -> Spec.nonneg_real w3 ->
  Spec.nonneg_real S -> Spec.nonneg_real C -> Spec.nonneg_real T ->
  (S <=? S') = true -> (C <=? C') = true -> (T <=? T') = true ->
  (S' <? infinity) = true -> (C' <? infinity) = true -> (T' <? infinity) = true ->
  match calculate_VRS S C T w1 w2 w3, calculate_VRS S' C' T' w1 w2 w3 with
  | Return v, Return v' => (v <=? v') = true
  | Raise e, Raise e' => e = InvalidWeights /\ e' = InvalidWeights
  | _, _ => False
  end.
Proof.
  intros H1 H2 H3 HS HC HT LS LC LT IS IC IT.
  assert (HS' : Spec.nonneg_real S').
  { split; [|assumption]. apply leb_le in LS. destruct LS as (NS & NS' & LS).
    destruct HS as [HS _]. apply leb_le in HS.
    apply leb_fval; [discriminate | assumption | zlia]. }
  assert (HC' : Spec.nonneg_real C').
  { split; [|assumption]. apply leb_le in LC. destruct LC as (NC & NC' & LC).
    destruct HC as [HC _]. apply leb_le in HC.
    apply leb_fval; [discriminate | assumption | zlia]. }
  assert (HT' : Spec.nonneg_real T').
  { split; [|assumption]. apply leb_le in LT. destruct LT as (NT & NT' & LT).
    destruct HT as [HT _]. apply leb_le in HT.
    apply leb_fval; [discriminate | assumption | zlia]. }
  apply leb_le in LS, LC, LT.
  destruct (weighted_sum_mono S C T S' C' T' w1 w2 w3) as (N & N' & L); try assumption;
    try tauto.
  unfold calculate_VRS. destruct (0.01 <? abs (w1 + w2 + w3 - 1)); [split; reflexivity|].
  apply round2_mono. apply leb_fval; try assumption. zlia.
Qed.

Lemma vrs_monotone_in_scores_witness :
  match calculate_VRS 0.5 0.6 0.4 0.4 0.4 0.2, calculate_VRS 0.8 0.7 0.9 0.4 0.4 0.2 with
  | Return v, Return v' => (v <=? v') = true
  | Raise e, Raise e' => e = InvalidWeights /\ e' = InvalidWeights
  | _, _ => False
  end.
Proof.
  apply (vrs_monotone_in_scores 0.5 0.6 0.4 0.8 0.7 0.9 0.4 0.4 0.2);
    try (split; reflexivity); reflexivity.
Defined.

(** X8: with sub-scores in the unit interval and weights that are finite
    and not negative, [calculate_VRS] either fails with the weight error or
    returns a value from 0 to 1.01; the bound 1.01, not 1.0, is the one the
    weight tolerance allows. *)
Theorem vrs_range_for_unit_scores (S C T w1 w2 w3 : float) :
  Spec.in_unit S -> Spec.in_unit C -> Spec.in_unit T ->
  Spec.nonneg_real w1 -> Spec.nonneg_real w2 -> Spec.nonneg_real w3 ->
  match calculate_VRS S C T w1 w2 w3 with
  | Return v => (0 <=? v) = true /\ (v <=? 1.01) = true
  | Raise e => e = InvalidWeights
  end.
Proof.
  intros HS HC HT H1 H2 H3.
  destruct (weighted_sum_le_weights S C T w1 w2 w3) as (N & NW & L); try assumption.
  pose proof (weights_accepted_by_value w1 w2 w3 NW) as V.
  unfold calculate_VRS. unfold Spec.weights_rejected in V.
  destruct (0.01 <? abs (w1 + w2 + w3 - 1)); [reflexivity|].
  destruct V as [V _]. specialize (V eq_refl).
  split.
  - change 0 with (round2 0) at 1. apply round2_mono.
    apply leb_fval; [discriminate | assumption | rewrite fval_0; zlia].
  - change 1.01 with (round2 greatest_accepted_sum). apply round2_mono.
    apply leb_fval; [assumption | discriminate | zlia].
Qed.

Lemma vrs_range_for_unit_scores_witness :
  match calculate_VRS 1 1 1 0.4 0.4 0.209 with
  | Return v => (0 <=? v) = true /\ (v <=? 1.01) = true
  | Raise e => e = InvalidWeights
  end.
Proof.
  apply (vrs_range_for_unit_scores 1 1 1 0.4 0.4 0.209); split; reflexivity.
Defined.

(** X9: with the default weights 0.4, 0.4 and 0.2 and sub-scores in the
    unit interval, [calculate_VRS] returns a score, and the score is in the
    unit interval. *)
Theorem vrs_in_unit_for_default_weights (S C T : float) :
  Spec.in_unit S -> Spec.in_unit C -> Spec.in_unit T ->
  exists v, calculate_VRS S C T default_w1 default_w2 default_w3 = Return v
            /\ Spec.in_unit v.
Proof.
  intros HS HC HT. unfold default_w1, default_w2, default_w3.
  destruct (weighted_sum_le_weights S C T 0.4 0.4 0.2) as (N & NW & L); try assumption;
    try (split; reflexivity).
  unfold calculate_VRS.
  change (0.01 <? abs (0.4 + 0.4 + 0.2 - 1)) with false. cbv iota.
  eexists. split; [reflexivity|]. split.
  - change 0 with (round2 0) at 1. apply round2_mono.
    apply leb_fval; [discriminate | assumption | rewrite fval_0; zlia].
  - change 1 with (round2 1) at 1. apply round2_mono.
    apply leb_fval; [assumption | discriminate |].
    change (0.4 + 0.4 + 0.2) with 1 in L. zlia.
Qed.

Lemma vrs_in_unit_for_default_weights_witness :
  exists v, calculate_VRS 0.8 0.7 0.9 default_w1 default_w2 default_w3 = Return v
            /\ Spec.in_unit v.
Proof.
  apply (vrs_in_unit_for_default_weights 0.8 0.7 0.9); split; reflexivity.
Defined.

(** ** The sub-scores keep the order of their arguments *)

(** X10: on finite arguments [compute_C] rises with the accuracy and with
    the completeness and falls with the bias penalty, in binary64
    arithmetic. *)
Theorem compute_C_monotone (accuracy completeness bias_score
                            accuracy' completeness' bias_score' : float) :
  finite accuracy -> finite completeness -> finite bias_score ->
  finite accuracy' -> finite completeness' -> finite bias_score' ->
  (accuracy <=? accuracy') = true -> (completeness <=? completeness') = true ->
  (bias_score' <=? bias_score) = true ->
  (compute_C accuracy completeness bias_score
   <=? compute_C accuracy' completeness' bias_score') = true.
Proof.
  intros Fa Fc Fb Fa' Fc' Fb' La Lc Lb.
  apply leb_le in La, Lc, Lb.
  destruct (half_sum_mono accuracy completeness accuracy' completeness')
    as (Nh & Nh' & Lh); try assumption; try tauto.
  unfold compute_C.
  set (h := (accuracy + completeness) / 2) in *.
  set (h' := (accuracy' + completeness') / 2) in *.
  pose proof (sub_finite_r_not_nan h bias_score Nh Fb) as Nd.
  pose proof (sub_finite_r_not_nan h' bias_score' Nh' Fb') as Nd'.
  pose proof (sub_mono h bias_score h' bias_score' Nd Nd' Lh ltac:(tauto)) as Ld.
  destruct (fval_max (h - bias_score) 0 Nd ltac:(discriminate)) as [Nm Em].
  destruct (fval_max (h' - bias_score') 0 Nd' ltac:(discriminate)) as [Nm' Em'].
  apply leb_fval; try assumption. rewrite Em, Em'. zlia.
Qed.

Lemma compute_C_monotone_witness :
  (compute_C 0.7 0.6 0.2 <=? compute_C 0.9 0.8 0.1) = true.
Proof.
  apply (compute_C_monotone 0.7 0.6 0.2 0.9 0.8 0.1); try exact I; reflexivity.
Defined.

(** X11: on finite ratings [compute_S] rises with both ratings and with
    the verification count, for counts that convert to a float. *)
Theorem compute_S_monotone (credibility_score source_reputation : float)
    (verification_count : Z) (credibility_score' source_reputation' : float)
    (verification_count' : Z) :
  finite credibility_score -> finite source_reputation ->
  finite credibility_score' -> finite source_reputation' ->
  (credibility_score <=? credibility_score') = true ->
  (source_reputation <=? source_reputation') = true ->
  (verification_count <= verification_count')%Z ->
  returns (float_of_int verification_count) = true ->
  returns (float_of_int verification_count') = true ->
  exists v v',
    compute_S credibility_score source_reputation verification_count = Return v
    /\ compute_S credibility_score' source_reputation' verification_count' = Return v'
    /\ (v <=? v') = true.
Proof.
  intros Fc Fr Fc' Fr' Lc Lr Ln Rn Rn'.
  apply returns_Return in Rn, Rn'. destruct Rn as [x Ex], Rn' as [x' Ex'].
  apply leb_le in Lc, Lr.
  destruct (half_sum_mono credibility_score source_reputation
              credibility_score' source_reputation')
    as (Nh & Nh' & Lh); try assumption; try tauto.
  unfold compute_S, int_mul. rewrite Ex, Ex'. cbn [bind].
  eexists. eexists. split; [reflexivity|]. split; [reflexivity|].
  set (h := (credibility_score + source_reputation) / 2) in *.
  set (h' := (credibility_score' + source_reputation') / 2) in *.
  destruct rate_002 as [F2 H2].
  destruct (capped_bonus verification_count x 0.02 0.1 Ex F2 H2 I) as [Fb _].
  destruct (capped_bonus verification_count' x' 0.02 0.1 Ex' F2 H2 I) as [Fb' _].
  pose proof (capped_bonus_mono verification_count verification_count' x x' 0.02 0.1
                Ln Ex Ex' F2 H2 I) as Lb.
  set (b := Py.min (x * 0.02) 0.1) in *. set (b' := Py.min (x' * 0.02) 0.1) in *.
  pose proof (add_finite_r_not_nan h b Nh Fb) as Ns.
  pose proof (add_finite_r_not_nan h' b' Nh' Fb') as Ns'.
  pose proof (add_mono h b h' b' Ns Ns' Lh Lb) as Ls.
  destruct (fval_min (h + b) 1 Ns ltac:(discriminate)) as [Nm Em].
  destruct (fval_min (h' + b') 1 Ns' ltac:(discriminate)) as [Nm' Em'].
  apply leb_fval; try assumption. rewrite Em, Em'. zlia.
Qed.

Lemma compute_S_monotone_witness :
  exists v v',
    compute_S 0.5 0.6 0 = Return v /\ compute_S 0.8 0.9 5 = Return v' /\ (v <=? v') = true.
Proof.
  apply (compute_S_monotone 0.5 0.6 0 0.8 0.9 5); try exact I; try reflexivity. lia.
Defined.

(** X12: for ages and decay rates that are finite and not negative,
    [compute_T] falls with the age and with the decay rate and rises with
    the update count, for counts that convert to a float. *)
Theorem compute_T_monotone (age_days : float) (update_frequency : Z)
    (relevance_decay : float) (age_days' : float) (update_frequency' : Z)
    (relevance_decay' : float) :
  Spec.nonneg_real age_days -> Spec.nonneg_real relevance_decay ->
  Spec.nonneg_real age_days' -> Spec.nonneg_real relevance_decay' ->
  (age_days <=? age_days') = true -> (relevance_decay <=? relevance_decay') = true ->
  (update_frequency' <= update_frequency)%Z ->
  returns (float_of_int update_frequency) = true ->
  returns (float_of_int update_frequency') = true ->
  exists v v',
    compute_T age_days update_frequency relevance_decay = Return v
    /\ compute_T age_days' update_frequency' relevance_decay' = Return v'
    /\ (v' <=? v) = true.
Proof.
  intros Ha Hd Ha' Hd' La Ld Ln Rn Rn'.
  apply returns_Return in Rn, Rn'. destruct Rn as [x Ex], Rn' as [x' Ex'].
  apply leb_le in La, Ld.
  apply nonneg_real_fval in Ha, Hd, Ha', Hd'.
  destruct Ha as [Fa Pa], Hd as [Fd Pd], Ha' as [Fa' Pa'], Hd' as [Fd' Pd'].
  unfold compute_T, int_mul. rewrite Ex, Ex'. cbn [bind].
  eexists. eexists. split; [reflexivity|]. split; [reflexivity|].
  pose proof (mul_mono_nonneg age_days relevance_decay age_days' relevance_decay'
                Fa Fd Fa' Fd' ltac:(zlia) ltac:(zlia)) as Lp.
  pose proof (proj1 (fval_mul age_days relevance_decay Fa Fd)) as Np.
  pose proof (proj1 (fval_mul age_days' relevance_decay' Fa' Fd')) as Np'.
  set (p := age_days * relevance_decay) in *. set (p' := age_days' * relevance_decay') in *.
  assert (P : (0 < 2 ^ 2100)%Z) by (apply pow2_pos; zlia).
  pose proof (finite_bounds_lt 1 I) as B1.
  assert (Nd : ~ is_NaN (1 - p))
    by (apply sub_not_nan; [discriminate | assumption | right; zlia]).
  assert (Nd' : ~ is_NaN (1 - p'))
    by (apply sub_not_nan; [discriminate | assumption | right; zlia]).
  pose proof (sub_mono 1 p' 1 p Nd' Nd ltac:(zlia) ltac:(zlia)) as Lq.
  destruct (fval_max (1 - p) 0 Nd ltac:(discriminate)) as [Nm Em].
  destruct (fval_max (1 - p') 0 Nd' ltac:(discriminate)) as [Nm' Em'].
  set (base := Py.max (1 - p) 0) in *. set (base' := Py.max (1 - p') 0) in *.
  destruct rate_005 as [F5 H5].
  destruct (capped_bonus update_frequency x 0.05 0.15 Ex F5 H5 I) as [Fb _].
  destruct (capped_bonus update_frequency' x' 0.05 0.15 Ex' F5 H5 I) as [Fb' _].
  pose proof (capped_bonus_mono update_frequency' update_frequency x' x 0.05 0.15
                Ln Ex' Ex F5 H5 I) as Lb.
  set (b := Py.min (x * 0.05) 0.15) in *. set (b' := Py.min (x' * 0.05) 0.15) in *.
  pose proof (add_finite_r_not_nan base b Nm Fb) as Ns.
  pose proof (add_finite_r_not_nan base' b' Nm' Fb') as Ns'.
  pose proof (add_mono base' b' base b Ns' Ns ltac:(zlia) Lb) as Ls.
  destruct (fval_min (base + b) 1 Ns ltac:(discriminate)) as [Nr Er].
  destruct (fval_min (base' + b') 1 Ns' ltac:(discriminate)) as [Nr' Er'].
  apply leb_fval; try assumption. rewrite Er, Er'. zlia.
Qed.

Lemma compute_T_monotone_witness :
  exists v v',
    compute_T 1 3 0.05 = Return v /\ compute_T 15 0 0.05 = Return v' /\ (v' <=? v) = true.
Proof.
  apply (compute_T_monotone 1 3 0.05 15 0 0.05); try (split; reflexivity); try reflexivity.
  lia.
Defined.

(** ** From raw inputs to the final score *)

Lemma sub_scores_unit
    (credibility_score source_reputation : float) (verification_count : Z)
    (accuracy completeness bias_score : float)
    (age_days : float) (update_frequency : Z) (relevance_decay : float) (x y : float) :
  Spec.in_unit credibility_score -> Spec.in_unit source_reputation ->
  (0 <= verification_count)%Z -> float_of_int verification_count = Return x ->
  Spec.in_unit accuracy -> Spec.in_unit completeness -> Spec.in_unit bias_score ->
  Spec.nonneg_real age_days -> (0 <= update_frequency)%Z ->
  float_of_int update_frequency = Return y -> Spec.nonneg_real relevance_decay ->
  Spec.in_unit (Py.min ((credibility_score + source_reputation) / 2
                        + Py.min (x * 0.02) 0.1) 1)
  /\ Spec.in_unit (compute_C accuracy completeness bias_score)
  /\ Spec.in_unit (Py.min (Py.max (1 - age_days * relevance_decay) 0
                           + Py.min (y * 0.05) 0.15) 1).
Proof.
  intros Hc Hr Hn Ex Ha Hk Hb Hage Hu Ey Hd.
  split; [|split].
  - apply min_one_in_unit, add_nonneg.
    + apply half_sum_in_unit; assumption.
    + apply min_nonneg; [|reflexivity].
      apply (scaled_nonneg verification_count); [assumption | assumption |].
      split; reflexivity.
  - unfold compute_C. apply max_zero_in_unit, sub_le_one; [|assumption].
    apply half_sum_in_unit; assumption.
  - apply min_one_in_unit, add_nonneg.
    + apply max_zero_nonneg, one_minus_not_nan, mul_nonneg; assumption.
    + apply min_nonneg; [|reflexivity].
      apply (scaled_nonneg update_frequency); [assumption | assumption |].
      split; reflexivity.
Qed.

(** X13: on inputs within the documented domains (ratings, accuracy,
    completeness and bias in the unit interval; counts, age and decay rate
    finite and not negative; counts that convert to a float) and with the
    default weights, [calculate_VRS_from_raw] returns a score, and the
    score is in the unit interval. *)
Theorem from_raw_in_unit_for_default_weights
    (credibility_score source_reputation : float) (verification_count : Z)
    (accuracy completeness bias_score : float)
    (age_days : float) (update_frequency : Z) (relevance_decay : float) :
  Spec.in_unit credibility_score -> Spec.in_unit source_reputation ->
  (0 <= verification_count)%Z -> returns (float_of_int verification_count) = true ->
  Spec.in_unit accuracy -> Spec.in_unit completeness -> Spec.in_unit bias_score ->
  Spec.nonneg_real age_days -> (0 <= update_frequency)%Z ->
  returns (float_of_int update_frequency) = true -> Spec.nonneg_real relevance_decay ->
  exists v,
    calculate_VRS_from_raw credibility_score source_reputation verification_count
      accuracy completeness bias_score age_days update_frequency relevance_decay
      default_w1 default_w2 default_w3 = Return v
    /\ Spec.in_unit v.
Proof.
  intros Hc Hr Hn Rn Ha Hk Hb Hage Hu Ru Hd.
  apply returns_Return in Rn, Ru. destruct Rn as [x Ex], Ru as [y Ey].
  destruct (sub_scores_unit credibility_score source_reputation verification_count
              accuracy completeness bias_score age_days update_frequency relevance_decay x y)
    as (US & UC & UT); try assumption.
  unfold calculate_VRS_from_raw, compute_S, compute_T, int_mul. rewrite Ex, Ey. cbn [bind].
  unfold default_w1, default_w2, default_w3.
  set (S := Py.min _ 1) in *. set (T := Py.min (_ + Py.min (y * 0.05) 0.15) 1) in *.
  set (C := compute_C accuracy completeness bias_score) in *.
  destruct (weighted_sum_le_weights S C T 0.4 0.4 0.2) as (N & NW & L); try assumption;
    try (split; reflexivity).
  unfold calculate_VRS.
  change (0.01 <? abs (0.4 + 0.4 + 0.2 - 1)) with false. cbv iota.
  eexists. split; [reflexivity|]. split.
  - change 0 with (round2 0) at 1. apply round2_mono.
    apply leb_fval; [discriminate | assumption | rewrite fval_0; zlia].
  - change 1 with (round2 1) at 1. apply round2_mono.
    apply leb_fval; [assumption | discriminate |].
    change (0.4 + 0.4 + 0.2) with 1 in L. zlia.
Qed.

Lemma from_raw_in_unit_for_default_weights_witness :
  exists v,
    calculate_VRS_from_raw 0.8 0.9 5 0.9 0.8 0.1 10 2 0.05
      default_w1 default_w2 default_w3 = Return v
    /\ Spec.in_unit v.
Proof.
  apply (from_raw_in_unit_for_default_weights 0.8 0.9 5 0.9 0.8 0.1 10 2 0.05);
    try (split; reflexivity); try reflexivity; lia.
Defined.

(** X14: a score that [calculate_VRS] returns is a fixed point of
    [round(., 2)]: rounding it to two decimals again gives the same float.
    This holds for every input, NaN and infinities included. *)
Theorem returned_score_is_rounded (S C T w1 w2 w3 : float) :
  match calculate_VRS S C T w1 w2 w3 with
  | Return v => round2 v = v
  | Raise e => e = InvalidWeights
  end.
Proof.
  unfold calculate_VRS. destruct (0.01 <? abs (w1 + w2 + w3 - 1)); [reflexivity|].
  apply round2_idempotent.
Qed.

(** ** The order of the paired arguments *)

(** X15: the results do not depend on the order of the paired arguments:
    the two ratings of [compute_S] and the accuracy and completeness of
    [compute_C] can be exchanged, and so can the first two pairs of score
    and weight of [calculate_VRS]; the results are the same floats, and
    the same errors. *)
Theorem ratings_are_interchangeable :
  (forall credibility_score source_reputation verification_count,
      compute_S credibility_score source_reputation verification_count
      = compute_S source_reputation credibility_score verification_count)
  /\ (forall accuracy completeness bias_score,
        compute_C accuracy completeness bias_score
        = compute_C completeness accuracy bias_score)
  /\ (forall S C T w1 w2 w3,
        calculate_VRS S C T w1 w2 w3 = calculate_VRS C S T w2 w1 w3).
Proof.
  split; [|split].
  - intros c r n. unfold compute_S. rewrite (add_comm_float c r). reflexivity.
  - intros a c b. unfold compute_C. rewrite (add_comm_float a c). reflexivity.
  - intros S C T w1 w2 w3. unfold calculate_VRS.
    rewrite (add_comm_float w1 w2), (add_comm_float (w1 * S) (w2 * C)). reflexivity.
Qed.

(** ** Information whose decay has run out *)


